(** * PolicyUpdater: the HTML -> block extractor and the block -> chunk packer

    A shallow embedding of [ctxt_generator.py].  Python strings are
    sequences of Unicode code points, so a string is a [list N] and
    [len] counts code points, exactly as Python's [len] does (the
    ellipsis U+2026 appended by [shorten_label] is ONE character).
    Integers that the source computes with ([limit], [current_len],
    slice bounds) are [Z]. *)

From stdpp Require Import base numbers list strings gmap.

Local Open Scope Z_scope.
Set Warnings "-register-all".

(** ** Python strings *)

Abbreviation str := (list N).

(** An ASCII literal as a Python string. *)
Definition lit (s : string) : str :=
  map Ascii.N_of_ascii (String.list_ascii_of_string s).

Definition len (s : str) : Z := Z.of_nat (length s).

Definition SP : N := 32%N.
Definition NL : N := 10%N.
Definition CR : N := 13%N.
Definition TAB : N := 9%N.
Definition ELLIPSIS : N := 8230%N.   (* U+2026 *)

(** [str.isspace] for one character; the same table drives [\s] of the
    [re] module on [str] patterns and [str.strip()] without argument. *)
Definition is_space (c : N) : bool :=
  ((9 <=? c) && (c <=? 13) || (28 <=? c) && (c <=? 32)
   || (c =? 133) || (c =? 160) || (c =? 5760)
   || (8192 <=? c) && (c <=? 8202)
   || (c =? 8232) || (c =? 8233) || (c =? 8239) || (c =? 8287)
   || (c =? 12288))%N.

Definition str_eqb (a b : str) : bool := bool_decide (a = b).

(** [s.lstrip()], [s.rstrip()], [s.strip()] *)
Fixpoint lstrip (s : str) : str :=
  match s with
  | c :: s' => if is_space c then lstrip s' else s
  | [] => []
  end.

Definition rstrip (s : str) : str := rev (lstrip (rev s)).

Definition strip (s : str) : str := lstrip (rstrip s).

(** [s.startswith(p)] *)
Fixpoint startswith (s p : str) : bool :=
  match p, s with
  | [], _ => true
  | a :: p', b :: s' => (a =? b)%N && startswith s' p'
  | _ :: _, [] => false
  end.

(** [p in s] for strings: [p] occurs as a contiguous substring. *)
Fixpoint contains (s p : str) : bool :=
  startswith s p ||
  match s with
  | [] => false
  | _ :: s' => contains s' p
  end.

(** [sep.join(parts)] *)
Fixpoint join (sep : str) (parts : list str) : str :=
  match parts with
  | [] => []
  | [p] => p
  | p :: ps => p ++ sep ++ join sep ps
  end.

(** [s.split("\n")]: always at least one field. *)
Fixpoint split_nl_aux (cur : str) (s : str) : list str :=
  match s with
  | [] => [rev cur]
  | c :: s' =>
      if (c =? NL)%N then rev cur :: split_nl_aux [] s'
      else split_nl_aux (c :: cur) s'
  end.

Definition split_nl (s : str) : list str := split_nl_aux [] s.

(** [s[:n]] with Python's slice rules: a negative bound counts from the
    end, and every bound is clamped to the string. *)
Definition slice_to (s : str) (n : Z) : str :=
  if n <? 0 then take (Z.to_nat (len s + n)) s else take (Z.to_nat n) s.

(** ** Helpers of [ctxt_generator.py] *)

(** [re.sub(r"\s+", " ", s)]: every maximal run of whitespace becomes one
    space.  [in_run] tells that the previous character was whitespace. *)
Fixpoint sub_ws (in_run : bool) (s : str) : str :=
  match s with
  | [] => []
  | c :: s' =>
      if is_space c
      then (if in_run then sub_ws true s' else SP :: sub_ws true s')
      else c :: sub_ws false s'
  end.

(** [norm_ws]: [re.sub(r"\s+", " ", s or "").strip()] *)
Definition norm_ws (s : str) : str := strip (sub_ws false s).

(** [s.replace("\r\n", "\n").replace("\r", "\n")] *)
Fixpoint unify_newlines (s : str) : str :=
  match s with
  | [] => []
  | c :: s' =>
      if (c =? CR)%N then
        match s' with
        | d :: s'' => if (d =? NL)%N then NL :: unify_newlines s''
                      else NL :: unify_newlines s'
        | [] => [NL]
        end
      else c :: unify_newlines s'
  end.

(** The loop of [norm_multiline] that keeps one blank line per run. *)
Fixpoint squeeze_blank (prev_blank : bool) (lines : list str) : list str :=
  match lines with
  | [] => []
  | ln :: rest =>
      match ln with
      | [] => if prev_blank then squeeze_blank true rest
              else [] :: squeeze_blank true rest
      | _ => ln :: squeeze_blank false rest
      end
  end.

Definition norm_multiline (s : str) : str :=
  let s := unify_newlines s in
  let lines := split_nl s in
  let lines := map (fun ln => strip (sub_ws false ln)) lines in
  strip (join [NL] (squeeze_blank false lines)).

(** The character class [[,;:–—\-]] of [shorten_label]. *)
Definition is_label_punct (c : N) : bool :=
  ((c =? 44) || (c =? 59) || (c =? 58) || (c =? 8211) || (c =? 8212)
   || (c =? 45))%N.

(** [re.search(r"[,;:–—\-]\s", r)]: [m.start()] of the leftmost
    match, counted from [i]. *)
Fixpoint search_punct_ws (r : str) (i : Z) : option Z :=
  match r with
  | c :: r' =>
      match r' with
      | d :: _ =>
          if is_label_punct c && is_space d then Some i
          else search_punct_ws r' (i + 1)
      | [] => None
      end
  | [] => None
  end.

Definition shorten_label (s : str) (limit : Z) : str :=
  let s := norm_ws s in
  if len s <=? limit then s
  else
    match search_punct_ws (rev (slice_to s limit)) 0 with
    | Some start =>
        let cut := limit - start in
        norm_ws (slice_to s cut) ++ [ELLIPSIS]
    | None => rstrip (slice_to s limit) ++ [ELLIPSIS]
    end.

(** *** Q/A detection *)

(** The regular expression [^\s*[cs]\s*[:.\-]\s+] matched at the start of
    [t], where [cs] is the class of marker letters: [Some rest] is what
    follows the match.  All the classes are disjoint from [\s], so the
    greedy match is the only one. *)
Definition is_marker_punct (c : N) : bool :=
  ((c =? 58) || (c =? 46) || (c =? 45))%N.

Definition match_marker (letter : N -> bool) (t : str) : option str :=
  match lstrip t with
  | c :: t1 =>
      if letter c then
        match lstrip t1 with
        | p :: t2 =>
            if is_marker_punct p then
              match t2 with
              | w :: _ => if is_space w then Some (lstrip t2) else None
              | [] => None
              end
            else None
        | [] => None
        end
      else None
  | [] => None
  end.

Definition is_Qq (c : N) : bool := ((c =? 81) || (c =? 113))%N.
Definition is_Aa (c : N) : bool := ((c =? 65) || (c =? 97))%N.

Definition is_question_text (t : str) : bool :=
  bool_decide (is_Some (match_marker is_Qq t)).

Definition is_answer_text (t : str) : bool :=
  bool_decide (is_Some (match_marker is_Aa t)).

Definition strip_q_or_a_prefix (t : str) : str :=
  match match_marker (fun c => is_Qq c || is_Aa c) t with
  | Some rest => strip rest
  | None => strip t
  end.

(** [re.sub(r"\s*:\s*$", "", s)]: the leftmost match is the longest suffix
    of the shape whitespace, colon, whitespace. *)
Definition strip_trailing_colon (s : str) : str :=
  match lstrip (rev s) with
  | c :: r => if (c =? 58)%N then rev (lstrip r) else s
  | [] => s
  end.

(** ** The parsed document

    The source works on the tree that BeautifulSoup's [html.parser]
    builds; the parser itself is a library and is not modelled, so a
    document enters the model as its parse tree.  A [Tag] carries the
    identity that Python's [id(node)] observes; plain text is a
    [NavigableString].  A [Comment] stands for a string node of one of
    the other classes of the library (a comment, a doctype, a
    declaration, a processing instruction, and the strings that the
    library keeps apart inside [<script>], [<style>] and [<template>]):
    it passes [isinstance(_, NavigableString)] and [str] gives its
    content, but the [get_text] of a paragraph, item, cell or anchor
    leaves it out.  Tag names are lower case, as the parser makes
    them. *)

Inductive node : Type :=
| NavigableString (s : str)
| Comment (s : str)
| Tag (id : nat) (name : str) (attrs : list (str * str)) (contents : list node).

Definition block : Type := list str * str.

Definition name_in (names : list string) (name : str) : bool :=
  existsb (fun n => str_eqb name (lit n)) names.

Definition is_tag_named (names : list string) (n : node) : bool :=
  match n with
  | Tag _ name _ _ => name_in names name
  | NavigableString _ | Comment _ => false
  end.

Definition contents_of (n : node) : list node :=
  match n with
  | Tag _ _ _ kids => kids
  | NavigableString _ | Comment _ => []
  end.

(** [el.find_all(names, recursive=False)]: the direct children that are
    tags with one of the names. *)
Definition find_children (names : list string) (el : node) : list node :=
  List.filter (is_tag_named names) (contents_of el).

(** [el.find_all(names)]: all descendant tags with one of the names, in
    document order. *)
Fixpoint find_all (names : list string) (el : node) : list node :=
  match el with
  | NavigableString _ | Comment _ => []
  | Tag _ _ _ kids =>
      flat_map (fun k => (if is_tag_named names k then [k] else [])
                           ++ find_all names k) kids
  end.

(** The strings below a node in document order ([_all_strings]), those
    of the classes that [get_text] is interested in; with [strip=True]
    each one is stripped and the empty ones are skipped. *)
Fixpoint all_strings (strip_them : bool) (el : node) : list str :=
  match el with
  | NavigableString s =>
      if strip_them
      then (match strip s with [] => [] | t => [t] end)
      else [s]
  | Comment _ => []
  | Tag _ _ _ kids => flat_map (all_strings strip_them) kids
  end.

(** [el.get_text(sep, strip=...)] *)
Definition get_text (sep : str) (strip_them : bool) (el : node) : str :=
  join sep (all_strings strip_them el).

Fixpoint attr_lookup (key : str) (attrs : list (str * str)) : option str :=
  match attrs with
  | [] => None
  | (k, v) :: rest => if str_eqb k key then Some v else attr_lookup key rest
  end.

(** The loop of [extract_plain_text]: every [<a href=...>] is replaced, in
    place, by the string ["<its text> (<href>)"].  An anchor inside a
    replaced anchor leaves the tree with it. *)
Fixpoint replace_links (el : node) : node :=
  match el with
  | NavigableString s => NavigableString s
  | Comment s => Comment s
  | Tag id name attrs kids =>
      match (if str_eqb name (lit "a") then attr_lookup (lit "href") attrs
             else None) with
      | Some href =>
          NavigableString
            (get_text [SP] true el ++ lit " (" ++ href ++ lit ")")
      | None => Tag id name attrs (map replace_links kids)
      end
  end.

(** [extract_plain_text(el)].  [el.find_all("a", href=True)] looks below
    [el], not at [el] itself.  The rewriting of the anchors is a mutation
    of [el]; a second call reads the text the first one wrote, so the
    returned text is the same and the model returns the text only. *)
Definition extract_plain_text (el : node) : str :=
  norm_ws
    (get_text [SP] false
       (match el with
        | NavigableString s => NavigableString s
        | Comment s => Comment s
        | Tag id name attrs kids => Tag id name attrs (map replace_links kids)
        end)).

(** [is_bold_heading_p(p)].  The loop runs over the direct children of
    [p], so [child.parent] is [p] itself.  A comment among the children
    is an instance of [NavigableString] and takes the first branch of
    the loop. *)
Definition is_bold_heading_p (p : node) : bool :=
  match p with
  | NavigableString _ | Comment _ => false
  | Tag _ name _ kids =>
      if negb (str_eqb name (lit "p")) then false
      else
        match find_children ["strong"%string] p with
        | [] => false
        | _ :: _ =>
            forallb
              (fun child =>
                 match child with
                 | NavigableString s | Comment s =>
                     str_eqb (norm_ws s) [] || str_eqb (norm_ws s) [160%N]
                 | Tag _ cname _ _ =>
                     name_in ["strong"; "br"]%string cname
                     || (str_eqb cname (lit "u")
                         && str_eqb name (lit "strong"))
                 end)
              kids
        end
  end.

(** [li_clone]: the item parsed again from its own markup, with every
    nested list at any depth decomposed. *)
Fixpoint without_lists (el : node) : node :=
  match el with
  | NavigableString s => NavigableString s
  | Comment s => Comment s
  | Tag id name attrs kids =>
      Tag id name attrs
        (flat_map
           (fun k => if is_tag_named ["ul"; "ol"]%string k then []
                     else [without_lists k])
           kids)
  end.

Definition li_text_of (li : node) : str :=
  extract_plain_text (without_lists li).

(** [n] copies of the two-space indent of [list_to_lines]. *)
Fixpoint indent_of (n : nat) : str :=
  match n with
  | O => []
  | S n' => SP :: SP :: indent_of n'
  end.

(** [list_to_lines(root_list)]: [walk_list] appends to [lines]; the model
    returns the appended lines in order. *)
Fixpoint walk_list (ul : node) (indent : nat) : list str :=
  match ul with
  | NavigableString _ | Comment _ => []
  | Tag _ _ _ kids =>
      flat_map
        (fun li =>
           if is_tag_named ["li"%string] li then
             let txt := li_text_of li in
             let bullet :=
               match txt with
               | [] => []
               | _ => indent_of indent ++ lit "- " ++ txt
               end in
             (match bullet with [] => [] | _ => [bullet] end)
               ++ match li with
                  | NavigableString _ | Comment _ => []
                  | Tag _ _ _ lkids =>
                      flat_map
                        (fun sub =>
                           if is_tag_named ["ul"; "ol"]%string sub
                           then walk_list sub (S indent) else [])
                        lkids
                  end
           else [])
        kids
  end.

Definition list_to_lines (root_list : node) : list str :=
  walk_list root_list 0.

(** [emit_list_blocks(ul, trail)]: the blocks it appends, in order. *)
Fixpoint emit_list_blocks (ul : node) (trail : list str) : list block :=
  match ul with
  | NavigableString _ | Comment _ => []
  | Tag _ _ _ kids =>
      flat_map
        (fun li =>
           if is_tag_named ["li"%string] li then
             let li_text := li_text_of li in
             (trail, lit "- " ++ li_text)
               :: match li with
                  | NavigableString _ | Comment _ => []
                  | Tag _ _ _ lkids =>
                      flat_map
                        (fun sub_list =>
                           if is_tag_named ["ul"; "ol"]%string sub_list then
                             let sub_label := shorten_label li_text 80 in
                             emit_list_blocks sub_list (trail ++ [sub_label])
                           else [])
                        lkids
                  end
           else [])
        kids
  end.

(** ** The outline builder, [build_blocks_from_html] *)

(** *** The table pre-pass

    Every [<table>] is replaced by the parse of
    ["<p>" + "<br/>".join(lines) + "</p>"]: [replace_with] puts the
    children of the parsed fragment in the place of the table.  The
    lines are text taken out of the cells, and the parser reads them
    again as markup: a line without [<] and [&] ([plain_line]) is read
    as the line itself, and the fragment is then the one paragraph of
    [table_paragraph].  What the parser makes of a line with one of
    these characters is not modelled; [plain_tables] is the condition
    under which the pre-pass of the model is the one of the source.  The
    new nodes take identities from [fresh].  A table inside a table
    leaves the tree with the outer one. *)

Definition table_lines (table : node) : list str :=
  flat_map
    (fun tr =>
       match map (fun td => norm_ws (get_text [SP] false td))
                 (find_all ["th"; "td"]%string tr) with
       | [] => []
       | cells => [join (lit " | ") cells]
       end)
    (find_all ["tr"%string] table).

Definition plain_line (l : str) : Prop :=
  forall c, In c l -> c <> 60%N /\ c <> 38%N.

Definition plain_tables (el : node) : Prop :=
  forall t, t = el \/ In t (find_all ["table"%string] el) ->
            is_tag_named ["table"%string] t = true ->
            forall l, In l (table_lines t) -> plain_line l.

Definition text_node (s : str) : list node :=
  match s with
  | [] => []
  | _ => [NavigableString s]
  end.

Fixpoint br_joined (fresh : nat) (lines : list str) : list node :=
  match lines with
  | [] => []
  | [l] => text_node l
  | l :: rest =>
      text_node l ++ Tag fresh (lit "br") [] [] :: br_joined (S fresh) rest
  end.

Definition table_paragraph (fresh : nat) (lines : list str) : node :=
  Tag fresh (lit "p") [] (br_joined (S fresh) lines).

Fixpoint tables_to_paragraphs (fresh : nat) (el : node) : node * nat :=
  match el with
  | NavigableString s => (NavigableString s, fresh)
  | Comment s => (Comment s, fresh)
  | Tag id name attrs kids =>
      if str_eqb name (lit "table") then
        let lines := table_lines el in
        (table_paragraph fresh lines, (fresh + 1 + length lines)%nat)
      else
        let '(kids', fresh') :=
          (fix go (fresh : nat) (ks : list node) : list node * nat :=
             match ks with
             | [] => ([], fresh)
             | k :: ks' =>
                 let '(k', f1) := tables_to_paragraphs fresh k in
                 let '(ks'', f2) := go f1 ks' in
                 (k' :: ks'', f2)
             end) fresh kids in
        (Tag id name attrs kids', fresh')
  end.

Fixpoint max_id (el : node) : nat :=
  match el with
  | NavigableString _ | Comment _ => O
  | Tag id _ _ kids => Nat.max id (foldr Nat.max O (map max_id kids))
  end.

(** *** The state of one conversion

    [blocks], [breadcrumb] and [skipped_ids] are the three variables that
    the nested functions of [build_blocks_from_html] share.  [detached]
    is the part of the tree's state that the source changes with
    [node.extract()]: the identities of the nodes taken out of the
    tree. *)
Record walker : Type := mk_walker {
  blocks : list block;
  breadcrumb : list str;
  skipped_ids : gset nat;
  detached : gset nat
}.

Definition init_walker : walker := mk_walker [] [] ∅ ∅.

(** [push_block(text)] *)
Definition push_block (text : str) (st : walker) : walker :=
  let t := if contains text [NL] then norm_multiline text else norm_ws text in
  match t with
  | [] => st
  | _ => mk_walker (blocks st ++ [(breadcrumb st, t)]) (breadcrumb st)
                   (skipped_ids st) (detached st)
  end.

(** *** Sibling links

    A position in the tree is a node together with the siblings that
    followed it when its parent's children were listed.
    [node.extract()] unlinks the node from its neighbours AND clears the
    node's own [next_sibling] and [previous_sibling]; so the
    [next_sibling] of a detached node is [None], and the one of an
    attached node is the nearest following sibling still attached. *)
Definition is_detached (d : gset nat) (n : node) : bool :=
  match n with
  | Tag id _ _ _ => bool_decide (id ∈ d)
  | NavigableString _ | Comment _ => false
  end.

Fixpoint first_attached (d : gset nat) (following : list node)
  : option (node * list node) :=
  match following with
  | [] => None
  | n :: rest => if is_detached d n then first_attached d rest
                 else Some (n, rest)
  end.

Definition next_sibling (d : gset nat) (n : node) (following : list node)
  : option (node * list node) :=
  if is_detached d n then None else first_attached d following.

(** Python truth value of a node: a tag is always true, a string is true
    when it is not empty. *)
Definition truthy (n : node) : bool :=
  match n with
  | Tag _ _ _ _ => true
  | NavigableString s | Comment s => negb (str_eqb s [])
  end.

(** [consumed.append(id(node)); skipped_ids.add(id(node)); node.extract()] *)
Definition consume (id : nat) (consumed : list nat) (st : walker)
  : list nat * walker :=
  (consumed ++ [id],
   mk_walker (blocks st) (breadcrumb st)
             ({[ id ]} ∪ skipped_ids st) ({[ id ]} ∪ detached st)).

(** The [while] loop of [collect_answer_content]: one unfolding of the
    fixpoint is one test of the loop condition followed by one run of
    the body; [cur] is the variable [node] of the source.  Every run
    moves it to a later sibling, so the length of [following] plus one
    is enough fuel. *)
Fixpoint collect_loop (fuel : nat) (current_breadcrumb : list str)
    (cur : node) (following : list node)
    (lines : list str) (consumed : list nat) (st : walker)
  : list str * list nat * walker :=
  match fuel with
  | O => (lines, consumed, st)
  | S fuel' =>
      if negb (truthy cur) then (lines, consumed, st)
      else
        match next_sibling (detached st) cur following with
        | None => (lines, consumed, st)
        | Some (nxt, following') =>
            if negb (truthy nxt) then (lines, consumed, st)
            else
              let continue_with ls cs s :=
                collect_loop fuel' current_breadcrumb nxt following' ls cs s in
              match nxt with
              | NavigableString _ | Comment _ =>
                  continue_with lines consumed st
              | Tag id name _ _ =>
                  if bool_decide (id ∈ skipped_ids st)
                  then continue_with lines consumed st
                  else if str_eqb name (lit "p") && is_bold_heading_p nxt then
                    let heading_text :=
                      strip_trailing_colon (extract_plain_text nxt) in
                    match current_breadcrumb with
                    | top :: _ =>
                        if str_eqb (norm_ws heading_text) (norm_ws top) then
                          let '(cs, s) := consume id consumed st in
                          continue_with lines cs s
                        else (lines, consumed, st)
                    | [] => (lines, consumed, st)
                    end
                  else if str_eqb name (lit "p") then
                    let txt := extract_plain_text nxt in
                    if is_question_text txt then (lines, consumed, st)
                    else
                      let txt := if is_answer_text txt
                                 then strip_q_or_a_prefix txt else txt in
                      let lines := match norm_ws txt with
                                   | [] => lines
                                   | _ => lines ++ [txt]
                                   end in
                      let '(cs, s) := consume id consumed st in
                      continue_with lines cs s
                  else if name_in ["ul"; "ol"]%string name then
                    let lines := lines ++ list_to_lines nxt in
                    let '(cs, s) := consume id consumed st in
                    continue_with lines cs s
                  else (lines, consumed, st)
              end
        end
  end.

(** [collect_answer_content(start, current_breadcrumb)] *)
Definition collect_answer_content (start : node) (following : list node)
    (current_breadcrumb : list str) (st : walker)
  : str * list nat * walker :=
  let '(lines, consumed, st') :=
    collect_loop (S (length following)) current_breadcrumb start following
                 [] [] st in
  (strip (join [NL] lines), consumed, st').

Fixpoint with_following (l : list node) : list (node * list node) :=
  match l with
  | [] => []
  | n :: rest => (n, rest) :: with_following rest
  end.

(** One run of the body of [while stack:]. *)
Definition build_step (st : walker) (stack : list (node * list node))
  : walker * list (node * list node) :=
  match stack with
  | [] => (st, [])
  | (el, following) :: stack =>
      match el with
      | NavigableString _ | Comment _ => (st, stack)
      | Tag id name _ kids =>
          if bool_decide (id ∈ skipped_ids st) then (st, stack)
          else if str_eqb name (lit "p") && is_bold_heading_p el then
            let heading_text :=
              strip_trailing_colon (extract_plain_text el) in
            (mk_walker (blocks st) [heading_text]
                       (skipped_ids st) (detached st), stack)
          else if name_in ["ul"; "ol"]%string name then
            (mk_walker (blocks st ++ emit_list_blocks el (breadcrumb st))
                       (breadcrumb st) (skipped_ids st) (detached st), stack)
          else if str_eqb name (lit "p") then
            let p_txt := extract_plain_text el in
            if is_question_text p_txt then
              let q_text := strip_q_or_a_prefix p_txt in
              let '(a_text, _, st) :=
                collect_answer_content el following (breadcrumb st) st in
              let st :=
                match a_text with
                | [] => push_block (lit "Q: " ++ q_text) st
                | _ => push_block
                         (lit "Q: " ++ q_text ++ [NL] ++ lit "A: " ++ a_text)
                         st
                end in
              (mk_walker (blocks st) (breadcrumb st)
                         ({[ id ]} ∪ skipped_ids st) (detached st), stack)
            else
              match norm_ws p_txt with
              | [] => (st, stack)
              | _ => (push_block p_txt st, stack)
              end
          else (st, with_following kids ++ stack)
      end
  end.

Fixpoint build_loop (fuel : nat) (st : walker)
    (stack : list (node * list node)) : walker * list (node * list node) :=
  match fuel with
  | O => (st, stack)
  | S fuel' =>
      match stack with
      | [] => (st, [])
      | _ => let '(st', stack') := build_step st stack in
             build_loop fuel' st' stack'
      end
  end.

Fixpoint node_size (n : node) : nat :=
  match n with
  | NavigableString _ | Comment _ => 1%nat
  | Tag _ _ _ kids => S (foldr Nat.add O (map node_size kids))
  end.

Definition is_tag (n : node) : bool :=
  match n with
  | Tag _ _ _ _ => true
  | NavigableString _ | Comment _ => false
  end.

(** [soup.body.find_all(recursive=False) if soup.body else
    soup.find_all(recursive=False)]: the top-level tags, each with the
    siblings that follow it. *)
Definition top_level (soup : node) : list (node * list node) :=
  let root := match find_all ["body"%string] soup with
              | body :: _ => body
              | [] => soup
              end in
  List.filter (fun c => is_tag (fst c)) (with_following (contents_of root)).

(** [build_blocks_from_html], from the parse tree [soup] of the page.
    Each top-level tag is walked with fuel equal to its number of nodes
    ([build_loop_enough] shows that the stack is then empty). *)
Definition build_blocks_from_html (soup : node) : list block :=
  let soup := fst (tables_to_paragraphs (S (max_id soup)) soup) in
  blocks
    (fold_left
       (fun st c => fst (build_loop (node_size (fst c)) st [c]))
       (top_level soup) init_walker).

(** ** [textwrap.wrap]

    The packer calls the standard library's [textwrap.wrap(text, width)]
    with its default options.  The packer below takes the wrapper as a
    parameter, and what is proved about the packer holds for every
    wrapper.  [textwrap_wrap] is the library's greedy algorithm
    ([_munge_whitespace], [_split_chunks], [_wrap_chunks],
    [_handle_long_word]) for running the packer on concrete texts; the
    extra break points that the library allows after the hyphen of a
    hyphenated word are left out, so it is the library's result on
    texts without such words. *)

Fixpoint expandtabs (col : nat) (s : str) : str :=
  match s with
  | [] => []
  | c :: s' =>
      if (c =? TAB)%N then
        let n := (8 - col mod 8)%nat in
        repeat SP n ++ expandtabs (col + n)%nat s'
      else if (c =? NL)%N || (c =? CR)%N then c :: expandtabs O s'
      else c :: expandtabs (S col) s'
  end.

(** The characters of [string.whitespace]. *)
Definition is_tw_space (c : N) : bool :=
  ((9 <=? c) && (c <=? 13) || (c =? 32))%N.

Definition munge_whitespace (text : str) : str :=
  map (fun c => if is_tw_space c then SP else c) (expandtabs O text).

(** Maximal runs of whitespace and of other characters, in order; [cur]
    is the run being read, reversed. *)
Fixpoint split_chunks (cur : str) (s : str) : list str :=
  match s with
  | [] => match cur with [] => [] | _ => [rev cur] end
  | c :: s' =>
      match cur with
      | [] => split_chunks [c] s'
      | d :: _ =>
          if Bool.eqb (is_tw_space c) (is_tw_space d)
          then split_chunks (c :: cur) s'
          else rev cur :: split_chunks [c] s'
      end
  end.

Fixpoint take_fitting (width : Z) (cur_line : list str) (cur_len : Z)
    (chunks : list str) : list str * Z * list str :=
  match chunks with
  | [] => (cur_line, cur_len, [])
  | c :: rest =>
      if cur_len + len c <=? width
      then take_fitting width (cur_line ++ [c]) (cur_len + len c) rest
      else (cur_line, cur_len, chunks)
  end.

Definition is_blank (c : str) : bool := str_eqb (strip c) [].

(** One run of the outer loop of [_wrap_chunks]. *)
Definition wrap_line (width : Z) (lines : list str) (chunks : list str)
  : list str * list str :=
  let chunks :=
    match chunks, lines with
    | c :: rest, _ :: _ => if is_blank c then rest else chunks
    | _, _ => chunks
    end in
  let '(cur_line, cur_len, chunks) := take_fitting width [] 0 chunks in
  let '(cur_line, chunks) :=
    match chunks with
    | c :: rest =>
        if len c >? width then
          let space_left := if width <? 1 then 1 else width - cur_len in
          (cur_line ++ [slice_to c space_left],
           drop (Z.to_nat space_left) c :: rest)
        else (cur_line, chunks)
    | [] => (cur_line, chunks)
    end in
  let cur_line :=
    match last cur_line with
    | Some l => if is_blank l then removelast cur_line else cur_line
    | None => cur_line
    end in
  match cur_line with
  | [] => (lines, chunks)
  | _ => (lines ++ [concat cur_line], chunks)
  end.

Fixpoint wrap_chunks (fuel : nat) (width : Z) (lines : list str)
    (chunks : list str) : list str :=
  match fuel with
  | O => lines
  | S fuel' =>
      match chunks with
      | [] => lines
      | _ => let '(lines', chunks') := wrap_line width lines chunks in
             wrap_chunks fuel' width lines' chunks'
      end
  end.

(** [textwrap.wrap(text, width)].  The library raises [ValueError] for a
    width below 1; the packer's width is at least 40. *)
Definition textwrap_wrap (text : str) (width : Z) : list str :=
  if width <? 1 then []
  else wrap_chunks (S (length text) * 8) width []
                   (split_chunks [] (munge_whitespace text)).

(** ** The chunker, [chunk_blocks] *)

(** [breadcrumb_header(path)] *)
Definition breadcrumb_header (path : list str) : str :=
  match path with
  | [] => []
  | _ => join (lit " > ") (map (fun p => shorten_label p 80) path)
  end.

(** The leading whitespace of a string. *)
Fixpoint leading_ws (s : str) : str :=
  match s with
  | c :: s' => if is_space c then c :: leading_ws s' else []
  | [] => []
  end.

(** [re.match(r"^(\s*-\s+)", line)]: group 1, or the empty string when
    there is no match (the initial value of [bullet_prefix]). *)
Definition bullet_prefix_of (line : str) : str :=
  match lstrip line with
  | c :: rest =>
      if (c =? 45)%N then
        match leading_ws rest with
        | [] => []
        | ws => leading_ws line ++ [45%N] ++ ws
        end
      else []
  | [] => []
  end.

(** [text.lstrip().startswith("Q:") and "\nA:" in text] *)
Definition is_qa_block (text : str) : bool :=
  startswith (lstrip text) (lit "Q:") && contains text (NL :: lit "A:").

Section Packer.
Context {A : Type}.

(** [wrap] stands for [textwrap.wrap]; [close_chunk] is what is stored
    for a finished chunk: the source stores
    ["\n".join(current_lines).strip()]. *)
Variable wrap : str -> Z -> list str.
Variable close_chunk : list str -> A.
Variable limit : Z.

(** The four variables of [chunk_blocks]. *)
Record packer : Type := mk_packer {
  chunks : list A;
  current_lines : list str;
  current_breadcrumb : option (list str);
  current_len : Z
}.

Definition init_packer : packer := mk_packer [] [] None 0.

Definition flush (st : packer) : list A :=
  match current_lines st with
  | [] => chunks st
  | ls => chunks st ++ [close_chunk ls]
  end.

(** [start_new_chunk(path)]: the new state and the returned length.
    [current_len] is assigned by the caller. *)
Definition start_new_chunk (path : list str) (st : packer) : packer * Z :=
  let hdr := breadcrumb_header path in
  match hdr with
  | [] => (mk_packer (flush st) [] (Some path) (current_len st), 0)
  | _ =>
      let line := lit "### " ++ hdr in
      (mk_packer (flush st) [line] (Some path) (current_len st),
       len line + 1)
  end.

Definition set_len (n : Z) (st : packer) : packer :=
  mk_packer (chunks st) (current_lines st) (current_breadcrumb st) n.

(** [add_line(seg, path)] *)
Definition add_line (path : list str) (st : packer) (seg : str) : packer :=
  let st :=
    if current_len st + len seg + 1 >? limit then
      let st := fst (start_new_chunk path st) in
      set_len (match current_lines st with
               | l0 :: _ => len l0 + 1
               | [] => 0
               end) st
    else st in
  mk_packer (chunks st) (current_lines st ++ [seg])
            (current_breadcrumb st) (current_len st + len seg + 1).

(** [textwrap.wrap(s, width=max(40, limit - 20)) or [s]] *)
Definition wrapped (s : str) : list str :=
  match wrap s (Z.max 40 (limit - 20)) with
  | [] => [s]
  | ws => ws
  end.

(** One run of the body of [for path, text in blocks]. *)
Definition pack_block (st : packer) (b : block) : packer :=
  let '(path, text) := b in
  let st :=
    if bool_decide (current_breadcrumb st <> Some path) then
      let '(st, n) := start_new_chunk path st in set_len n st
    else st in
  let st :=
    if is_qa_block text && (current_len st + len text + 1 >? limit) then
      let '(st, n) := start_new_chunk path st in set_len n st
    else st in
  if contains text [NL] then
    fold_left
      (fun st ln =>
         let ln := rstrip ln in
         if len ln + current_len st >? limit
         then fold_left (add_line path) (wrapped ln) st
         else add_line path st ln)
      (split_nl text) st
  else
    let line := text in
    if len line + current_len st >? limit then
      let bullet_prefix := bullet_prefix_of line in
      fold_left
        (fun st w =>
           let seg :=
             match bullet_prefix with
             | [] => w
             | _ => if startswith w bullet_prefix then w
                    else bullet_prefix ++ w
             end in
           add_line path st seg)
        (wrapped line) st
    else add_line path st line.

Definition chunk_blocks_with (blocks : list block) : list A :=
  flush (fold_left pack_block blocks init_packer).
End Packer.

Arguments packer : clear implicits.
Arguments mk_packer {A}.
Arguments chunks {A}.
Arguments current_lines {A}.
Arguments current_breadcrumb {A}.
Arguments current_len {A}.

(** ["\n".join(current_lines).strip()] *)
Definition serialize (ls : list str) : str := strip (join [NL] ls).

(** [chunk_blocks(blocks, limit)] *)
Definition chunk_blocks (blocks : list block) (limit : Z) : list str :=
  chunk_blocks_with textwrap_wrap serialize limit blocks.

(** The chunks before they are joined: each one is its list of lines. *)
Definition chunk_lines (wrap : str -> Z -> list str) (limit : Z)
    (blocks : list block) : list (list str) :=
  chunk_blocks_with wrap (fun ls => ls) limit blocks.

(** ** The writer, [process_files] for one page

    What is written to the [.ctxt] file for a page whose file name
    without extension is [base_name]; [url] is the [url] entry of the
    [.meta.json] file when there is one; [run_tag] is [RUN_TAG]. *)
Definition ctxt_preamble (base_name run_tag : str) (url : option str) : str :=
  let url_line :=
    match url with
    | Some u => lit "`source_url: " ++ u ++ lit "`" ++ [NL]
    | None => []
    end in
  let tags_value :=
    lit "policies" ++ match run_tag with
                      | [] => []
                      | _ => lit ", " ++ run_tag
                      end in
  lit "`version: 1`" ++ [NL]
    ++ lit "`title: " ++ base_name ++ lit "`" ++ [NL]
    ++ lit "`tags: [" ++ tags_value ++ lit "]`" ++ [NL]
    ++ url_line
    ++ [NL].

Definition ctxt_document (base_name run_tag : str) (url : option str)
    (chunks : list str) : str :=
  ctxt_preamble base_name run_tag url
    ++ concat (map (fun c => strip c ++ [NL; NL]) chunks).

Definition process_file (soup : node) (base_name run_tag : str)
    (url : option str) (max_chars : Z) : str :=
  let blocks := build_blocks_from_html soup in
  let chunks := chunk_blocks blocks max_chars in
  ctxt_document base_name run_tag url chunks.

(** ** Vocabulary of the statements and sample documents *)

(** The blocks that carry exactly the path [trail]. *)
Definition path_is (trail : list str) (b : block) : bool :=
  bool_decide (fst b = trail).

(** [<ul><li>Item1</li><li>Item2<ul><li>Sub1</li></ul></li></ul>] *)
Definition scenario3_list : node :=
  Tag 1 (lit "ul") []
    [Tag 2 (lit "li") [] [NavigableString (lit "Item1")];
     Tag 3 (lit "li") []
       [NavigableString (lit "Item2");
        Tag 4 (lit "ul") []
          [Tag 5 (lit "li") [] [NavigableString (lit "Sub1")]]]].

(** A list whose only item has 81 characters of text and a nested list:
    [<ul><li>aaa...a<ul><li>x</li></ul></li></ul>]. *)
Definition long_item_list : node :=
  Tag 1 (lit "ul") []
    [Tag 2 (lit "li") []
       [NavigableString (repeat 97%N 81);
        Tag 3 (lit "ul") []
          [Tag 4 (lit "li") [] [NavigableString (lit "x")]]]].

(** Heading detection in the words of the claim.  A child of a
    paragraph is [visible] when the text extraction finds text in it: a
    string with a character that is not whitespace, or a tag whose
    extracted text is not empty.  A comment is never visible. *)
Definition visible (c : node) : bool :=
  match c with
  | NavigableString s => negb (str_eqb (norm_ws s) [])
  | Comment _ => false
  | Tag _ _ _ _ => negb (str_eqb (extract_plain_text c) [])
  end.

(** The claimed shape of a heading: a paragraph with a bold wrapper
    among its children, whose only children with visible text are bold
    wrappers.  What a wrapper contains (text, underline, line breaks)
    is not constrained. *)
Definition claimed_heading_shape (p : node) : Prop :=
  exists id attrs kids,
    p = Tag id (lit "p") attrs kids /\
    (exists c, In c kids /\ is_tag_named ["strong"%string] c = true) /\
    (forall c, In c kids -> visible c = true ->
               is_tag_named ["strong"%string] c = true).

(** The shape that the detection requires of the children themselves:
    each one is a [<strong>] or [<br>] tag, text that is blank after
    whitespace normalization, or a comment. *)
Definition heading_child (c : node) : bool :=
  match c with
  | NavigableString s => str_eqb (norm_ws s) []
  | Comment _ => true
  | Tag _ name _ _ => name_in ["strong"; "br"]%string name
  end.

Definition heading_shape (p : node) : Prop :=
  exists id attrs kids,
    p = Tag id (lit "p") attrs kids /\
    (exists c, In c kids /\ is_tag_named ["strong"%string] c = true) /\
    (forall c, In c kids -> heading_child c = true).

(** No comment directly below [p] has content other than whitespace. *)
Definition blank_comments (p : node) : Prop :=
  forall s, In (Comment s) (contents_of p) -> norm_ws s = [].

(** [<p><a id="leave"></a><strong>Leave Policy:</strong></p>], a
    heading with a named anchor in front, and a page that has it before
    a paragraph. *)
Definition anchored_heading : node :=
  Tag 1 (lit "p") []
    [Tag 2 (lit "a") [(lit "id", lit "leave")] [];
     Tag 3 (lit "strong") [] [NavigableString (lit "Leave Policy:")]].

Definition anchored_heading_page : node :=
  Tag 0 (lit "[document]") []
    [anchored_heading;
     Tag 4 (lit "p") [] [NavigableString (lit "x")]].

(** Python's [id(node)] of a tag. *)
Definition id_of (n : node) : option nat :=
  match n with
  | Tag id _ _ _ => Some id
  | NavigableString _ | Comment _ => None
  end.

(** [<p><strong>Leave Policy:</strong></p>] *)
Definition heading_paragraph : node :=
  Tag 1 (lit "p") []
      [Tag 2 (lit "strong") [] [NavigableString (lit "Leave Policy:")]].

(** [<ul><li></li></ul>] and [<p></p>] *)
Definition empty_item_list : node :=
  Tag 1 (lit "ul") [] [Tag 2 (lit "li") [] []].

Definition empty_paragraph : node := Tag 3 (lit "p") [] [].

(** The page [<p>Q: how?</p><p>A: one</p><p>two</p>]. *)
Definition qa_two_answers : node :=
  Tag 0 (lit "[document]") []
    [Tag 1 (lit "p") [] [NavigableString (lit "Q: how?")];
     Tag 2 (lit "p") [] [NavigableString (lit "A: one")];
     Tag 3 (lit "p") [] [NavigableString (lit "two")]].

(** The page without content. *)
Definition empty_page : node := Tag 0 (lit "[document]") [] [].

(** The number of nodes held by a stack of the walk. *)
Definition stack_size (stack : list (node * list node)) : nat :=
  foldr Nat.add O (map (fun c => node_size (fst c)) stack).

(** The header lines that [start_new_chunk] seeds a chunk with: the
    line ["### <header>"] when the header text of the path is not
    empty, no line otherwise. *)
Definition header_lines (path : list str) : list str :=
  match breadcrumb_header path with
  | [] => []
  | hdr => [lit "### " ++ hdr]
  end.

(** The length of a chunk as the packer counts it: every line with one
    separator character. *)
Definition line_cost (ls : list str) : Z :=
  foldr (fun l n => len l + 1 + n) 0 ls.

(** [seg] is one of the lines that [chunk_blocks] can hand to
    [add_line] for a block with the text [text]: a line of the text
    (right-stripped) or a line that the wrapper returns for it, with the
    bullet marker put in front where the source does so. *)
Definition segment_of (wrap : str -> Z -> list str) (limit : Z)
    (text seg : str) : Prop :=
  if contains text [NL] then
    exists ln, In ln (split_nl text) /\
               (seg = rstrip ln \/ In seg (wrapped wrap limit (rstrip ln)))
  else
    seg = text \/
    exists w, In w (wrapped wrap limit text) /\
              (seg = w \/ seg = bullet_prefix_of text ++ w).

(** The content lines [segs] all come from blocks of [blocks] whose
    path is [path]. *)
Definition from_blocks (wrap : str -> Z -> list str) (limit : Z)
    (blocks : list block) (path : list str) (segs : list str) : Prop :=
  Forall (fun seg => exists text, In (path, text) blocks /\
                                  segment_of wrap limit text seg) segs.

(** What holds of every chunk: header lines of one path, then content
    lines from blocks of that path; within the limit unless there is at
    most one content line. *)
Definition chunk_ok (wrap : str -> Z -> list str) (limit : Z)
    (blocks : list block) (ls : list str) : Prop :=
  exists path segs,
    ls = header_lines path ++ segs /\
    from_blocks wrap limit blocks path segs /\
    (line_cost ls <= limit \/ (length segs <= 1)%nat).

(** The state of the packer between two calls of [add_line]. *)
Definition packer_ok (wrap : str -> Z -> list str) (limit : Z)
    (blocks : list block) (st : packer (list str)) : Prop :=
  Forall (fun ls => ls <> [] /\ chunk_ok wrap limit blocks ls) (chunks st)
  /\ current_len st = line_cost (current_lines st)
  /\ match current_breadcrumb st with
     | None => current_lines st = []
     | Some path =>
         exists segs,
           current_lines st = header_lines path ++ segs /\
           from_blocks wrap limit blocks path segs /\
           (line_cost (current_lines st) <= limit \/ (length segs <= 1)%nat)
     end.

(** The lines [X] stand together in the chunk being filled or in a
    finished chunk. *)
Definition holds_lines (X : list str) (st : packer (list str)) : Prop :=
  (exists before after, current_lines st = before ++ X ++ after)
  \/ (exists before after, In (before ++ X ++ after) (chunks st)).

(** The state of the packer of strings that goes with a state of the
    packer of line lists. *)
Definition joined {A : Type} (close_chunk : list str -> A)
    (st : packer (list str)) : packer A :=
  mk_packer (map close_chunk (chunks st)) (current_lines st)
            (current_breadcrumb st) (current_len st).

(** The three phases of one run of the loop of [chunk_blocks], named for
    the proofs: [current_len = start_new_chunk(path)], then the two
    tests that start a new chunk, then the lines handed to [add_line]. *)
Definition new_chunk {A : Type} (close_chunk : list str -> A)
    (path : list str) (st : packer A) : packer A :=
  let '(st', n) := start_new_chunk close_chunk path st in set_len n st'.

Definition enter_block {A : Type} (close_chunk : list str -> A) (limit : Z)
    (path : list str) (text : str) (st : packer A) : packer A :=
  let st :=
    if bool_decide (current_breadcrumb st <> Some path)
    then new_chunk close_chunk path st else st in
  if is_qa_block text && (current_len st + len text + 1 >? limit)
  then new_chunk close_chunk path st else st.

Definition feed_lines {A : Type} (wrap : str -> Z -> list str)
    (close_chunk : list str -> A) (limit : Z)
    (path : list str) (text : str) (st : packer A) : packer A :=
  if contains text [NL] then
    fold_left
      (fun st ln =>
         let ln := rstrip ln in
         if len ln + current_len st >? limit
         then fold_left (add_line close_chunk limit path)
                        (wrapped wrap limit ln) st
         else add_line close_chunk limit path st ln)
      (split_nl text) st
  else
    if len text + current_len st >? limit then
      fold_left
        (fun st w =>
           let seg :=
             match bullet_prefix_of text with
             | [] => w
             | _ => if startswith w (bullet_prefix_of text) then w
                    else bullet_prefix_of text ++ w
             end in
           add_line close_chunk limit path st seg)
        (wrapped wrap limit text) st
    else add_line close_chunk limit path st text.

(** One block under a heading of 29 characters: three words of 19
    characters each. *)
Definition long_header_blocks : list block :=
  [([lit "aaaa bbbb cccc dddd eeee ffff"],
    lit "aaaaaaaaaaaaaaaaaaa bbbbbbbbbbbbbbbbbbb ccccccccccccccccccc")].

(** One block under the path whose only label is the empty string, as
    the heading [<p><strong></strong></p>] gives it. *)
Definition blank_label_blocks : list block := [([[]], lit "x")].

(** A heading, a Q/A pair and a paragraph. *)
Definition qa_blocks : list block :=
  [([lit "Leave"], lit "Intro");
   ([lit "Leave"], lit "Q: How many sick days?" ++ [NL] ++ lit "A: Ten per year.");
   ([lit "Leave"], lit "Outro")].

(** A string is [clean] when every whitespace character in it is a
    single space standing alone; [prev] tells that the character before
    the string was whitespace. *)
Fixpoint clean (prev : bool) (s : str) : bool :=
  match s with
  | [] => true
  | c :: s' =>
      if is_space c then negb prev && (c =? SP)%N && clean true s'
      else clean false s'
  end.

(** A line is [tidy] when it is a fixed point of [norm_ws]: its only
    whitespace is single spaces between other characters. *)
Definition tidy (l : str) : Prop :=
  clean false l = true
  /\ match l with c :: _ => is_space c = false | [] => True end
  /\ match rev l with c :: _ => is_space c = false | [] => True end.

(** The lines without the empty lines at the start, and without the
    empty lines at the end. *)
Fixpoint drop_blank (lines : list str) : list str :=
  match lines with
  | [] :: rest => drop_blank rest
  | _ => lines
  end.

Fixpoint drop_blank_end (lines : list str) : list str :=
  match lines with
  | [] => []
  | l :: rest =>
      match drop_blank_end rest, l with
      | [], [] => []
      | kept, _ => l :: kept
      end
  end.

(** No two empty lines in a row; [prev] tells that the line before was
    empty. *)
Fixpoint no_double_blank (prev : bool) (lines : list str) : bool :=
  match lines with
  | [] => true
  | [] :: rest => negb prev && no_double_blank true rest
  | _ :: rest => no_double_blank false rest
  end.

(** The line of [list_to_lines] that goes with a block of
    [emit_list_blocks] entered with the path [trail] and the indentation
    [indent]: none for an item without text, else the text of the block
    indented by one step for every label that the path has more than
    [trail]. *)
Definition line_of_block (trail : list str) (indent : nat) (b : block)
  : list str :=
  if str_eqb (snd b) (lit "- ") then []
  else [indent_of (indent + (length (fst b) - length trail)) ++ snd b].

(** A text that starts with a character that is not whitespace. *)
Definition starts_visible (t : str) : Prop :=
  match t with
  | c :: _ => is_space c = false
  | [] => False
  end.

(** The page
    [<div><table><tr><th>Days</th><td>10</td></tr></table></div>]. *)
Definition table_page : node :=
  Tag 0 (lit "[document]") []
    [Tag 1 (lit "div") []
       [Tag 2 (lit "table") []
          [Tag 3 (lit "tr") []
             [Tag 4 (lit "th") [] [NavigableString (lit "Days")];
              Tag 5 (lit "td") [] [NavigableString (lit "10")]]]]].

(** A node that is none of [<p>], [<ul>], [<ol>], [<table>] and has none
    of them below it. *)
Definition inert (el : node) : Prop :=
  is_tag_named ["p"; "ul"; "ol"; "table"]%string el = false
  /\ find_all ["p"; "ul"; "ol"; "table"]%string el = [].

(** The page [<h1>Leave</h1><div>Ten days <span>per year</span></div>]. *)
Definition bare_text_page : node :=
  Tag 0 (lit "[document]") []
    [Tag 1 (lit "h1") [] [NavigableString (lit "Leave")];
     Tag 2 (lit "div") []
       [NavigableString (lit "Ten days ");
        Tag 3 (lit "span") [] [NavigableString (lit "per year")]]].

(** The line handed to [add_line] for the wrapped segment [w] of the
    one-line text [text]: the bullet marker of the text is put in front
    of a segment that does not start with it. *)
Definition with_bullet (text w : str) : str :=
  match bullet_prefix_of text with
  | [] => w
  | _ => if startswith w (bullet_prefix_of text) then w
         else bullet_prefix_of text ++ w
  end.

(** [seg] is a line of a chunk of the output. *)
Definition line_present (wrap : str -> Z -> list str) (limit : Z)
    (blocks : list block) (seg : str) : Prop :=
  exists ls, In ls (chunk_lines wrap limit blocks) /\ In seg ls.

(** [_ctxts_include_run_tag] of [Main.py], the caller that reads back
    what [process_files] wrote.  [files] are the [.ctxt] files of the
    export directory in sorted order, each one given by its content, or
    by [None] when reading it raises; an exception ends the search with
    [False].  The files are opened in text mode, so [f.read(1024)]
    returns the first 1024 characters after every line ending has
    become a line feed. *)
Fixpoint peek_run_tag (run_tag : str) (candidates : list (option str))
  : bool :=
  match candidates with
  | [] => false
  | None :: _ => false
  | Some content :: rest =>
      let head := take 1024 (unify_newlines content) in
      if negb (str_eqb run_tag []) && contains head run_tag then true
      else peek_run_tag run_tag rest
  end.

Definition ctxts_include_run_tag (files : list (option str))
    (run_tag : str) : bool :=
  peek_run_tag run_tag (take 2 files).

(** Two short paragraphs under one heading. *)
Definition two_line_blocks : list block :=
  [([lit "Leave"], lit "Intro"); ([lit "Leave"], lit "Outro")].

(** The question paragraph of scenario 2 and the sibling that follows
    it: [<p>Q: How many sick days?</p><p>A: Ten per year.</p>]. *)
Definition question_paragraph : node :=
  Tag 1 (lit "p") [] [NavigableString (lit "Q: How many sick days?")].

Definition answer_paragraph : node :=
  Tag 2 (lit "p") [] [NavigableString (lit "A: Ten per year.")].

(** The [href] that makes a tag a link for [extract_plain_text]:
    [find_all("a", href=True)] keeps the [<a>] tags that carry one. *)
Definition href_of (name : str) (attrs : list (str * str)) : option str :=
  if str_eqb name (lit "a") then attr_lookup (lit "href") attrs else None.

(** [links_to h n]: at [n] or below it there is an [<a>] whose [href]
    is [h], and no tag between [n] and that anchor is itself a link. *)
Inductive links_to (h : str) : node -> Prop :=
| link_here (id : nat) (attrs : list (str * str)) (kids : list node) :
    attr_lookup (lit "href") attrs = Some h ->
    links_to h (Tag id (lit "a") attrs kids)
| link_below (id : nat) (name : str) (attrs : list (str * str))
    (kids : list node) (k : node) :
    href_of name attrs = None ->
    In k kids ->
    links_to h k ->
    links_to h (Tag id name attrs kids).

(** A paragraph with a link inside an emphasis. *)
Definition linked_paragraph : node :=
  Tag 1 (lit "p") []
    [NavigableString (lit "See the ");
     Tag 2 (lit "em") []
       [Tag 3 (lit "a") [(lit "href", lit "https://hr.example/leave")]
          [NavigableString (lit "leave policy")]]].

(** * Properties *)

(** ** Whitespace *)

Lemma is_space_SP : is_space SP = true.
Proof. reflexivity. Qed.

Lemma lstrip_no_lead (s : str) :
  match lstrip s with
  | c :: _ => is_space c = false
  | [] => True
  end.
Proof.
  induction s as [|c s IH]; simpl; [exact I|].
  destruct (is_space c) eqn:E; [exact IH | exact E].
Qed.

Lemma lstrip_fixed (s : str) :
  match s with c :: _ => is_space c = false | [] => True end ->
  lstrip s = s.
Proof. destruct s as [|c s]; simpl; [reflexivity|]. intros ->. reflexivity. Qed.

Lemma lstrip_idem (s : str) : lstrip (lstrip s) = lstrip s.
Proof. apply lstrip_fixed, lstrip_no_lead. Qed.

(** [lstrip] removes a prefix made of whitespace. *)
Lemma lstrip_split (s : str) :
  exists w, s = w ++ lstrip s /\ forallb is_space w = true.
Proof.
  induction s as [|c s (w & Hs & Hw)]; simpl.
  - exists []. split; reflexivity.
  - destruct (is_space c) eqn:E.
    + exists (c :: w). simpl. rewrite E, Hw.
      split; [f_equal; exact Hs | reflexivity].
    + exists []. split; reflexivity.
Qed.

Lemma rstrip_split (s : str) :
  exists w, s = rstrip s ++ w /\ forallb is_space w = true.
Proof.
  unfold rstrip. destruct (lstrip_split (rev s)) as (w & Hs & Hw).
  exists (rev w). split.
  - rewrite <- rev_app_distr, <- Hs, rev_involutive. reflexivity.
  - rewrite forallb_forall in *. intros x Hx. apply Hw, in_rev, Hx.
Qed.

Lemma length_lstrip (s : str) : (length (lstrip s) <= length s)%nat.
Proof.
  destruct (lstrip_split s) as (w & Hs & _).
  rewrite Hs at 2. rewrite length_app. lia.
Qed.

Lemma length_rstrip (s : str) : (length (rstrip s) <= length s)%nat.
Proof.
  destruct (rstrip_split s) as (w & Hs & _).
  rewrite Hs at 2. rewrite length_app. lia.
Qed.

Lemma length_strip (s : str) : (length (strip s) <= length s)%nat.
Proof.
  unfold strip. pose proof (length_lstrip (rstrip s)).
  pose proof (length_rstrip s). lia.
Qed.

Lemma length_sub_ws (b : bool) (s : str) :
  (length (sub_ws b s) <= length s)%nat.
Proof.
  revert b. induction s as [|c s IH]; intros b; simpl; [lia|].
  pose proof (IH true). pose proof (IH false).
  destruct (is_space c); [destruct b|]; simpl; lia.
Qed.

Lemma length_norm_ws (s : str) : (length (norm_ws s) <= length s)%nat.
Proof.
  unfold norm_ws. pose proof (length_strip (sub_ws false s)).
  pose proof (length_sub_ws false s). lia.
Qed.

Lemma clean_sub_ws (b : bool) (s : str) : clean b (sub_ws b s) = true.
Proof.
  revert b. induction s as [|c s IH]; intros b; simpl; [reflexivity|].
  destruct (is_space c) eqn:E.
  - destruct b; [apply IH|].
    change (clean false (SP :: sub_ws true s)) with (clean true (sub_ws true s)).
    apply IH.
  - simpl. rewrite E. apply IH.
Qed.

Lemma sub_ws_clean (b : bool) (s : str) : clean b s = true -> sub_ws b s = s.
Proof.
  revert b. induction s as [|c s IH]; intros b; simpl; [reflexivity|].
  destruct (is_space c) eqn:E.
  - destruct b; simpl; [discriminate|].
    intros H. apply andb_prop in H as [H1 H2]. apply N.eqb_eq in H1.
    subst c. f_equal. apply IH, H2.
  - intros H. f_equal. apply IH, H.
Qed.

Lemma clean_weaken (s : str) : clean true s = true -> clean false s = true.
Proof.
  destruct s as [|c s]; simpl; [reflexivity|].
  destruct (is_space c); [discriminate | exact id].
Qed.

Lemma clean_lstrip (s : str) : clean false s = true -> clean false (lstrip s) = true.
Proof.
  destruct s as [|c s]; simpl; [reflexivity|].
  destruct (is_space c) eqn:E; simpl; [|rewrite E; exact id].
  intros H. apply andb_prop in H as [_ H].
  assert (lstrip s = s) as ->; [|apply clean_weaken, H].
  apply lstrip_fixed. destruct s as [|d s]; [exact I|].
  simpl in H. destruct (is_space d); [discriminate | reflexivity].
Qed.

Lemma clean_app_l (b : bool) (s t : str) :
  clean b (s ++ t) = true -> clean b s = true.
Proof.
  revert b. induction s as [|c s IH]; intros b; simpl; [reflexivity|].
  destruct (is_space c).
  - intros H. apply andb_prop in H as [H1 H2]. rewrite H1. apply (IH _ H2).
  - apply IH.
Qed.

Lemma clean_rstrip (s : str) : clean false s = true -> clean false (rstrip s) = true.
Proof.
  destruct (rstrip_split s) as (w & Hs & _). intros H.
  rewrite Hs in H. apply (clean_app_l _ _ _ H).
Qed.

Lemma rstrip_no_trail (s : str) :
  match rev (rstrip s) with
  | c :: _ => is_space c = false
  | [] => True
  end.
Proof. unfold rstrip. rewrite rev_involutive. apply lstrip_no_lead. Qed.

Lemma rstrip_fixed (s : str) :
  match rev s with c :: _ => is_space c = false | [] => True end ->
  rstrip s = s.
Proof.
  intros H. unfold rstrip. rewrite (lstrip_fixed _ H). apply rev_involutive.
Qed.

(** Removing leading whitespace keeps the last character. *)
Lemma lstrip_keeps_end (s : str) :
  match rev s with c :: _ => is_space c = false | [] => True end ->
  match rev (lstrip s) with c :: _ => is_space c = false | [] => True end.
Proof.
  induction s as [|c s IH]; simpl; [exact id|].
  destruct (is_space c) eqn:E; [|exact id].
  intros H. apply IH. destruct (rev s) as [|d r] eqn:Er; [exact I|].
  simpl in H. exact H.
Qed.

Lemma strip_no_lead (s : str) :
  match strip s with c :: _ => is_space c = false | [] => True end.
Proof. apply lstrip_no_lead. Qed.

Lemma strip_no_trail (s : str) :
  match rev (strip s) with c :: _ => is_space c = false | [] => True end.
Proof. apply lstrip_keeps_end, rstrip_no_trail. Qed.

Lemma strip_fixed (s : str) :
  match s with c :: _ => is_space c = false | [] => True end ->
  match rev s with c :: _ => is_space c = false | [] => True end ->
  strip s = s.
Proof.
  intros H1 H2. unfold strip. rewrite (rstrip_fixed _ H2). apply lstrip_fixed, H1.
Qed.

Lemma strip_idem (s : str) : strip (strip s) = strip s.
Proof. apply strip_fixed; [apply strip_no_lead | apply strip_no_trail]. Qed.

Lemma clean_strip (s : str) : clean false s = true -> clean false (strip s) = true.
Proof. intros H. apply clean_lstrip, clean_rstrip, H. Qed.

Lemma clean_norm_ws (s : str) : clean false (norm_ws s) = true.
Proof. apply clean_strip, clean_sub_ws. Qed.

(** A clean string without whitespace at either end is a fixed point of
    [norm_ws]. *)
Lemma norm_ws_fixed (s : str) :
  clean false s = true ->
  match s with c :: _ => is_space c = false | [] => True end ->
  match rev s with c :: _ => is_space c = false | [] => True end ->
  norm_ws s = s.
Proof.
  intros Hc H1 H2. unfold norm_ws. rewrite (sub_ws_clean _ _ Hc).
  apply strip_fixed; assumption.
Qed.

(** C9. Inline normalization ([norm_ws]: every run of whitespace,
    newlines included, becomes one space and the ends are trimmed) is
    idempotent: normalizing a normalized string changes nothing. *)
Theorem norm_ws_idempotent (s : str) : norm_ws (norm_ws s) = norm_ws s.
Proof.
  apply norm_ws_fixed.
  - apply clean_norm_ws.
  - apply strip_no_lead.
  - apply strip_no_trail.
Qed.

(** ** Label shortening *)

Lemma len_nonneg (s : str) : 0 <= len s.
Proof. unfold len. lia. Qed.

Lemma len_app (s t : str) : len (s ++ t) = len s + len t.
Proof. unfold len. rewrite length_app. lia. Qed.

Lemma slice_to_nonneg (s : str) (n : Z) :
  0 <= n -> slice_to s n = take (Z.to_nat n) s.
Proof. intros H. unfold slice_to. destruct (Z.ltb_spec n 0); [lia | reflexivity]. Qed.

Lemma len_slice_to (s : str) (n : Z) : 0 <= n -> len (slice_to s n) <= n.
Proof.
  intros H. rewrite slice_to_nonneg by exact H. unfold len.
  rewrite length_take. lia.
Qed.

Lemma len_norm_ws (s : str) : len (norm_ws s) <= len s.
Proof. unfold len. pose proof (length_norm_ws s). lia. Qed.

Lemma len_rstrip (s : str) : len (rstrip s) <= len s.
Proof. unfold len. pose proof (length_rstrip s). lia. Qed.

(** The match found by the search starts inside the searched string. *)
Lemma search_punct_ws_range (r : str) (i start : Z) :
  search_punct_ws r i = Some start -> i <= start < i + len r.
Proof.
  revert i. induction r as [|c r IH]; intros i; simpl; [discriminate|].
  destruct r as [|d r']; [discriminate|].
  destruct (is_label_punct c && is_space d).
  - intros [= <-]. unfold len. simpl. lia.
  - intros H. apply IH in H. unfold len in *. simpl in *. lia.
Qed.

(** On a string without leading whitespace, stripping the right end is
    the whole of [strip]. *)
Lemma strip_no_lead_rstrip (s : str) :
  match s with c :: _ => is_space c = false | [] => True end ->
  strip s = rstrip s.
Proof.
  intros H. unfold strip. apply lstrip_fixed.
  destruct (rstrip_split s) as (w & Hs & _).
  destruct (rstrip s) as [|c r]; [exact I|].
  rewrite Hs in H. exact H.
Qed.

Lemma norm_ws_prefix_of_normal (s : str) (n : nat) :
  norm_ws (take n (norm_ws s)) = rstrip (take n (norm_ws s)).
Proof.
  pose proof (clean_norm_ws s) as Hc.
  pose proof (strip_no_lead (sub_ws false s)) as Hl.
  fold (norm_ws s) in Hl.
  rewrite <- (take_drop n (norm_ws s)) in Hc. apply clean_app_l in Hc.
  unfold norm_ws at 1. rewrite (sub_ws_clean _ _ Hc).
  apply strip_no_lead_rstrip.
  destruct n as [|n]; [exact I|].
  destruct (norm_ws s) as [|c t]; [exact I | exact Hl].
Qed.

(** A label that is too long is cut at a position within the limit and
    the ellipsis is appended. *)
Lemma shorten_label_cut (s : str) (limit : Z) :
  0 <= limit ->
  limit < len (norm_ws s) ->
  exists cut,
    0 <= cut <= limit /\
    shorten_label s limit = norm_ws (slice_to (norm_ws s) cut) ++ [ELLIPSIS] /\
    (search_punct_ws (rev (slice_to (norm_ws s) limit)) 0 = None ->
     cut = limit).
Proof.
  intros Hl Hlong. unfold shorten_label.
  destruct (Z.leb_spec (len (norm_ws s)) limit) as [Hle|_]; [lia|].
  destruct (search_punct_ws (rev (slice_to (norm_ws s) limit)) 0)
    as [start|] eqn:Es.
  - apply search_punct_ws_range in Es.
    assert (len (rev (slice_to (norm_ws s) limit)) <= limit) as Hr.
    { unfold len. rewrite length_rev. apply (len_slice_to _ _ Hl). }
    exists (limit - start). split; [lia|]. split; [reflexivity|].
    discriminate.
  - exists limit. split; [lia|]. split; [|reflexivity].
    rewrite (slice_to_nonneg _ _ Hl), norm_ws_prefix_of_normal.
    reflexivity.
Qed.

Lemma shorten_label_fits (s : str) (limit : Z) :
  len (norm_ws s) <= limit -> shorten_label s limit = norm_ws s.
Proof.
  intros Hle. unfold shorten_label.
  destruct (Z.leb_spec (len (norm_ws s)) limit); [reflexivity | lia].
Qed.

Lemma len_shorten_label (s : str) (limit : Z) :
  0 <= limit -> len (shorten_label s limit) <= limit + 1.
Proof.
  intros Hl. destruct (Z.leb_spec (len (norm_ws s)) limit) as [Hle|Hlong].
  - rewrite shorten_label_fits by exact Hle. lia.
  - destruct (shorten_label_cut s limit Hl Hlong) as (cut & Hc & -> & _).
    rewrite len_app.
    pose proof (len_norm_ws (slice_to (norm_ws s) cut)).
    pose proof (len_slice_to (norm_ws s) cut ltac:(lia)).
    change (len [ELLIPSIS]) with 1. lia.
Qed.

(** C5, as the code has it.  For a limit that is not negative,
    [shorten_label s limit] has at most [limit + 1] characters.  When the
    normalized input has at most [limit] characters it is returned as it
    is.  Otherwise the result is the normalized prefix of the normalized
    input cut at some position [cut <= limit], followed by the ellipsis
    marker; the cut is [limit] itself (hard cut) when the search finds no
    boundary within the first [limit] characters. *)
Theorem shorten_label_bound (s : str) (limit : Z) :
  0 <= limit ->
  len (shorten_label s limit) <= limit + 1 /\
  (len (norm_ws s) <= limit -> shorten_label s limit = norm_ws s) /\
  (limit < len (norm_ws s) ->
   exists cut,
     0 <= cut <= limit /\
     shorten_label s limit = norm_ws (slice_to (norm_ws s) cut) ++ [ELLIPSIS] /\
     (search_punct_ws (rev (slice_to (norm_ws s) limit)) 0 = None ->
      cut = limit)).
Proof.
  intros Hl. split; [|split].
  - apply len_shorten_label, Hl.
  - apply shorten_label_fits.
  - apply shorten_label_cut, Hl.
Qed.

(** The bound is reached: five characters are kept and the ellipsis is
    the sixth. *)
Lemma shorten_label_exceeds_limit :
  ~ (len (shorten_label (lit "abcdefgh") 5) <= 5).
Proof. vm_compute. intros H. apply H. reflexivity. Qed.

Lemma shorten_label_bound_witness :
  0 <= 5 /\ len (shorten_label (lit "abcdefgh") 5) <= 5 + 1.
Proof.
  split; [lia|]. apply (shorten_label_bound (lit "abcdefgh") 5). lia.
Defined.

(** Which boundary the search prefers.  The pattern is matched against
    the reversed prefix, so it finds a punctuation character that FOLLOWS
    a space in the label: ["abc - efgh"] is cut after the dash, while the
    comma and space of ["abc, efgh"] are not a boundary and the label is
    cut at the limit. *)
Example shorten_label_space_dash :
  shorten_label (lit "abc - efgh") 8 = lit "abc -" ++ [ELLIPSIS].
Proof. reflexivity. Qed.

Example shorten_label_comma_space :
  shorten_label (lit "abc, efgh") 8 = lit "abc, efg" ++ [ELLIPSIS].
Proof. reflexivity. Qed.

(** ** Lists *)

(** Induction on the parse tree, with the hypothesis for all children. *)
Lemma node_tree_ind (P : node -> Prop) :
  (forall s, P (NavigableString s)) ->
  (forall s, P (Comment s)) ->
  (forall id name attrs kids,
      Forall P kids -> P (Tag id name attrs kids)) ->
  forall n, P n.
Proof.
  intros Hs Hc Ht. fix IH 1. intros [s|s|id name attrs kids].
  - apply Hs.
  - apply Hc.
  - apply Ht. induction kids as [|k kids IHk]; constructor.
    + apply IH.
    + exact IHk.
Qed.

Lemma flat_map_if_filter {X Y : Type} (p : X -> bool) (f : X -> list Y)
    (l : list X) :
  flat_map (fun x => if p x then f x else []) l = flat_map f (List.filter p l).
Proof.
  induction l as [|x l IH]; simpl; [reflexivity|].
  destruct (p x); simpl; rewrite IH; reflexivity.
Qed.

Lemma flat_map_ext_in {X Y : Type} (f g : X -> list Y) (l : list X) :
  (forall x, In x l -> f x = g x) -> flat_map f l = flat_map g l.
Proof.
  induction l as [|x l IH]; simpl; intros H; [reflexivity|].
  rewrite (H x (or_introl eq_refl)), IH; [reflexivity|].
  intros y Hy. apply H. right. exact Hy.
Qed.

(** The recursion of [emit_list_blocks], written with the two
    [find_all(..., recursive=False)] calls of the source. *)
Lemma emit_list_blocks_items (ul : node) (trail : list str) :
  emit_list_blocks ul trail =
  flat_map
    (fun li =>
       (trail, lit "- " ++ li_text_of li)
         :: flat_map
              (fun sub_list =>
                 emit_list_blocks sub_list
                   (trail ++ [shorten_label (li_text_of li) 80]))
              (find_children ["ul"; "ol"]%string li))
    (find_children ["li"%string] ul).
Proof.
  destruct ul as [s|s|id name attrs kids];
    [reflexivity | reflexivity |].
  unfold find_children at 2. simpl contents_of.
  rewrite <- flat_map_if_filter. simpl.
  apply flat_map_ext_in. intros li _.
  destruct (is_tag_named ["li"%string] li); [|reflexivity].
  f_equal. unfold find_children.
  destruct li as [s|s|lid lname lattrs lkids];
    [reflexivity | reflexivity |].
  simpl contents_of. rewrite <- flat_map_if_filter. reflexivity.
Qed.

(** Induction that also gives the property for the grandchildren: the
    recursion of the list functions goes from a list to the lists inside
    its items. *)
Lemma node_deep_ind (P : node -> Prop) :
  (forall n,
      (forall k g, In k (contents_of n) -> In g (contents_of k) -> P g) ->
      P n) ->
  forall n, P n.
Proof.
  intros H n.
  cut (P n /\ forall k, In k (contents_of n) -> P k); [tauto|].
  induction n as [s|s|id name attrs kids IH] using node_tree_ind.
  - split.
    + apply H. intros k g [].
    + intros k [].
  - split.
    + apply H. intros k g [].
    + intros k [].
  - rewrite Forall_forall in IH.
    assert (forall k, In k kids -> P k) as Hk.
    { intros k Hk. apply list_elem_of_In, IH in Hk. exact (proj1 Hk). }
    split; [|exact Hk].
    apply H. simpl. intros k g Hk' Hg.
    apply list_elem_of_In, IH in Hk'. exact (proj2 Hk' g Hg).
Qed.

(** Every block of a list carries a path that starts with the trail the
    list was entered with. *)
Lemma emit_list_blocks_paths (ul : node) :
  forall (trail : list str) (b : block),
    In b (emit_list_blocks ul trail) -> exists ext, fst b = trail ++ ext.
Proof.
  induction ul as [ul IH] using node_deep_ind. intros trail b.
  rewrite emit_list_blocks_items, in_flat_map. intros (li & Hli & Hb).
  apply filter_In in Hli as [Hli _].
  destruct Hb as [<-|Hb]; [exists []; simpl; rewrite app_nil_r; reflexivity|].
  rewrite in_flat_map in Hb. destruct Hb as (sub & Hsub & Hb).
  apply filter_In in Hsub as [Hsub _].
  apply (IH li sub Hli Hsub) in Hb as (ext & ->).
  rewrite <- app_assoc. eexists. reflexivity.
Qed.

(** The blocks of nested lists never carry the trail itself. *)
Lemma emit_list_blocks_nested_path (sub : node) (trail : list str)
    (lbl : str) (b : block) :
  In b (emit_list_blocks sub (trail ++ [lbl])) -> fst b <> trail.
Proof.
  intros Hb. apply emit_list_blocks_paths in Hb as (ext & ->).
  intros E. apply (f_equal (@length _)) in E.
  rewrite !length_app in E. simpl in E. lia.
Qed.

Lemma filter_none {X : Type} (p : X -> bool) (l : list X) :
  (forall x, In x l -> p x = false) -> List.filter p l = [].
Proof.
  induction l as [|x l IH]; simpl; intros H; [reflexivity|].
  rewrite (H x (or_introl eq_refl)). apply IH. intros y Hy. apply H. right. exact Hy.
Qed.

Lemma filter_app' {X : Type} (p : X -> bool) (l1 l2 : list X) :
  List.filter p (l1 ++ l2) = List.filter p l1 ++ List.filter p l2.
Proof.
  induction l1 as [|x l1 IH]; simpl; [reflexivity|].
  destruct (p x); simpl; rewrite IH; reflexivity.
Qed.

(** C7, as the code has it.  A list encountered directly yields one
    block ["- <item text>"] per top-level item under the trail it was
    entered with, unchanged and in order; the items of a list nested
    directly in an item are emitted, by the same rule, under the trail
    extended by [shorten_label(item text, 80)], a label of at most 81
    characters (80 and the ellipsis).  The list of scenario 3 under the
    empty path yields exactly [([], "- Item1")], [([], "- Item2")],
    [(["Item2"], "- Sub1")]. *)
Theorem list_blocks (ul : node) (trail : list str) :
  emit_list_blocks ul trail =
    flat_map
      (fun li =>
         (trail, lit "- " ++ li_text_of li)
           :: flat_map
                (fun sub_list =>
                   emit_list_blocks sub_list
                     (trail ++ [shorten_label (li_text_of li) 80]))
                (find_children ["ul"; "ol"]%string li))
      (find_children ["li"%string] ul)
  /\ map snd (List.filter (path_is trail) (emit_list_blocks ul trail)) =
       map (fun li => lit "- " ++ li_text_of li)
           (find_children ["li"%string] ul)
  /\ (forall li, len (shorten_label (li_text_of li) 80) <= 81)
  /\ emit_list_blocks scenario3_list [] =
       [([], lit "- Item1"); ([], lit "- Item2");
        ([lit "Item2"], lit "- Sub1")].
Proof.
  split; [apply emit_list_blocks_items|]. split; [|split].
  - rewrite emit_list_blocks_items.
    induction (find_children ["li"%string] ul) as [|li lis IH];
      [reflexivity|].
    cbn [flat_map map]. rewrite filter_app'. cbn [List.filter app].
    unfold path_is at 1. cbn [fst]. rewrite bool_decide_eq_true_2 by reflexivity.
    rewrite filter_none.
    + cbn [app map snd]. f_equal. exact IH.
    + intros b Hb. rewrite in_flat_map in Hb. destruct Hb as (sub & _ & Hb).
      apply bool_decide_eq_false_2. eapply emit_list_blocks_nested_path, Hb.
  - intros li. apply len_shorten_label. lia.
  - vm_compute. reflexivity.
Qed.

(** The label of a nested list can have 81 characters. *)
Lemma nested_label_exceeds_80 :
  ~ (forall b l, In b (emit_list_blocks long_item_list []) ->
                 In l (fst b) -> len l <= 80).
Proof.
  intros H.
  specialize (H ([repeat 97%N 80 ++ [ELLIPSIS]], lit "- x")
                (repeat 97%N 80 ++ [ELLIPSIS])).
  assert (len (repeat 97%N 80 ++ [ELLIPSIS]) <= 80) as Hl.
  { apply H.
    - vm_compute. right. left. reflexivity.
    - left. reflexivity. }
  vm_compute in Hl. apply Hl. reflexivity.
Qed.

(** ** The walk *)

Lemma stack_size_with_following (kids : list node) :
  stack_size (with_following kids) = foldr Nat.add O (map node_size kids).
Proof.
  unfold stack_size. induction kids as [|k kids IH]; simpl; [reflexivity|].
  rewrite IH. reflexivity.
Qed.

Lemma stack_size_app (s1 s2 : list (node * list node)) :
  stack_size (s1 ++ s2) = (stack_size s1 + stack_size s2)%nat.
Proof.
  unfold stack_size. induction s1 as [|c s1 IH]; simpl; [reflexivity|].
  rewrite IH. lia.
Qed.

(** Every run of the loop body takes at least one node off the stack. *)
Lemma build_step_size (st : walker) (c : node * list node)
    (stack : list (node * list node)) :
  (S (stack_size (snd (build_step st (c :: stack))))
   <= stack_size (c :: stack))%nat.
Proof.
  destruct c as [el following]. unfold build_step.
  assert (Hpop : (S (stack_size stack)
                  <= stack_size ((el, following) :: stack))%nat).
  { unfold stack_size. simpl. destruct el; simpl; lia. }
  destruct el as [s|s|id name attrs kids];
    [exact Hpop | exact Hpop |].
  repeat match goal with
         | |- context [if ?b then _ else _] => destruct b
         | |- context [match ?x with [] => _ | _ :: _ => _ end] => destruct x
         | |- context [let '(_, _) := ?x in _] => destruct x as [[? ?] ?]
         end; simpl snd; try exact Hpop.
  rewrite stack_size_app, stack_size_with_following.
  unfold stack_size. simpl. lia.
Qed.

(** With fuel equal to the number of nodes on the stack the loop of
    [build_blocks_from_html] ends with the empty stack. *)
Lemma build_loop_enough (fuel : nat) :
  forall st stack,
    (stack_size stack <= fuel)%nat -> snd (build_loop fuel st stack) = [].
Proof.
  induction fuel as [|fuel IH]; intros st stack Hs.
  - destruct stack as [|[el f] stack]; [reflexivity|].
    unfold stack_size in Hs. simpl in Hs. destruct el; simpl in Hs; lia.
  - destruct stack as [|c stack]; [reflexivity|].
    cbn [build_loop].
    pose proof (build_step_size st c stack) as Hd.
    destruct (build_step st (c :: stack)) as [st' stack'].
    apply IH. simpl in Hd. lia.
Qed.
(** The walk of one top-level tag ends with the empty stack. *)
Lemma build_loop_walk_complete (st : walker) (c : node * list node) :
  snd (build_loop (node_size (fst c)) st [c]) = [].
Proof.
  apply build_loop_enough. unfold stack_size. simpl. lia.
Qed.

Lemma str_eqb_eq (a b : str) : str_eqb a b = true <-> a = b.
Proof. unfold str_eqb. apply bool_decide_eq_true. Qed.

Lemma str_eqb_refl (a : str) : str_eqb a a = true.
Proof. apply str_eqb_eq. reflexivity. Qed.

Lemma list_name_not_p (name : str) :
  name_in ["ul"; "ol"]%string name = true -> str_eqb name (lit "p") = false.
Proof.
  unfold name_in. simpl. rewrite orb_false_r.
  intros H. apply orb_prop in H as [H|H]; apply str_eqb_eq in H; subst name;
    reflexivity.
Qed.

(** C10. A list item whose extracted text is empty still yields a block
    whose text is exactly ["- "], under the trail of its list (the
    current breadcrumb when the walk meets the list); a paragraph whose
    extracted text is empty yields no block. *)
Theorem empty_list_item_emits_block
    (st : walker) (id : nat) (name : str) (attrs : list (str * str))
    (kids : list node) (li : node) (following : list node)
    (stack : list (node * list node))
    (p_id : nat) (p_attrs : list (str * str)) (p_kids : list node)
    (p_following : list node) (p_stack : list (node * list node)) :
  name_in ["ul"; "ol"]%string name = true ->
  id ∉ skipped_ids st ->
  In li (find_children ["li"%string] (Tag id name attrs kids)) ->
  li_text_of li = [] ->
  extract_plain_text (Tag p_id (lit "p") p_attrs p_kids) = [] ->
  In (breadcrumb st, lit "- ")
     (emit_list_blocks (Tag id name attrs kids) (breadcrumb st))
  /\ In (breadcrumb st, lit "- ")
        (blocks (fst (build_step st
                        ((Tag id name attrs kids, following) :: stack))))
  /\ blocks (fst (build_step st
                    ((Tag p_id (lit "p") p_attrs p_kids, p_following)
                       :: p_stack)))
     = blocks st.
Proof.
  intros Hname Hid Hli Htxt Hp.
  assert (Hin : In (breadcrumb st, lit "- ")
                   (emit_list_blocks (Tag id name attrs kids) (breadcrumb st))).
  { rewrite emit_list_blocks_items, in_flat_map. exists li.
    split; [exact Hli|]. left. rewrite Htxt. reflexivity. }
  split; [exact Hin|]. split.
  - unfold build_step. rewrite (bool_decide_eq_false_2 _ Hid).
    rewrite (list_name_not_p _ Hname), Hname. cbn [andb fst blocks].
    apply in_or_app. right. exact Hin.
  - unfold build_step.
    destruct (bool_decide (p_id ∈ skipped_ids st)); [reflexivity|].
    rewrite str_eqb_refl. cbn [andb].
    destruct (is_bold_heading_p (Tag p_id (lit "p") p_attrs p_kids));
      [reflexivity|].
    change (name_in ["ul"; "ol"]%string (lit "p")) with false. cbn iota.
    rewrite Hp. reflexivity.
Qed.

Lemma empty_list_item_emits_block_witness :
  In ([] : list str, lit "- ")
     (blocks (fst (build_step init_walker [(empty_item_list, [])])))
  /\ blocks (fst (build_step init_walker [(empty_paragraph, [])])) = [].
Proof.
  refine (proj2 (empty_list_item_emits_block init_walker 1 (lit "ul") []
                   [Tag 2 (lit "li") [] []] (Tag 2 (lit "li") [] []) [] []
                   3 [] [] [] [] _ _ _ _ _)).
  - reflexivity.
  - apply not_elem_of_empty.
  - left. reflexivity.
  - reflexivity.
  - reflexivity.
Defined.

(** ** Headings *)

Lemma norm_ws_not_nbsp (s : str) : norm_ws s <> [160%N].
Proof.
  intros E. pose proof (strip_no_lead (sub_ws false s)) as H.
  fold (norm_ws s) in H. rewrite E in H. discriminate.
Qed.

Lemma has_strong_child (p : node) :
  (exists c, In c (contents_of p) /\ is_tag_named ["strong"%string] c = true)
  <-> find_children ["strong"%string] p <> [].
Proof.
  unfold find_children. split.
  - intros (c & Hc & Hs) E.
    assert (In c (List.filter (is_tag_named ["strong"%string])
                              (contents_of p))) as Hin.
    { apply filter_In. split; assumption. }
    rewrite E in Hin. destruct Hin.
  - destruct (List.filter _ _) as [|c l] eqn:E; [congruence|]. intros _.
    assert (In c (List.filter (is_tag_named ["strong"%string])
                              (contents_of p))) as Hin.
    { rewrite E. left. reflexivity. }
    apply filter_In in Hin. exists c. exact Hin.
Qed.

(** The test that [is_bold_heading_p] makes on one child of [p]. *)
Lemma heading_child_test (c : node) :
  match c with
  | NavigableString s | Comment s =>
      str_eqb (norm_ws s) [] || str_eqb (norm_ws s) [160%N]
  | Tag _ cname _ _ =>
      name_in ["strong"; "br"]%string cname
      || (str_eqb cname (lit "u") && str_eqb (lit "p") (lit "strong"))
  end
  = match c with
    | NavigableString s | Comment s => str_eqb (norm_ws s) []
    | Tag _ cname _ _ => name_in ["strong"; "br"]%string cname
    end.
Proof.
  assert (Hs : forall s,
             str_eqb (norm_ws s) [] || str_eqb (norm_ws s) [160%N]
             = str_eqb (norm_ws s) []).
  { intros s. destruct (str_eqb (norm_ws s) [160%N]) eqn:E.
    - apply str_eqb_eq in E. destruct (norm_ws_not_nbsp _ E).
    - apply orb_false_r. }
  destruct c as [s|s|cid cname cattrs ckids]; [apply Hs | apply Hs |].
  assert (str_eqb (lit "p") (lit "strong") = false) as -> by reflexivity.
  rewrite andb_false_r. apply orb_false_r.
Qed.

(** What [is_bold_heading_p] computes on a paragraph. *)
Lemma is_bold_heading_p_paragraph (id : nat) (attrs : list (str * str))
    (kids : list node) :
  is_bold_heading_p (Tag id (lit "p") attrs kids) = true
  <-> (exists c, In c kids /\ is_tag_named ["strong"%string] c = true)
      /\ forall c, In c kids ->
                   match c with
                   | NavigableString s | Comment s => str_eqb (norm_ws s) []
                   | Tag _ cname _ _ => name_in ["strong"; "br"]%string cname
                   end = true.
Proof.
  unfold is_bold_heading_p. rewrite str_eqb_refl. cbn [negb].
  pose proof (has_strong_child (Tag id (lit "p") attrs kids)) as Hs.
  cbn [contents_of] in Hs.
  destruct (find_children ["strong"%string] (Tag id (lit "p") attrs kids))
    as [|c0 l0].
  - split; [discriminate|]. intros [Hc _]. apply Hs in Hc. congruence.
  - rewrite forallb_forall. split.
    + intros H. split; [apply Hs; discriminate|].
      intros c Hc. rewrite <- heading_child_test. apply H, Hc.
    + intros [_ H] c Hc. rewrite heading_child_test. apply H, Hc.
Qed.

Lemma is_bold_heading_p_name (p : node) :
  is_bold_heading_p p = true ->
  exists id attrs kids, p = Tag id (lit "p") attrs kids.
Proof.
  destruct p as [s|s|id name attrs kids]; [discriminate | discriminate |].
  unfold is_bold_heading_p.
  destruct (str_eqb name (lit "p")) eqn:En; [|discriminate].
  apply str_eqb_eq in En. subst name. intros _. exists id, attrs, kids.
  reflexivity.
Qed.

(** A comment with content directly below a paragraph keeps the
    paragraph from being detected: the loop of [is_bold_heading_p]
    takes the comment for text. *)
Lemma comment_child_not_heading (id : nat) (name : str)
    (attrs : list (str * str)) (kids : list node) (s : str) :
  In (Comment s) kids ->
  norm_ws s <> [] ->
  is_bold_heading_p (Tag id name attrs kids) = false.
Proof.
  intros Hin Hs.
  destruct (is_bold_heading_p (Tag id name attrs kids)) eqn:E; [|reflexivity].
  destruct (is_bold_heading_p_name _ E)
    as (id' & attrs' & kids' & [= -> -> -> ->]).
  apply is_bold_heading_p_paragraph in E as [_ H].
  specialize (H _ Hin). apply str_eqb_eq in H. contradiction.
Qed.

(** C6. A paragraph is detected as a heading only when it has the
    heading shape: at least one [<strong>] among its direct children,
    and every direct child a [<strong>] or [<br>] tag, a comment, or
    text that is blank after whitespace normalization.  A paragraph of
    that shape whose comments are blank is detected.  When the walk
    meets a detected paragraph the breadcrumb becomes the one-element
    path holding the paragraph's extracted text with a trailing colon
    stripped, whatever the path was before; no block is added. *)
Theorem bold_heading_resets_breadcrumb
    (p : node) (st : walker) (following : list node)
    (stack : list (node * list node)) :
  (is_bold_heading_p p = true -> heading_shape p)
  /\ (heading_shape p -> blank_comments p -> is_bold_heading_p p = true)
  /\ (is_bold_heading_p p = true ->
      (forall id, id_of p = Some id -> id ∉ skipped_ids st) ->
      let st' := fst (build_step st ((p, following) :: stack)) in
      breadcrumb st' = [strip_trailing_colon (extract_plain_text p)]
      /\ length (breadcrumb st') = 1%nat
      /\ blocks st' = blocks st).
Proof.
  split; [|split].
  - intros H. destruct (is_bold_heading_p_name p H)
      as (id & attrs & kids & ->).
    apply is_bold_heading_p_paragraph in H as [Hs Hk].
    exists id, attrs, kids. split; [reflexivity|]. split; [exact Hs|].
    intros c Hc. specialize (Hk c Hc).
    destruct c as [s|s|cid cname cattrs ckids];
      [exact Hk | reflexivity | exact Hk].
  - intros (id & attrs & kids & -> & Hs & Hk) Hb.
    apply is_bold_heading_p_paragraph. split; [exact Hs|].
    intros c Hc. specialize (Hk c Hc).
    destruct c as [s|s|cid cname cattrs ckids]; [exact Hk | | exact Hk].
    apply str_eqb_eq, Hb. exact Hc.
  - intros Hdet Hid.
    destruct (is_bold_heading_p_name p Hdet) as (id & attrs & kids & ->).
    cbn zeta. unfold build_step.
    rewrite (bool_decide_eq_false_2 _ (Hid id eq_refl)), str_eqb_refl, Hdet.
    cbn. repeat split; reflexivity.
Qed.

(** The claim as it was stated fails on a heading with a named anchor
    in front of the bold text: the anchor has no visible text, so the
    paragraph has the claimed shape, but the anchor is a tag other than
    [<strong>] and [<br>] and the paragraph is not detected.  The walk
    emits it as a plain paragraph and the breadcrumb stays empty. *)
Lemma claimed_heading_not_detected :
  claimed_heading_shape anchored_heading
  /\ is_bold_heading_p anchored_heading = false
  /\ build_blocks_from_html anchored_heading_page
     = [([], lit "Leave Policy:"); ([], lit "x")].
Proof.
  split; [|split; vm_compute; reflexivity].
  eexists _, _, _. split; [reflexivity|]. split.
  - eexists. split; [right; left; reflexivity | reflexivity].
  - intros c [<-|[<-|[]]] H; [vm_compute in H; discriminate | reflexivity].
Qed.

Lemma bold_heading_resets_breadcrumb_witness :
  is_bold_heading_p heading_paragraph = true
  /\ breadcrumb (fst (build_step
                        (mk_walker [] [lit "Old"; lit "Older"] ∅ ∅)
                        [(heading_paragraph, [])]))
     = [lit "Leave Policy"].
Proof.
  pose proof (bold_heading_resets_breadcrumb heading_paragraph
                (mk_walker [] [lit "Old"; lit "Older"] ∅ ∅) [] [])
    as (_ & Hdet & Hreset).
  assert (Hd : is_bold_heading_p heading_paragraph = true).
  { apply Hdet.
    - exists 1%nat, [],
        [Tag 2 (lit "strong") [] [NavigableString (lit "Leave Policy:")]].
      split; [reflexivity|]. split.
      + eexists. split; [left; reflexivity | reflexivity].
      + intros c [<-|[]]. reflexivity.
    - intros s [H|[]]. discriminate. }
  split; [exact Hd|].
  refine (proj1 (Hreset Hd _)).
  intros id _. apply not_elem_of_empty.
Defined.

(** ** The Q/A pairer *)

(** Once the current node is detached, the loop of
    [collect_answer_content] is over: a detached node has no
    [next_sibling]. *)
Lemma collect_loop_detached (fuel : nat) (bc : list str) (cur : node)
    (following : list node) (lines : list str) (consumed : list nat)
    (st : walker) :
  is_detached (detached st) cur = true ->
  collect_loop fuel bc cur following lines consumed st = (lines, consumed, st).
Proof.
  intros H. destruct fuel as [|fuel]; [reflexivity|]. cbn [collect_loop].
  destruct (truthy cur); [|reflexivity]. cbn [negb].
  unfold next_sibling. rewrite H. reflexivity.
Qed.

Lemma consume_detaches (id : nat) (name : str) (attrs : list (str * str))
    (kids : list node) (consumed : list nat) (st : walker) :
  is_detached (detached (snd (consume id consumed st)))
              (Tag id name attrs kids) = true.
Proof. simpl. apply bool_decide_eq_true_2. set_solver. Qed.

(** The loop consumes at most one more node. *)
Lemma collect_loop_consumes_one (fuel : nat) (bc : list str) :
  forall cur following lines consumed st,
    (length (snd (fst (collect_loop fuel bc cur following lines consumed st)))
     <= S (length consumed))%nat.
Proof.
  induction fuel as [|fuel IH]; intros cur following lines consumed st;
    [simpl; lia|].
  cbn [collect_loop].
  destruct (negb (truthy cur)); [simpl; lia|].
  destruct (next_sibling (detached st) cur following) as [[nxt following']|];
    [|simpl; lia].
  destruct (negb (truthy nxt)); [simpl; lia|].
  destruct nxt as [s|s|id name attrs kids];
    [apply IH | apply IH |].
  assert (Hc : forall ls,
             (length (snd (fst (let '(cs, s) := consume id consumed st in
                                collect_loop fuel bc (Tag id name attrs kids)
                                             following' ls cs s)))
              <= S (length consumed))%nat).
  { intros ls.
    pose proof (consume_detaches id name attrs kids consumed st) as Hd.
    destruct (consume id consumed st) as [cs s] eqn:E.
    rewrite collect_loop_detached by exact Hd.
    unfold consume in E. injection E as <- <-. simpl.
    rewrite length_app. simpl. lia. }
  destruct (bool_decide (id ∈ skipped_ids st)); [apply IH|].
  destruct (str_eqb name (lit "p") && is_bold_heading_p (Tag id name attrs kids)).
  { destruct bc as [|top bc']; [simpl; lia|].
    destruct (str_eqb _ _); [apply Hc | simpl; lia]. }
  destruct (str_eqb name (lit "p")).
  { destruct (is_question_text _); [simpl; lia | apply Hc]. }
  destruct (name_in _ name); [apply Hc | simpl; lia].
Qed.

Lemma first_attached_shorter (d : gset nat) (following : list node)
    (nxt : node) (rest : list node) :
  first_attached d following = Some (nxt, rest) ->
  (length rest < length following)%nat.
Proof.
  induction following as [|n following IH]; simpl; [discriminate|].
  destruct (is_detached d n).
  - intros H. apply IH in H. lia.
  - intros [= _ <-]. lia.
Qed.

(** The result of the loop of [collect_answer_content] does not depend
    on the fuel once there is more of it than following siblings: the
    fuel of [collect_answer_content] lets the loop run to its end. *)
Lemma collect_loop_fuel (fuel : nat) (bc : list str) :
  forall n cur following lines consumed st,
    (length following < fuel)%nat ->
    (length following < n)%nat ->
    collect_loop fuel bc cur following lines consumed st
    = collect_loop n bc cur following lines consumed st.
Proof.
  induction fuel as [|fuel IH]; intros n cur following lines consumed st Hf Hn;
    [lia|].
  destruct n as [|n]; [lia|]. cbn [collect_loop].
  destruct (negb (truthy cur)); [reflexivity|].
  destruct (next_sibling (detached st) cur following)
    as [[nxt following']|] eqn:E; [|reflexivity].
  assert (length following' < length following)%nat as Hlt.
  { unfold next_sibling in E. destruct (is_detached (detached st) cur);
      [discriminate|]. apply (first_attached_shorter _ _ _ _ E). }
  assert (Hrec : forall ls cs s,
             collect_loop fuel bc nxt following' ls cs s
             = collect_loop n bc nxt following' ls cs s).
  { intros ls cs s. apply IH; lia. }
  destruct (negb (truthy nxt)); [reflexivity|].
  destruct nxt as [s|s|id name attrs kids];
    [apply Hrec | apply Hrec |].
  repeat match goal with
         | |- context [if ?b then _ else _] => destruct b
         | |- context [match ?x with [] => _ | _ :: _ => _ end] => destruct x
         | |- context [let '(_, _) := ?x in _] => destruct x
         end; first [reflexivity | apply Hrec].
Qed.

(** C1 fails on the code.  Whatever follows a question paragraph, the
    scan of the following siblings consumes at most one of them: the
    consumed node is taken out of the tree, which clears its
    [next_sibling], and the loop condition then ends the scan.  On the
    page [<p>Q: how?</p><p>A: one</p><p>two</p>] the second answer
    paragraph is not part of the Q/A block and comes out as a block of
    its own. *)
Theorem qa_pairer_consumes_one_sibling :
  (forall start following current_breadcrumb st,
      (length (snd (fst (collect_answer_content
                           start following current_breadcrumb st))) <= 1)%nat)
  /\ build_blocks_from_html qa_two_answers =
       [([], lit "Q: how?" ++ [NL] ++ lit "A: one"); ([], lit "two")].
Proof.
  split.
  - intros start following bc st. unfold collect_answer_content.
    pose proof (collect_loop_consumes_one (S (length following)) bc start
                  following [] [] st) as H.
    destruct (collect_loop _ _ _ _ _ _ _) as [[ls cs] st']. exact H.
  - vm_compute. reflexivity.
Qed.

(** ** The empty page *)

(** C8. A page from which no block is extracted gives no chunk, and
    what is written for it is the metadata preamble alone: the version,
    title and tags lines, the source line when there is a source URL,
    and the blank line. *)
Theorem empty_document_header_only
    (soup : node) (base_name run_tag : str) (url : option str)
    (max_chars : Z) :
  build_blocks_from_html soup = [] ->
  chunk_blocks (build_blocks_from_html soup) max_chars = []
  /\ process_file soup base_name run_tag url max_chars =
       ctxt_preamble base_name run_tag url
  /\ ctxt_preamble base_name run_tag url =
       lit "`version: 1`" ++ [NL]
         ++ lit "`title: " ++ base_name ++ lit "`" ++ [NL]
         ++ lit "`tags: ["
         ++ (lit "policies" ++ match run_tag with
                               | [] => []
                               | _ => lit ", " ++ run_tag
                               end)
         ++ lit "]`" ++ [NL]
         ++ match url with
            | Some u => lit "`source_url: " ++ u ++ lit "`" ++ [NL]
            | None => []
            end
         ++ [NL].
Proof.
  intros H. unfold process_file. rewrite H.
  split; [reflexivity|]. split; [|reflexivity].
  unfold ctxt_document. change (chunk_blocks [] max_chars) with (@nil str).
  cbn [map concat]. apply app_nil_r.
Qed.

Lemma empty_document_header_only_witness :
  build_blocks_from_html empty_page = []
  /\ process_file empty_page (lit "leave") [] None 500 =
       lit "`version: 1`" ++ [NL] ++ lit "`title: leave`" ++ [NL]
         ++ lit "`tags: [policies]`" ++ [NL] ++ [NL].
Proof.
  assert (H : build_blocks_from_html empty_page = []) by reflexivity.
  split; [exact H|].
  rewrite (proj1 (proj2 (empty_document_header_only
                           empty_page (lit "leave") [] None 500 H))).
  reflexivity.
Defined.

(** ** The packer *)

Lemma pack_block_phases {A : Type} (wrap : str -> Z -> list str)
    (close_chunk : list str -> A) (limit : Z) (st : packer A)
    (path : list str) (text : str) :
  pack_block wrap close_chunk limit st (path, text)
  = feed_lines wrap close_chunk limit path text
               (enter_block close_chunk limit path text st).
Proof.
  unfold pack_block, enter_block, new_chunk, feed_lines.
  destruct (bool_decide _); [destruct (start_new_chunk _ _ _)|];
    (destruct (is_qa_block text && _); [destruct (start_new_chunk _ _ _)|]);
    reflexivity.
Qed.

Section PackerJoined.
Context {A : Type}.
Variable wrap : str -> Z -> list str.
Variable close_chunk : list str -> A.
Variable limit : Z.

Let id_chunk := fun ls : list str => ls.

Lemma flush_joined (st : packer (list str)) :
  flush close_chunk (joined close_chunk st)
  = map close_chunk (flush id_chunk st).
Proof.
  unfold flush, joined. cbn.
  destruct (current_lines st); [reflexivity|].
  rewrite map_app. reflexivity.
Qed.

Lemma new_chunk_joined (path : list str) (st : packer (list str)) :
  new_chunk close_chunk path (joined close_chunk st)
  = joined close_chunk (new_chunk id_chunk path st).
Proof.
  unfold new_chunk, start_new_chunk. rewrite flush_joined.
  destruct (breadcrumb_header path); reflexivity.
Qed.

Lemma add_line_joined (path : list str) (st : packer (list str))
    (seg : str) :
  add_line close_chunk limit path (joined close_chunk st) seg
  = joined close_chunk (add_line id_chunk limit path st seg).
Proof.
  unfold add_line, start_new_chunk. cbn [current_len joined].
  destruct (_ >? limit); [|reflexivity].
  rewrite flush_joined.
  destruct (breadcrumb_header path); reflexivity.
Qed.

Lemma fold_add_line_joined {X : Type} (f : X -> str) (path : list str)
    (xs : list X) :
  forall st,
    fold_left (fun st x => add_line close_chunk limit path st (f x)) xs
              (joined close_chunk st)
    = joined close_chunk
        (fold_left (fun st x => add_line id_chunk limit path st (f x)) xs st).
Proof.
  induction xs as [|x xs IH]; intros st; [reflexivity|].
  cbn [fold_left]. rewrite add_line_joined. apply IH.
Qed.

Lemma enter_block_joined (path : list str) (text : str)
    (st : packer (list str)) :
  enter_block close_chunk limit path text (joined close_chunk st)
  = joined close_chunk (enter_block id_chunk limit path text st).
Proof.
  unfold enter_block. cbn [current_breadcrumb joined].
  destruct (bool_decide _).
  - rewrite new_chunk_joined. cbn [current_len joined].
    destruct (_ && _); [apply new_chunk_joined | reflexivity].
  - cbn [current_len joined].
    destruct (_ && _); [apply new_chunk_joined | reflexivity].
Qed.

Lemma feed_lines_joined (path : list str) (text : str)
    (st : packer (list str)) :
  feed_lines wrap close_chunk limit path text (joined close_chunk st)
  = joined close_chunk (feed_lines wrap id_chunk limit path text st).
Proof.
  unfold feed_lines. destruct (contains text [NL]).
  - revert st. induction (split_nl text) as [|ln lns IH]; intros st;
      [reflexivity|].
    cbn [fold_left]. cbn [current_len joined].
    destruct (_ >? limit).
    + rewrite (fold_add_line_joined (fun x => x)). apply IH.
    + rewrite add_line_joined. apply IH.
  - cbn [current_len joined]. destruct (_ >? limit).
    + apply (fold_add_line_joined
               (fun w => match bullet_prefix_of text with
                         | [] => w
                         | _ :: _ =>
                             if startswith w (bullet_prefix_of text) then w
                             else bullet_prefix_of text ++ w
                         end)).
    + apply add_line_joined.
Qed.

Lemma fold_pack_block_joined (blocks : list block) :
  forall st,
    fold_left (pack_block wrap close_chunk limit) blocks
              (joined close_chunk st)
    = joined close_chunk (fold_left (pack_block wrap id_chunk limit) blocks st).
Proof.
  induction blocks as [|[path text] blocks IH]; intros st; [reflexivity|].
  cbn [fold_left]. rewrite !pack_block_phases.
  rewrite enter_block_joined, feed_lines_joined. apply IH.
Qed.

(** The chunks of [chunk_blocks] are the line lists of [chunk_lines],
    each one joined and stripped. *)
Lemma chunk_blocks_with_lines (blocks : list block) :
  chunk_blocks_with wrap close_chunk limit blocks
  = map close_chunk (chunk_lines wrap limit blocks).
Proof.
  unfold chunk_lines, chunk_blocks_with.
  change (@init_packer A) with (joined close_chunk init_packer).
  rewrite fold_pack_block_joined. apply flush_joined.
Qed.
End PackerJoined.
Lemma line_cost_app (a b : list str) :
  line_cost (a ++ b) = line_cost a + line_cost b.
Proof.
  unfold line_cost. induction a as [|l a IH]; simpl; [reflexivity|].
  rewrite IH. lia.
Qed.

Lemma line_cost_single (l : str) : line_cost [l] = len l + 1.
Proof. unfold line_cost. simpl. lia. Qed.

Lemma line_cost_nonneg (ls : list str) : 0 <= line_cost ls.
Proof.
  unfold line_cost. induction ls as [|l ls IH]; simpl; [lia|].
  pose proof (len_nonneg l). lia.
Qed.

(** [start_new_chunk] followed by the assignment of its result: the
    lines in progress are closed and the header lines of the path are
    all there is in the new chunk. *)
Lemma new_chunk_eq {A : Type} (close_chunk : list str -> A)
    (path : list str) (st : packer A) :
  new_chunk close_chunk path st
  = mk_packer (flush close_chunk st) (header_lines path) (Some path)
              (line_cost (header_lines path)).
Proof.
  unfold new_chunk, start_new_chunk, header_lines, set_len.
  destruct (breadcrumb_header path); cbn beta iota zeta; [reflexivity|].
  rewrite line_cost_single. reflexivity.
Qed.

Lemma add_line_eq {A : Type} (close_chunk : list str -> A) (limit : Z)
    (path : list str) (st : packer A) (seg : str) :
  add_line close_chunk limit path st seg
  = if current_len st + len seg + 1 >? limit
    then mk_packer (flush close_chunk st) (header_lines path ++ [seg])
                   (Some path)
                   (line_cost (header_lines path) + len seg + 1)
    else mk_packer (chunks st) (current_lines st ++ [seg])
                   (current_breadcrumb st) (current_len st + len seg + 1).
Proof.
  unfold add_line, start_new_chunk, header_lines, set_len.
  destruct (_ >? limit); [|reflexivity].
  destruct (breadcrumb_header path); cbn beta iota zeta; [reflexivity|].
  rewrite line_cost_single. reflexivity.
Qed.

Section PackerInvariant.
Variable wrap : str -> Z -> list str.
Variable limit : Z.
Variable blocks : list block.

Let id_chunk := fun ls : list str => ls.
Let ok := packer_ok wrap limit blocks.

Lemma flush_ok (st : packer (list str)) :
  ok st ->
  Forall (fun ls => ls <> [] /\ chunk_ok wrap limit blocks ls)
         (flush id_chunk st).
Proof.
  intros (Hc & Hl & Hcur). unfold flush.
  destruct (current_lines st) as [|l ls] eqn:E; [exact Hc|].
  apply Forall_app. split; [exact Hc|]. constructor; [|constructor].
  split; [discriminate|].
  destruct (current_breadcrumb st) as [path|]; [|discriminate].
  destruct Hcur as (segs & E' & Hf & Hb).
  exists path, segs. repeat split; assumption.
Qed.

Lemma new_chunk_ok (path : list str) (st : packer (list str)) :
  ok st -> ok (new_chunk id_chunk path st).
Proof.
  intros H. rewrite new_chunk_eq. split; [exact (flush_ok st H)|].
  split; [reflexivity|]. cbn. exists [].
  rewrite app_nil_r. repeat split; [constructor | right; simpl; lia].
Qed.

Lemma add_line_ok (path : list str) (st : packer (list str)) (seg : str) :
  ok st ->
  current_breadcrumb st = Some path ->
  (exists text, In (path, text) blocks /\ segment_of wrap limit text seg) ->
  ok (add_line id_chunk limit path st seg)
  /\ current_breadcrumb (add_line id_chunk limit path st seg) = Some path.
Proof.
  intros H Hp Hseg. rewrite add_line_eq.
  destruct (Z.gtb_spec (current_len st + len seg + 1) limit) as [Hgt|Hle].
  - split; [|reflexivity]. split; [exact (flush_ok st H)|]. cbn.
    split; [rewrite line_cost_app, line_cost_single; lia|].
    exists [seg]. repeat split; [|right; simpl; lia].
    constructor; [exact Hseg | constructor].
  - split; [|exact Hp]. destruct H as (Hc & Hl & Hcur).
    split; [exact Hc|]. cbn.
    split; [rewrite line_cost_app, line_cost_single; lia|].
    rewrite Hp in *. destruct Hcur as (segs & E & Hf & _).
    exists (segs ++ [seg]). rewrite E, app_assoc.
    repeat split.
    + apply Forall_app. split; [exact Hf|].
      constructor; [exact Hseg | constructor].
    + left. rewrite <- E, line_cost_app, line_cost_single. lia.
Qed.

Lemma fold_add_line_ok {X : Type} (f : X -> str) (path : list str)
    (xs : list X) :
  (forall x, In x xs ->
     exists text, In (path, text) blocks /\
                  segment_of wrap limit text (f x)) ->
  forall st,
    ok st -> current_breadcrumb st = Some path ->
    ok (fold_left (fun st x => add_line id_chunk limit path st (f x)) xs st)
    /\ current_breadcrumb
         (fold_left (fun st x => add_line id_chunk limit path st (f x)) xs st)
       = Some path.
Proof.
  induction xs as [|x xs IH]; intros Hx st H Hp; [split; assumption|].
  cbn [fold_left].
  destruct (add_line_ok path st (f x) H Hp) as [H' Hp'].
  { apply Hx. left. reflexivity. }
  apply IH; [|assumption..]. intros y Hy. apply Hx. right. exact Hy.
Qed.

Lemma enter_block_ok (path : list str) (text : str)
    (st : packer (list str)) :
  ok st ->
  ok (enter_block id_chunk limit path text st)
  /\ current_breadcrumb (enter_block id_chunk limit path text st)
     = Some path.
Proof.
  intros H. unfold enter_block.
  assert (H1 : ok (if bool_decide (current_breadcrumb st <> Some path)
                   then new_chunk id_chunk path st else st)
               /\ current_breadcrumb
                    (if bool_decide (current_breadcrumb st <> Some path)
                     then new_chunk id_chunk path st else st) = Some path).
  { destruct (bool_decide_reflect (current_breadcrumb st <> Some path))
      as [Hne|He].
    - split; [apply new_chunk_ok, H | rewrite new_chunk_eq; reflexivity].
    - split; [exact H|].
      destruct (decide (current_breadcrumb st = Some path)); tauto. }
  destruct H1 as [H1 Hp1].
  destruct (_ && _).
  - split; [apply new_chunk_ok, H1 | rewrite new_chunk_eq; reflexivity].
  - split; assumption.
Qed.

Lemma feed_lines_ok (path : list str) (text : str)
    (st : packer (list str)) :
  In (path, text) blocks ->
  ok st -> current_breadcrumb st = Some path ->
  ok (feed_lines wrap id_chunk limit path text st).
Proof.
  intros Hin H Hp. unfold feed_lines.
  destruct (contains text [NL]) eqn:Enl.
  - assert (Hg : forall lns, incl lns (split_nl text) ->
              forall st, ok st -> current_breadcrumb st = Some path ->
                ok (fold_left
                      (fun st ln =>
                         let ln := rstrip ln in
                         if len ln + current_len st >? limit
                         then fold_left (add_line id_chunk limit path)
                                        (wrapped wrap limit ln) st
                         else add_line id_chunk limit path st ln) lns st)).
    { induction lns as [|ln lns IH]; intros Hincl st0 H0 Hp0; [exact H0|].
      cbn [fold_left].
      assert (Hln : In ln (split_nl text)) by (apply Hincl; left; reflexivity).
      assert (Hrest : incl lns (split_nl text)).
      { intros y Hy. apply Hincl. right. exact Hy. }
      destruct (_ >? limit).
      - destruct (fold_add_line_ok (fun x => x) path
                    (wrapped wrap limit (rstrip ln))) with (st := st0)
          as [H' Hp']; [|assumption..|apply IH; assumption].
        intros w Hw. exists text. split; [exact Hin|].
        unfold segment_of. rewrite Enl. exists ln. split; [exact Hln|].
        right. exact Hw.
      - destruct (add_line_ok path st0 (rstrip ln) H0 Hp0) as [H' Hp'];
          [|apply IH; assumption].
        exists text. split; [exact Hin|].
        unfold segment_of. rewrite Enl. exists ln. split; [exact Hln|].
        left. reflexivity. }
    apply Hg; [apply incl_refl | assumption..].
  - destruct (_ >? limit).
    + apply (fold_add_line_ok
               (fun w => match bullet_prefix_of text with
                         | [] => w
                         | _ :: _ =>
                             if startswith w (bullet_prefix_of text) then w
                             else bullet_prefix_of text ++ w
                         end)); [|assumption..].
      intros w Hw. exists text. split; [exact Hin|].
      unfold segment_of. rewrite Enl. right. exists w. split; [exact Hw|].
      destruct (bullet_prefix_of text); [left; reflexivity|].
      destruct (startswith w _); [left | right]; reflexivity.
    + apply add_line_ok; [assumption..|].
      exists text. split; [exact Hin|].
      unfold segment_of. rewrite Enl. left. reflexivity.
Qed.

Lemma fold_pack_block_ok (bs : list block) :
  incl bs blocks ->
  forall st, ok st -> ok (fold_left (pack_block wrap id_chunk limit) bs st).
Proof.
  induction bs as [|[path text] bs IH]; intros Hincl st H; [exact H|].
  cbn [fold_left]. rewrite pack_block_phases.
  destruct (enter_block_ok path text st H) as [H1 Hp1].
  apply IH.
  - intros y Hy. apply Hincl. right. exact Hy.
  - apply feed_lines_ok; [|assumption..]. apply Hincl. left. reflexivity.
Qed.

(** Every chunk of [chunk_lines] is a non-empty list of lines with the
    shape of [chunk_ok]. *)
Lemma chunk_lines_ok (ls : list str) :
  In ls (chunk_lines wrap limit blocks) ->
  ls <> [] /\ chunk_ok wrap limit blocks ls.
Proof.
  unfold chunk_lines, chunk_blocks_with. intros Hin.
  assert (H : ok (fold_left (pack_block wrap id_chunk limit) blocks
                            init_packer)).
  { apply fold_pack_block_ok; [apply incl_refl|].
    split; [constructor|]. split; reflexivity. }
  apply flush_ok in H. rewrite Forall_forall in H.
  apply H, list_elem_of_In, Hin.
Qed.
End PackerInvariant.
Lemma len_join_cost (ls : list str) :
  ls <> [] -> len (join [NL] ls) + 1 = line_cost ls.
Proof.
  induction ls as [|l ls IH]; [congruence|]. intros _.
  destruct ls as [|l' ls'].
  - rewrite line_cost_single. reflexivity.
  - change (join [NL] (l :: l' :: ls')) with (l ++ [NL] ++ join [NL] (l' :: ls')).
    change (line_cost (l :: l' :: ls'))
      with (len l + 1 + line_cost (l' :: ls')).
    rewrite !len_app, <- IH by discriminate.
    change (len [NL]) with 1. lia.
Qed.

Lemma len_serialize (ls : list str) :
  ls <> [] -> len (serialize ls) < line_cost ls.
Proof.
  intros H. rewrite <- (len_join_cost ls H). unfold serialize, len.
  pose proof (length_strip (join [NL] ls)). lia.
Qed.

(** C2, as the code has it.  Every chunk is the header lines of one
    path followed by content lines, each of which is a whole line handed
    to [add_line] for a block of that path (a line of the block or a line
    returned by the wrapper: the packer truncates nothing).  Its length
    as the packer counts it (each line and one separator) is at most the
    limit, and so is the length of the chunk's text, unless the chunk
    holds at most one content line: a line that does not fit under its
    header is still emitted, alone. *)
Theorem chunk_size_bound (wrap : str -> Z -> list str) (limit : Z)
    (blocks : list block) (c : str) :
  In c (chunk_blocks_with wrap serialize limit blocks) ->
  exists path segs,
    c = serialize (header_lines path ++ segs)
    /\ from_blocks wrap limit blocks path segs
    /\ ((line_cost (header_lines path ++ segs) <= limit /\ len c < limit)
        \/ (length segs <= 1)%nat).
Proof.
  rewrite chunk_blocks_with_lines, in_map_iff. intros (ls & <- & Hin).
  apply chunk_lines_ok in Hin as (Hne & path & segs & -> & Hf & Hb).
  exists path, segs. split; [reflexivity|]. split; [exact Hf|].
  destruct Hb as [Hb|Hb]; [left | right; exact Hb].
  split; [exact Hb|]. pose proof (len_serialize _ Hne). lia.
Qed.

(** C4, as the code has it.  Every chunk belongs to one path.  When the
    header text of that path (its labels, each shortened by
    [shorten_label(label, 80)], joined by [" > "]) is not empty, the
    chunk is the one line ["### " + header] followed by content lines;
    when it is empty the chunk has no header line.  Every content line
    is a line of a block whose path is the path of the chunk. *)
Theorem chunk_header_path (wrap : str -> Z -> list str) (limit : Z)
    (blocks : list block) (c : str) :
  In c (chunk_blocks_with wrap serialize limit blocks) ->
  exists path segs,
    from_blocks wrap limit blocks path segs
    /\ ((breadcrumb_header path = [] /\ c = serialize segs)
        \/ (path <> [] /\ breadcrumb_header path <> []
            /\ c = serialize
                     ((lit "### "
                         ++ join (lit " > ")
                              (map (fun p => shorten_label p 80) path))
                        :: segs))).
Proof.
  rewrite chunk_blocks_with_lines, in_map_iff. intros (ls & <- & Hin).
  apply chunk_lines_ok in Hin as (_ & path & segs & -> & Hf & _).
  exists path, segs. split; [exact Hf|]. unfold header_lines.
  destruct (breadcrumb_header path) as [|h hs] eqn:E.
  - left. split; reflexivity.
  - right. destruct path as [|p path]; [discriminate|].
    split; [discriminate|]. split; [discriminate|].
    rewrite <- E. reflexivity.
Qed.
(** With the limit 60, the second chunk has 73 characters although no
    word of it is longer than the limit. *)
Lemma chunk_over_limit_without_long_token :
  ~ (forall c, In c (chunk_blocks long_header_blocks 60) ->
               len c <= 60
               \/ exists token, In token (split_chunks [] c) /\ 60 < len token).
Proof.
  intros H.
  specialize (H (nth 1 (chunk_blocks long_header_blocks 60) [])).
  destruct H as [H|(token & Hin & Hlong)].
  - vm_compute. right. left. reflexivity.
  - vm_compute in H. apply H. reflexivity.
  - assert (forallb (fun t => len t <=? 60)
              (split_chunks [] (nth 1 (chunk_blocks long_header_blocks 60) []))
            = true) as Hall by (vm_compute; reflexivity).
    rewrite forallb_forall in Hall. apply Hall in Hin.
    apply Z.leb_le in Hin. lia.
Qed.

Lemma chunk_size_bound_witness :
  exists path segs,
    nth 1 (chunk_blocks long_header_blocks 60) []
    = serialize (header_lines path ++ segs)
    /\ from_blocks textwrap_wrap 60 long_header_blocks path segs
    /\ ((line_cost (header_lines path ++ segs) <= 60
         /\ len (nth 1 (chunk_blocks long_header_blocks 60) []) < 60)
        \/ (length segs <= 1)%nat).
Proof.
  apply (chunk_size_bound textwrap_wrap 60 long_header_blocks).
  vm_compute. right. left. reflexivity.
Defined.

(** A chunk under the non-empty path [[""]] has no header line. *)
Lemma chunk_without_header :
  ~ (forall c, In c (chunk_blocks blank_label_blocks 500) ->
               startswith c (lit "### ") = true).
Proof.
  intros H. specialize (H (lit "x")).
  assert (startswith (lit "x") (lit "### ") = true) as E.
  { apply H. vm_compute. left. reflexivity. }
  vm_compute in E. discriminate.
Qed.

Lemma chunk_header_path_witness :
  exists path segs,
    from_blocks textwrap_wrap 60 long_header_blocks path segs
    /\ ((breadcrumb_header path = []
         /\ nth 1 (chunk_blocks long_header_blocks 60) [] = serialize segs)
        \/ (path <> [] /\ breadcrumb_header path <> []
            /\ nth 1 (chunk_blocks long_header_blocks 60) []
               = serialize
                   ((lit "### "
                       ++ join (lit " > ")
                            (map (fun p => shorten_label p 80) path))
                      :: segs))).
Proof.
  apply (chunk_header_path textwrap_wrap 60 long_header_blocks).
  vm_compute. right. left. reflexivity.
Defined.

(** ** Q/A blocks *)

Lemma startswith_app (s p q : str) :
  startswith s (p ++ q) = true -> startswith s p = true.
Proof.
  revert s. induction p as [|a p IH]; intros s; [destruct s; reflexivity|].
  destruct s as [|b s]; simpl; [discriminate|].
  intros H. apply andb_prop in H as [-> H]. apply (IH _ H).
Qed.

Lemma contains_app (s p q : str) :
  contains s (p ++ q) = true -> contains s p = true.
Proof.
  induction s as [|b s IH]; cbn [contains].
  - rewrite !orb_false_r. apply startswith_app.
  - intros H. apply orb_prop in H as [H|H].
    + rewrite (startswith_app _ _ _ H). reflexivity.
    + rewrite (IH H). apply orb_true_r.
Qed.

Lemma qa_block_has_newline (text : str) :
  is_qa_block text = true -> contains text [NL] = true.
Proof.
  unfold is_qa_block. intros H. apply andb_prop in H as [_ H].
  apply (contains_app text [NL] (lit "A:")), H.
Qed.

Lemma line_cost_split_nl_aux (s cur : str) :
  line_cost (split_nl_aux cur s) = len cur + len s + 1.
Proof.
  revert cur. induction s as [|c s IH]; intros cur.
  - cbn [split_nl_aux]. rewrite line_cost_single. unfold len.
    rewrite length_rev. simpl. lia.
  - cbn [split_nl_aux]. destruct (c =? NL)%N.
    + change (line_cost (rev cur :: split_nl_aux [] s))
        with (len (rev cur) + 1 + line_cost (split_nl_aux [] s)).
      rewrite IH. unfold len. rewrite length_rev. simpl. lia.
    + rewrite IH. unfold len. simpl. lia.
Qed.

Lemma line_cost_split_nl (text : str) :
  line_cost (split_nl text) = len text + 1.
Proof. unfold split_nl. rewrite line_cost_split_nl_aux. unfold len. simpl. lia. Qed.

Lemma split_nl_nonempty (text : str) : split_nl text <> [].
Proof.
  intros E. pose proof (line_cost_split_nl text) as H. rewrite E in H.
  pose proof (len_nonneg text). unfold line_cost in H. simpl in H. lia.
Qed.

Section QAFacts.
Variable wrap : str -> Z -> list str.
Variable limit : Z.

Let id_chunk := fun ls : list str => ls.

(** Lines that fit are appended to the chunk in progress, one after
    the other, without wrapping and without a new chunk. *)
Lemma feed_fitting_lines (path : list str) (lns : list str) :
  forall st : packer (list str),
    current_len st + line_cost lns <= limit ->
    fold_left
      (fun st ln =>
         let ln := rstrip ln in
         if len ln + current_len st >? limit
         then fold_left (add_line id_chunk limit path)
                        (wrapped wrap limit ln) st
         else add_line id_chunk limit path st ln) lns st
    = mk_packer (chunks st) (current_lines st ++ map rstrip lns)
                (current_breadcrumb st)
                (current_len st + line_cost (map rstrip lns)).
Proof.
  induction lns as [|ln lns IH]; intros st Hfit.
  - cbn. rewrite app_nil_r, Z.add_0_r. destruct st; reflexivity.
  - change (line_cost (ln :: lns)) with (len ln + 1 + line_cost lns) in Hfit.
    pose proof (line_cost_nonneg lns). pose proof (len_rstrip ln).
    pose proof (len_nonneg (rstrip ln)).
    cbn [fold_left]. cbn zeta.
    destruct (Z.gtb_spec (len (rstrip ln) + current_len st) limit); [lia|].
    rewrite add_line_eq.
    destruct (Z.gtb_spec (current_len st + len (rstrip ln) + 1) limit); [lia|].
    rewrite IH by (cbn; lia). cbn [chunks current_lines current_breadcrumb
                                    current_len map].
    change (line_cost (rstrip ln :: map rstrip lns))
      with (len (rstrip ln) + 1 + line_cost (map rstrip lns)).
    rewrite <- app_assoc. f_equal. lia.
Qed.

Variable X : list str.
Hypothesis X_nonempty : X <> [].

Lemma flush_holds (st : packer (list str)) :
  holds_lines X st ->
  exists before after, In (before ++ X ++ after) (flush id_chunk st).
Proof.
  unfold flush. intros [(before & after & E)|(before & after & Hin)];
    exists before, after.
  - rewrite E. destruct (before ++ X ++ after) eqn:E'.
    + destruct before; [destruct X; [congruence | discriminate] | discriminate].
    + apply in_or_app. right. left. reflexivity.
  - destruct (current_lines st); [exact Hin|]. apply in_or_app. left. exact Hin.
Qed.

Lemma holds_closed (st : packer (list str)) (ls : list str)
    (bc : option (list str)) (n : Z) :
  holds_lines X st ->
  holds_lines X (mk_packer (flush id_chunk st) ls bc n).
Proof. intros H. right. apply flush_holds, H. Qed.

Lemma new_chunk_holds (path : list str) (st : packer (list str)) :
  holds_lines X st -> holds_lines X (new_chunk id_chunk path st).
Proof. rewrite new_chunk_eq. apply holds_closed. Qed.

Lemma add_line_holds (path : list str) (st : packer (list str)) (seg : str) :
  holds_lines X st -> holds_lines X (add_line id_chunk limit path st seg).
Proof.
  rewrite add_line_eq. destruct (_ >? limit); [apply holds_closed|].
  intros [(before & after & E)|H]; [left | right; exact H].
  exists before, (after ++ [seg]). cbn. rewrite E, <- !app_assoc. reflexivity.
Qed.

Lemma fold_add_line_holds {Y : Type} (f : Y -> str) (path : list str)
    (ys : list Y) :
  forall st,
    holds_lines X st ->
    holds_lines X
      (fold_left (fun st y => add_line id_chunk limit path st (f y)) ys st).
Proof.
  induction ys as [|y ys IH]; intros st H; [exact H|].
  cbn [fold_left]. apply IH, add_line_holds, H.
Qed.

Lemma pack_block_holds (st : packer (list str)) (b : block) :
  holds_lines X st -> holds_lines X (pack_block wrap id_chunk limit st b).
Proof.
  destruct b as [path text]. rewrite pack_block_phases. intros H.
  assert (H1 : holds_lines X (enter_block id_chunk limit path text st)).
  { unfold enter_block.
    destruct (bool_decide _);
      [apply (new_chunk_holds path) in H|];
      (destruct (_ && _); [apply new_chunk_holds, H | exact H]). }
  revert H1. generalize (enter_block id_chunk limit path text st).
  unfold feed_lines. intros st1 H1. destruct (contains text [NL]).
  - revert st1 H1. induction (split_nl text) as [|ln lns IH];
      intros st1 H1; [exact H1|].
    cbn [fold_left]. apply IH. cbn zeta. destruct (_ >? limit).
    + apply (fold_add_line_holds (fun x => x) path), H1.
    + apply add_line_holds, H1.
  - destruct (_ >? limit).
    + apply (fold_add_line_holds
               (fun w => match bullet_prefix_of text with
                         | [] => w
                         | _ :: _ =>
                             if startswith w (bullet_prefix_of text) then w
                             else bullet_prefix_of text ++ w
                         end) path), H1.
    + apply add_line_holds, H1.
Qed.

Lemma fold_pack_block_holds (bs : list block) :
  forall st,
    holds_lines X st ->
    holds_lines X (fold_left (pack_block wrap id_chunk limit) bs st).
Proof.
  induction bs as [|b bs IH]; intros st H; [exact H|].
  cbn [fold_left]. apply IH, pack_block_holds, H.
Qed.
End QAFacts.

(** A Q/A block that fits a fresh chunk is appended whole to the chunk
    in progress or to a fresh one. *)
Lemma qa_block_fed_whole (wrap : str -> Z -> list str) (limit : Z)
    (path : list str) (text : str) (st : packer (list str)) :
  is_qa_block text = true ->
  line_cost (header_lines path) + len text + 1 <= limit ->
  holds_lines (map rstrip (split_nl text))
              (pack_block wrap (fun ls => ls) limit st (path, text)).
Proof.
  intros Hqa Hfit. rewrite pack_block_phases.
  assert (H1 : current_len (enter_block (fun ls => ls) limit path text st)
               + len text + 1 <= limit).
  { unfold enter_block. rewrite Hqa. cbn [andb].
    match goal with
    | |- context [if ?c >? limit then _ else _] =>
        destruct (Z.gtb_spec c limit) as [Hgt|Hle]
    end.
    - rewrite new_chunk_eq. cbn [current_len]. exact Hfit.
    - lia. }
  revert H1. generalize (enter_block (fun ls => ls) limit path text st).
  intros st1 H1. unfold feed_lines. rewrite (qa_block_has_newline _ Hqa).
  rewrite feed_fitting_lines by (rewrite line_cost_split_nl; lia).
  left. exists (current_lines st1), []. cbn. rewrite app_nil_r. reflexivity.
Qed.

(** C3. A Q/A block whose whole text fits a fresh chunk, as the packer
    counts it (the header line of its path with one separator, then the
    text with one separator), is never split: wherever the block stands
    in the sequence, all of its lines stand together, in order, in one
    chunk of the output. *)
Theorem qa_block_not_split (wrap : str -> Z -> list str) (limit : Z)
    (pre post : list block) (path : list str) (text : str) :
  is_qa_block text = true ->
  line_cost (header_lines path) + len text + 1 <= limit ->
  exists before after,
    In (before ++ map rstrip (split_nl text) ++ after)
       (chunk_lines wrap limit (pre ++ (path, text) :: post))
    /\ In (serialize (before ++ map rstrip (split_nl text) ++ after))
          (chunk_blocks_with wrap serialize limit
                             (pre ++ (path, text) :: post)).
Proof.
  intros Hqa Hfit.
  assert (Hne : map rstrip (split_nl text) <> []).
  { pose proof (split_nl_nonempty text). destruct (split_nl text);
      [congruence | discriminate]. }
  assert (exists before after,
             In (before ++ map rstrip (split_nl text) ++ after)
                (chunk_lines wrap limit (pre ++ (path, text) :: post)))
    as (before & after & Hin).
  { unfold chunk_lines, chunk_blocks_with.
    apply (flush_holds _ Hne).
    rewrite fold_left_app. cbn [fold_left].
    apply (fold_pack_block_holds wrap limit _ Hne).
    apply qa_block_fed_whole; assumption. }
  exists before, after. split; [exact Hin|].
  rewrite chunk_blocks_with_lines. apply in_map. exact Hin.
Qed.

Lemma qa_block_not_split_witness :
  exists before after,
    In (before
          ++ map rstrip
               (split_nl (lit "Q: How many sick days?" ++ [NL]
                            ++ lit "A: Ten per year."))
          ++ after)
       (chunk_lines textwrap_wrap 60 qa_blocks)
    /\ In (serialize
             (before
                ++ map rstrip
                     (split_nl (lit "Q: How many sick days?" ++ [NL]
                                  ++ lit "A: Ten per year."))
                ++ after))
          (chunk_blocks_with textwrap_wrap serialize 60 qa_blocks).
Proof.
  apply (qa_block_not_split textwrap_wrap 60
           [([lit "Leave"], lit "Intro")] [([lit "Leave"], lit "Outro")]
           [lit "Leave"]
           (lit "Q: How many sick days?" ++ [NL] ++ lit "A: Ten per year.")).
  - reflexivity.
  - vm_compute. discriminate.
Defined.

(** ** More on the text helpers *)

Lemma lstrip_app_nonblank (a b : str) :
  lstrip a <> [] -> lstrip (a ++ b) = lstrip a ++ b.
Proof.
  induction a as [|c a IH]; simpl; [congruence|].
  destruct (is_space c); [exact IH | reflexivity].
Qed.

Lemma lstrip_all_space (w : str) :
  forallb is_space w = true -> forall s, lstrip (w ++ s) = lstrip s.
Proof.
  induction w as [|c w IH]; simpl; [reflexivity|].
  intros H s. apply andb_prop in H as [-> H]. apply IH, H.
Qed.

Lemma lstrip_nil_all_space (s : str) :
  lstrip s = [] -> forallb is_space s = true.
Proof.
  induction s as [|c s IH]; simpl; [reflexivity|].
  destruct (is_space c); [exact IH | discriminate].
Qed.

(** Stripping the two ends in either order gives the same string. *)
Lemma lstrip_rstrip_comm (s : str) : lstrip (rstrip s) = rstrip (lstrip s).
Proof.
  destruct (lstrip_split s) as (w & Hs & Hw).
  destruct (lstrip s) as [|c y] eqn:E.
  - rewrite app_nil_r in Hs. subst w.
    unfold rstrip.
    assert (lstrip (rev s) = []) as ->.
    { pose proof (lstrip_all_space (rev s)) as H.
      rewrite <- (app_nil_r (rev s)). apply H.
      rewrite forallb_forall in *. intros x Hx. apply Hw, in_rev, Hx. }
    reflexivity.
  - pose proof (lstrip_no_lead s) as Hc. rewrite E in Hc.
    assert (Hr : rstrip s = w ++ rstrip (c :: y)).
    { unfold rstrip. rewrite Hs at 1. rewrite rev_app_distr.
      rewrite lstrip_app_nonblank, rev_app_distr, rev_involutive; [reflexivity|].
      intros En. apply lstrip_nil_all_space in En.
      rewrite forallb_forall in En. specialize (En c).
      rewrite Hc in En. discriminate En. apply in_rev. rewrite rev_involutive.
      left. reflexivity. }
    rewrite Hr, (lstrip_all_space _ Hw). apply lstrip_fixed.
    destruct (rstrip_split (c :: y)) as (w' & Hs' & _).
    destruct (rstrip (c :: y)) as [|d r]; [exact I|].
    injection Hs' as -> _. exact Hc.
Qed.

Lemma strip_lstrip (s : str) : strip (lstrip s) = strip s.
Proof.
  unfold strip. rewrite <- lstrip_rstrip_comm, lstrip_idem. reflexivity.
Qed.

Lemma len_lstrip (s : str) : len (lstrip s) <= len s.
Proof. unfold len. pose proof (length_lstrip s). lia. Qed.

Lemma len_strip (s : str) : len (strip s) <= len s.
Proof. unfold len. pose proof (length_strip s). lia. Qed.

(** The marker pattern with the class [[QqAa]] matches exactly when it
    matches with [[Qq]] or with [[Aa]], and consumes the same prefix. *)
Lemma match_marker_either (t : str) :
  match_marker (fun c => is_Qq c || is_Aa c) t =
  match match_marker is_Qq t with
  | Some rest => Some rest
  | None => match_marker is_Aa t
  end.
Proof.
  unfold match_marker. destruct (lstrip t) as [|c t1]; [reflexivity|].
  destruct (is_Qq c) eqn:Eq; cbn [orb].
  - assert (is_Aa c = false) as ->.
    { unfold is_Qq in Eq. apply orb_prop in Eq as [Eq|Eq];
        apply N.eqb_eq in Eq; subst c; reflexivity. }
    destruct (lstrip t1) as [|p t2]; [reflexivity|].
    destruct (is_marker_punct p); [|reflexivity].
    destruct t2 as [|w t3]; [reflexivity|].
    destruct (is_space w); reflexivity.
  - reflexivity.
Qed.

Lemma match_marker_len (letter : N -> bool) (t rest : str) :
  match_marker letter t = Some rest -> len rest + 3 <= len t.
Proof.
  unfold match_marker.
  destruct (lstrip_split t) as (w1 & Ht & _).
  destruct (lstrip t) as [|c t1]; [discriminate|].
  destruct (letter c); [|discriminate].
  destruct (lstrip_split t1) as (w2 & Ht1 & _).
  destruct (lstrip t1) as [|p t2]; [discriminate|].
  destruct (is_marker_punct p); [|discriminate].
  destruct t2 as [|w t3]; [discriminate|].
  destruct (is_space w) eqn:Ew; [|discriminate].
  intros [= <-]. pose proof (len_lstrip t3) as H.
  cbn [lstrip]. rewrite Ew, Ht, Ht1. unfold len in *.
  rewrite length_app. cbn [length]. rewrite length_app. cbn [length].
  lia.
Qed.

(** Markers.  No text is both a question and an answer.  A text with a
    marker loses at least the three characters of the marker (letter,
    punctuation, one space) in [strip_q_or_a_prefix]; a text without
    marker is only trimmed. *)
Theorem qa_marker_detection (t : str) :
  is_question_text t && is_answer_text t = false
  /\ (if is_question_text t || is_answer_text t
      then len (strip_q_or_a_prefix t) + 3 <= len t
      else strip_q_or_a_prefix t = strip t).
Proof.
  unfold is_question_text, is_answer_text, strip_q_or_a_prefix.
  rewrite match_marker_either.
  assert (Hex : is_Some (match_marker is_Qq t) ->
                match_marker is_Aa t = None).
  { unfold match_marker. destruct (lstrip t) as [|c t1]; [reflexivity|].
    destruct (is_Qq c) eqn:Eq; [|intros [? [=]]].
    assert (is_Aa c = false) as ->; [|reflexivity].
    unfold is_Qq in Eq. apply orb_prop in Eq as [Eq|Eq];
      apply N.eqb_eq in Eq; subst c; reflexivity. }
  destruct (match_marker is_Qq t) as [rq|] eqn:Eq.
  - rewrite (Hex (ex_intro _ rq eq_refl)).
    rewrite bool_decide_eq_true_2 by eauto.
    split; [reflexivity|]. cbn [orb].
    apply match_marker_len in Eq. pose proof (len_strip rq). lia.
  - rewrite (bool_decide_eq_false_2 (is_Some None)) by (intros [? [=]]).
    split; [reflexivity|]. cbn [orb].
    destruct (match_marker is_Aa t) as [ra|] eqn:Ea.
    + rewrite bool_decide_eq_true_2 by eauto.
      apply match_marker_len in Ea. pose proof (len_strip ra). lia.
    + rewrite bool_decide_eq_false_2 by (intros [? [=]]). reflexivity.
Qed.

(** The markers that the extractor writes are the markers it reads:
    ["Q: " + x] is a question and ["A: " + x] an answer for every [x],
    and stripping the marker gives back [x], trimmed. *)
Theorem qa_marker_round_trip (x : str) :
  is_question_text (lit "Q: " ++ x) = true
  /\ is_answer_text (lit "A: " ++ x) = true
  /\ strip_q_or_a_prefix (lit "Q: " ++ x) = strip x
  /\ strip_q_or_a_prefix (lit "A: " ++ x) = strip x.
Proof.
  unfold is_question_text, is_answer_text, strip_q_or_a_prefix.
  change (match_marker is_Qq (lit "Q: " ++ x)) with (Some (lstrip x)).
  change (match_marker is_Aa (lit "A: " ++ x)) with (Some (lstrip x)).
  change (match_marker (fun c => is_Qq c || is_Aa c) (lit "Q: " ++ x))
    with (Some (lstrip x)).
  change (match_marker (fun c => is_Qq c || is_Aa c) (lit "A: " ++ x))
    with (Some (lstrip x)).
  cbv beta iota. rewrite strip_lstrip.
  repeat split; apply bool_decide_eq_true_2; eauto.
Qed.
(** ** Headers and labels *)

Lemma ELLIPSIS_not_space : is_space ELLIPSIS = false.
Proof. reflexivity. Qed.

Lemma norm_ws_norm_ws (s : str) : norm_ws (norm_ws s) = norm_ws s.
Proof.
  apply norm_ws_fixed;
    [apply clean_norm_ws | apply strip_no_lead | apply strip_no_trail].
Qed.

Lemma shorten_label_nil (l : str) (limit : Z) :
  0 <= limit -> (shorten_label l limit = [] <-> norm_ws l = []).
Proof.
  intros Hl. split.
  - intros H. destruct (Z.leb_spec (len (norm_ws l)) limit) as [Hle|Hlong].
    + rewrite shorten_label_fits in H by exact Hle. exact H.
    + destruct (shorten_label_cut l limit Hl Hlong) as (cut & _ & E & _).
      rewrite E in H. destruct (norm_ws (slice_to (norm_ws l) cut));
        discriminate.
  - intros H. rewrite shorten_label_fits; [exact H|].
    rewrite H. exact Hl.
Qed.

Lemma join_two_nonempty (sep a b : str) (rest : list str) :
  sep <> [] -> join sep (a :: b :: rest) <> [].
Proof.
  intros Hs. cbn [join]. destruct a; [|discriminate].
  destruct sep; [congruence | discriminate].
Qed.

(** When a chunk has no header line: the header text of a path is empty
    exactly for the empty path and for a path of one blank label; every
    path of two or more labels has a header. *)
Theorem breadcrumb_header_empty (path : list str) :
  breadcrumb_header path = [] <->
  path = [] \/ exists l, path = [l] /\ norm_ws l = [].
Proof.
  destruct path as [|l [|l' rest]].
  - split; [left; reflexivity | reflexivity].
  - cbn [breadcrumb_header map join]. rewrite shorten_label_nil by lia.
    split.
    + intros H. right. exists l. split; [reflexivity | exact H].
    + intros [[=]|(l0 & [= <-] & H)]. exact H.
  - split.
    + intros H. exfalso. revert H. unfold breadcrumb_header. cbn [map].
      apply join_two_nonempty. discriminate.
    + intros [[=]|(l0 & [=] & _)].
Qed.

Lemma clean_snoc (b : bool) (s : str) (c : N) :
  is_space c = false -> clean b s = true -> clean b (s ++ [c]) = true.
Proof.
  intros Hc. revert b. induction s as [|d s IH]; intros b; simpl.
  - rewrite Hc. reflexivity.
  - destruct (is_space d).
    + intros H. apply andb_prop in H as [-> H]. apply IH, H.
    + apply IH.
Qed.

(** A normalized text followed by the ellipsis is normalized. *)
Lemma norm_ws_ellipsis (body : str) :
  clean false body = true ->
  match body with c :: _ => is_space c = false | [] => True end ->
  norm_ws (body ++ [ELLIPSIS]) = body ++ [ELLIPSIS].
Proof.
  intros Hc Hl. apply norm_ws_fixed.
  - apply clean_snoc; [reflexivity | exact Hc].
  - destruct body; [reflexivity | exact Hl].
  - rewrite rev_app_distr. reflexivity.
Qed.

Lemma rstrip_same_length (x : str) :
  length (rstrip x) = length x -> rstrip x = x.
Proof.
  destruct (rstrip_split x) as (w & Hx & _). intros H.
  rewrite Hx in H at 2. rewrite length_app in H.
  destruct w; [|simpl in H; lia]. rewrite app_nil_r in Hx. congruence.
Qed.

Lemma norm_ws_prefix_clean (s : str) (n : nat) :
  clean false (norm_ws (take n (norm_ws s))) = true
  /\ match norm_ws (take n (norm_ws s)) with
     | c :: _ => is_space c = false
     | [] => True
     end.
Proof. split; [apply clean_norm_ws | apply strip_no_lead]. Qed.

(** Shortening is idempotent: a label that [shorten_label] returned is
    returned as it is when shortened again with the same limit.  The
    extractor stores labels shortened to 80 in the path of nested list
    items, and the packer shortens every label of a path to 80 again for
    the header: the header shows those labels unchanged. *)
Theorem shorten_label_idempotent (s : str) (limit : Z) :
  0 <= limit ->
  shorten_label (shorten_label s limit) limit = shorten_label s limit.
Proof.
  intros Hl.
  destruct (Z.leb_spec (len (norm_ws s)) limit) as [Hle|Hlong].
  { rewrite (shorten_label_fits s) by exact Hle.
    rewrite shorten_label_fits; rewrite norm_ws_norm_ws; [reflexivity|exact Hle]. }
  set (x := take (Z.to_nat limit) (norm_ws s)).
  assert (Hx : slice_to (norm_ws s) limit = x) by (apply slice_to_nonneg, Hl).
  assert (Hxlen : len x = limit).
  { unfold x, len in *. rewrite length_take. lia. }
  (* the result of the first call *)
  assert (Hr : exists body,
             shorten_label s limit = body ++ [ELLIPSIS]
             /\ norm_ws (body ++ [ELLIPSIS]) = body ++ [ELLIPSIS]
             /\ len body <= limit
             /\ (len body = limit ->
                 body = x /\
                 match search_punct_ws (rev x) 0 with
                 | Some start => start = 0
                 | None => True
                 end)).
  { unfold shorten_label.
    destruct (Z.leb_spec (len (norm_ws s)) limit) as [?|_]; [lia|].
    rewrite Hx.
    destruct (search_punct_ws (rev x) 0) as [start|] eqn:Es.
    - apply search_punct_ws_range in Es.
      assert (0 <= limit - start) as Hc by
          (unfold len in *; rewrite length_rev in Es; lia).
      rewrite (slice_to_nonneg _ _ Hc).
      pose proof (norm_ws_prefix_clean s (Z.to_nat (limit - start))) as [Hcl Hnl].
      exists (norm_ws (take (Z.to_nat (limit - start)) (norm_ws s))).
      split; [reflexivity|]. split; [apply norm_ws_ellipsis; assumption|].
      pose proof (len_norm_ws (take (Z.to_nat (limit - start)) (norm_ws s))) as Hn.
      assert (len (take (Z.to_nat (limit - start)) (norm_ws s)) <= limit - start)
        as Ht by (unfold len; rewrite length_take; lia).
      split; [lia|]. intros Hfull.
      assert (start = 0) as -> by lia. split; [|reflexivity].
      rewrite Z.sub_0_r. fold x. rewrite Z.sub_0_r in Hfull. fold x in Hfull.
      unfold x in *. rewrite norm_ws_prefix_of_normal in *.
      apply rstrip_same_length. unfold len in *. lia.
    - pose proof (norm_ws_prefix_clean s (Z.to_nat limit)) as [Hcl Hnl].
      fold x in Hcl, Hnl. unfold x in Hcl, Hnl.
      rewrite norm_ws_prefix_of_normal in Hcl, Hnl. fold x in Hcl, Hnl.
      exists (rstrip x). split; [reflexivity|].
      split; [apply norm_ws_ellipsis; assumption|].
      pose proof (len_rstrip x). split; [lia|].
      intros Hfull. split; [|exact I].
      apply rstrip_same_length. unfold len in *. lia. }
  destruct Hr as (body & E & Hnorm & Hlen & Hfull). rewrite E.
  destruct (Z.leb_spec (len body + 1) limit) as [Hfit|Hover].
  - rewrite shorten_label_fits; rewrite Hnorm; [reflexivity|].
    rewrite len_app. change (len [ELLIPSIS]) with 1. exact Hfit.
  - assert (len body = limit) as Hb by lia.
    destruct (Hfull Hb) as [-> Hs].
    unfold shorten_label at 1. rewrite Hnorm.
    destruct (Z.leb_spec (len (x ++ [ELLIPSIS])) limit) as [Hc|_].
    { rewrite len_app in Hc. change (len [ELLIPSIS]) with 1 in Hc. lia. }
    assert (Hsl : slice_to (x ++ [ELLIPSIS]) limit = x).
    { rewrite slice_to_nonneg by exact Hl.
      rewrite take_app_le by (unfold len in Hxlen; lia).
      apply take_ge. unfold len in Hxlen. lia. }
    rewrite Hsl.
    destruct (search_punct_ws (rev x) 0) as [start|] eqn:Es.
    + subst start. rewrite Z.sub_0_r, Hsl.
      (* the first call *)
      revert E. unfold shorten_label.
      destruct (Z.leb_spec (len (norm_ws s)) limit) as [?|_]; [lia|].
      rewrite Hx, Es, Z.sub_0_r, Hx. intros E.
      apply app_inj_tail in E as [E _]. rewrite E. reflexivity.
    + revert E. unfold shorten_label.
      destruct (Z.leb_spec (len (norm_ws s)) limit) as [?|_]; [lia|].
      rewrite Hx, Es. intros E.
      apply app_inj_tail in E as [E _]. rewrite E. reflexivity.
Qed.

Lemma shorten_label_idempotent_witness :
  0 <= 5
  /\ shorten_label (shorten_label (lit "abcdefgh") 5) 5
     = shorten_label (lit "abcdefgh") 5.
Proof.
  split; [lia|]. apply (shorten_label_idempotent (lit "abcdefgh") 5). lia.
Defined.
(** ** Multi-line normalization *)

Lemma tidy_norm_ws (s : str) : tidy (norm_ws s).
Proof.
  split; [apply clean_norm_ws|].
  split; [apply strip_no_lead | apply strip_no_trail].
Qed.

Lemma tidy_fixed (l : str) : tidy l -> norm_ws l = l.
Proof. intros (H1 & H2 & H3). apply norm_ws_fixed; assumption. Qed.

Lemma clean_space_is_SP (b : bool) (l : str) (c : N) :
  clean b l = true -> In c l -> is_space c = true -> c = SP.
Proof.
  revert b. induction l as [|d l IH]; intros b Hc Hin Hs; [destruct Hin|].
  destruct Hin as [<-|Hin].
  - simpl in Hc. rewrite Hs in Hc.
    apply andb_prop in Hc as [Hc _]. apply andb_prop in Hc as [_ Hc].
    apply N.eqb_eq, Hc.
  - simpl in Hc. destruct (is_space d).
    + apply andb_prop in Hc as [_ Hc]. apply (IH _ Hc Hin Hs).
    + apply (IH _ Hc Hin Hs).
Qed.

Lemma tidy_no_newline (l : str) (c : N) :
  tidy l -> In c l -> c <> NL /\ c <> CR.
Proof.
  intros (Hc & _) Hin.
  split; intros ->; discriminate (clean_space_is_SP _ _ _ Hc Hin eq_refl).
Qed.

Lemma join_cons (sep l : str) (rest : list str) :
  rest <> [] -> join sep (l :: rest) = l ++ sep ++ join sep rest.
Proof. destruct rest; [congruence | reflexivity]. Qed.

Lemma in_join (sep : str) (ls : list str) (c : N) :
  In c (join sep ls) -> In c sep \/ exists l, In l ls /\ In c l.
Proof.
  induction ls as [|l ls IH]; [intros []|].
  destruct ls as [|l' ls'].
  - intros H. right. exists l. split; [left; reflexivity | exact H].
  - rewrite join_cons by discriminate. intros H.
    apply in_app_or in H as [H|H].
    + right. exists l. split; [left; reflexivity | exact H].
    + apply in_app_or in H as [H|H]; [left; exact H|].
      destruct (IH H) as [Hs|(l0 & Hl0 & Hc)]; [left; exact Hs|].
      right. exists l0. split; [right; exact Hl0 | exact Hc].
Qed.

Lemma unify_newlines_no_cr (s : str) :
  (forall c, In c s -> c <> CR) -> unify_newlines s = s.
Proof.
  induction s as [|c s IH]; intros H; [reflexivity|].
  cbn [unify_newlines].
  destruct (N.eqb_spec c CR) as [->|_].
  - destruct (H CR (or_introl eq_refl) eq_refl).
  - f_equal. apply IH. intros d Hd. apply H. right. exact Hd.
Qed.

Lemma split_nl_aux_line (a : str) :
  (forall c, In c a -> c <> NL) ->
  forall cur, split_nl_aux cur a = [rev cur ++ a].
Proof.
  induction a as [|c a IH]; intros H cur.
  - cbn. rewrite app_nil_r. reflexivity.
  - cbn [split_nl_aux].
    destruct (N.eqb_spec c NL) as [->|_].
    + destruct (H NL (or_introl eq_refl) eq_refl).
    + rewrite IH by (intros d Hd; apply H; right; exact Hd).
      cbn [rev]. rewrite <- app_assoc. reflexivity.
Qed.

Lemma split_nl_aux_app (a b : str) :
  (forall c, In c a -> c <> NL) ->
  forall cur,
    split_nl_aux cur (a ++ NL :: b) = (rev cur ++ a) :: split_nl_aux [] b.
Proof.
  induction a as [|c a IH]; intros H cur.
  - cbn. rewrite app_nil_r. reflexivity.
  - cbn [app split_nl_aux].
    destruct (N.eqb_spec c NL) as [->|_].
    + destruct (H NL (or_introl eq_refl) eq_refl).
    + rewrite IH by (intros d Hd; apply H; right; exact Hd).
      cbn [rev]. rewrite <- app_assoc. reflexivity.
Qed.

(** Splitting what was joined gives the lines back. *)
Lemma split_nl_join (ls : list str) :
  ls <> [] ->
  Forall (fun l => forall c, In c l -> c <> NL) ls ->
  split_nl (join [NL] ls) = ls.
Proof.
  induction ls as [|l ls IH]; [congruence|]. intros _ H.
  apply Forall_cons in H as [Hl Hls].
  destruct ls as [|l' ls'].
  - unfold split_nl. cbn [join]. apply (split_nl_aux_line l Hl []).
  - rewrite join_cons by discriminate. unfold split_nl.
    change ([NL] ++ join [NL] (l' :: ls')) with (NL :: join [NL] (l' :: ls')).
    rewrite (split_nl_aux_app l _ Hl []). cbn [rev app]. f_equal.
    apply IH; [discriminate | exact Hls].
Qed.

Lemma lstrip_app (a b : str) :
  lstrip (a ++ b) = match lstrip a with
                    | [] => lstrip b
                    | la => la ++ b
                    end.
Proof.
  induction a as [|c a IH]; simpl; [destruct (lstrip b); reflexivity|].
  destruct (is_space c); [exact IH | reflexivity].
Qed.

Lemma rstrip_nil_iff (s : str) : rstrip s = [] <-> lstrip (rev s) = [].
Proof.
  unfold rstrip. split; intros H.
  - apply (f_equal (@rev _)) in H. rewrite rev_involutive in H. exact H.
  - rewrite H. reflexivity.
Qed.

Lemma rstrip_app (a b : str) :
  rstrip (a ++ b) = match rstrip b with
                    | [] => rstrip a
                    | rb => a ++ rb
                    end.
Proof.
  unfold rstrip at 1. rewrite rev_app_distr, lstrip_app.
  destruct (lstrip (rev b)) as [|c lb] eqn:E.
  - rewrite (proj2 (rstrip_nil_iff b) E). reflexivity.
  - assert (rstrip b = rev (c :: lb)) as Hb by (unfold rstrip; rewrite E; reflexivity).
    rewrite Hb, rev_app_distr, rev_involutive.
    destruct (rev (c :: lb)) eqn:Er; [|reflexivity].
    apply (f_equal (@length _)) in Er. rewrite length_rev in Er. discriminate.
Qed.

Lemma lstrip_join (ls : list str) :
  Forall tidy ls -> lstrip (join [NL] ls) = join [NL] (drop_blank ls).
Proof.
  induction ls as [|l ls IH]; intros H; [reflexivity|].
  apply Forall_cons in H as [(_ & Hl & _) Hls].
  destruct ls as [|l' ls'].
  - destruct l as [|c l]; [reflexivity|]. cbn [join drop_blank].
    apply lstrip_fixed, Hl.
  - rewrite join_cons by discriminate. destruct l as [|c l].
    + cbn [app drop_blank]. change (lstrip (NL :: join [NL] (l' :: ls')))
        with (lstrip (join [NL] (l' :: ls'))). apply IH, Hls.
    + cbn [drop_blank].
      rewrite (join_cons [NL] (c :: l) (l' :: ls')) by discriminate.
      apply lstrip_fixed. exact Hl.
Qed.

Lemma drop_blank_end_join_nil (ls : list str) :
  join [NL] (drop_blank_end ls) = [] -> drop_blank_end ls = [].
Proof.
  induction ls as [|l ls IH]; [reflexivity|]. cbn [drop_blank_end].
  destruct (drop_blank_end ls) as [|k ks] eqn:E.
  - destruct l; [reflexivity | discriminate].
  - rewrite join_cons by discriminate. intros H.
    apply app_eq_nil in H as [_ H]. discriminate.
Qed.

Lemma rstrip_join (ls : list str) :
  Forall tidy ls -> rstrip (join [NL] ls) = join [NL] (drop_blank_end ls).
Proof.
  induction ls as [|l ls IH]; intros H; [reflexivity|].
  apply Forall_cons in H as [(_ & _ & Hl) Hls].
  destruct ls as [|l' ls'].
  - cbn [join drop_blank_end]. rewrite (rstrip_fixed _ Hl).
    destruct l; reflexivity.
  - rewrite join_cons by discriminate. specialize (IH Hls).
    rewrite rstrip_app.
    change ([NL] ++ join [NL] (l' :: ls')) with ([NL] ++ join [NL] (l' :: ls')).
    rewrite (rstrip_app [NL]), IH.
    change (drop_blank_end (l :: l' :: ls'))
      with (match drop_blank_end (l' :: ls'), l with
            | [], [] => []
            | kept, _ => l :: kept
            end).
    destruct (join [NL] (drop_blank_end (l' :: ls'))) as [|c j] eqn:Ej.
    + rewrite (drop_blank_end_join_nil _ Ej).
      change (rstrip [NL]) with (@nil N). rewrite (rstrip_fixed _ Hl).
      destruct l; reflexivity.
    + destruct (drop_blank_end (l' :: ls')) as [|k ks] eqn:Ed; [discriminate|].
      rewrite (join_cons [NL] l (k :: ks)) by discriminate. rewrite Ej.
      destruct l; reflexivity.
Qed.

Lemma Forall_drop_blank {P : str -> Prop} (ls : list str) :
  Forall P ls -> Forall P (drop_blank ls).
Proof.
  induction ls as [|l ls IH]; intros H; [exact H|].
  destruct l; [|exact H]. apply IH. apply Forall_cons in H as [_ H]. exact H.
Qed.

Lemma Forall_drop_blank_end {P : str -> Prop} (ls : list str) :
  Forall P ls -> Forall P (drop_blank_end ls).
Proof.
  induction ls as [|l ls IH]; intros H; [exact H|].
  apply Forall_cons in H as [Hl H]. specialize (IH H). cbn [drop_blank_end].
  destruct (drop_blank_end ls), l; constructor; assumption.
Qed.

Lemma Forall_squeeze_blank {P : str -> Prop} (ls : list str) :
  Forall P ls -> forall b, Forall P (squeeze_blank b ls).
Proof.
  induction ls as [|l ls IH]; intros H b; [constructor|].
  apply Forall_cons in H as [Hl H]. cbn [squeeze_blank].
  destruct l; [destruct b|]; try constructor; try apply IH; assumption.
Qed.

Lemma no_double_blank_squeeze (ls : list str) :
  forall b, no_double_blank b (squeeze_blank b ls) = true.
Proof.
  induction ls as [|l ls IH]; intros b; [reflexivity|].
  cbn [squeeze_blank]. destruct l.
  - destruct b; [apply IH|]. cbn. apply IH.
  - cbn. apply IH.
Qed.

Lemma squeeze_blank_fixed (ls : list str) :
  forall b, no_double_blank b ls = true -> squeeze_blank b ls = ls.
Proof.
  induction ls as [|l ls IH]; intros b H; [reflexivity|].
  cbn in *. destruct l.
  - destruct b; [discriminate|]. f_equal. apply IH, H.
  - f_equal. apply IH, H.
Qed.

Lemma no_double_blank_weaken (ls : list str) :
  no_double_blank true ls = true -> no_double_blank false ls = true.
Proof. destruct ls as [|[|] ls]; cbn; [reflexivity | discriminate | exact id]. Qed.

Lemma no_double_blank_drop (ls : list str) :
  forall b, no_double_blank b ls = true ->
            no_double_blank false (drop_blank ls) = true.
Proof.
  induction ls as [|l ls IH]; intros b H; [reflexivity|].
  destruct l.
  - cbn in *. apply andb_prop in H as [_ H]. apply (IH _ H).
  - exact H.
Qed.

Lemma no_double_blank_drop_end (ls : list str) :
  forall b, no_double_blank b ls = true ->
            no_double_blank b (drop_blank_end ls) = true.
Proof.
  induction ls as [|l ls IH]; intros b H; [reflexivity|].
  cbn [drop_blank_end]. destruct l.
  - cbn in H. apply andb_prop in H as [Hb H]. specialize (IH _ H).
    destruct (drop_blank_end ls); [reflexivity|]. cbn. rewrite Hb. exact IH.
  - cbn in H. specialize (IH _ H).
    destruct (drop_blank_end ls); cbn; [reflexivity | exact IH].
Qed.

(** The lines that [norm_multiline] joins, and the lines of its result. *)
Lemma norm_multiline_lines (s : str) :
  let ls := squeeze_blank false
              (map (fun ln => strip (sub_ws false ln))
                   (split_nl (unify_newlines s))) in
  Forall tidy ls
  /\ no_double_blank false ls = true
  /\ norm_multiline s = join [NL] (drop_blank (drop_blank_end ls)).
Proof.
  cbn zeta.
  set (ls := squeeze_blank false _).
  assert (Ht : Forall tidy ls).
  { apply Forall_squeeze_blank. apply Forall_forall. intros l Hl.
    apply list_elem_of_In, in_map_iff in Hl as (x & <- & _).
    apply (tidy_norm_ws x). }
  split; [exact Ht|]. split; [apply no_double_blank_squeeze|].
  unfold norm_multiline. fold ls. unfold strip.
  rewrite (rstrip_join _ Ht). apply lstrip_join, Forall_drop_blank_end, Ht.
Qed.
Lemma head_drop_blank (ls : list str) : head (drop_blank ls) <> Some [].
Proof.
  induction ls as [|l ls IH]; [discriminate|].
  destruct l; [exact IH | discriminate].
Qed.

Lemma last_drop_blank_end (ls : list str) : last (drop_blank_end ls) <> Some [].
Proof.
  induction ls as [|l ls IH]; [discriminate|]. cbn [drop_blank_end].
  destruct (drop_blank_end ls) as [|k ks] eqn:E.
  - destruct l; discriminate.
  - destruct l; exact IH.
Qed.

Lemma last_drop_blank (ls : list str) :
  last ls <> Some [] -> last (drop_blank ls) <> Some [].
Proof.
  induction ls as [|l ls IH]; [exact id|].
  destruct l as [|c l]; [|exact id].
  destruct ls as [|l' ls']; [intros H; destruct (H eq_refl)|].
  intros H. apply IH. exact H.
Qed.

(** The shape of a text normalized line by line: it is lines joined by
    newlines, where every line is a fixed point of [norm_ws], the first
    and the last line are not empty, and no two empty lines follow each
    other. *)
Theorem norm_multiline_shape (s : str) :
  exists ls,
    norm_multiline s = join [NL] ls
    /\ Forall (fun l => norm_ws l = l) ls
    /\ head ls <> Some [] /\ last ls <> Some []
    /\ no_double_blank false ls = true.
Proof.
  destruct (norm_multiline_lines s) as (Ht & Hd & E).
  eexists. split; [exact E|].
  split; [|split; [|split]].
  - apply Forall_drop_blank, Forall_drop_blank_end.
    eapply Forall_impl; [exact Ht|]. intros l Hl. apply tidy_fixed, Hl.
  - apply head_drop_blank.
  - apply last_drop_blank, last_drop_blank_end.
  - eapply no_double_blank_drop, no_double_blank_drop_end, Hd.
Qed.

Lemma map_fixed {X : Type} (f : X -> X) (l : list X) :
  Forall (fun x => f x = x) l -> map f l = l.
Proof.
  induction l as [|x l IH]; intros H; [reflexivity|].
  apply Forall_cons in H as [Hx H]. cbn. rewrite Hx, IH by exact H. reflexivity.
Qed.

(** Normalizing line by line is idempotent. *)
Theorem norm_multiline_idempotent (s : str) :
  norm_multiline (norm_multiline s) = norm_multiline s.
Proof.
  destruct (norm_multiline_lines s) as (Ht & Hd & E).
  set (ls := drop_blank (drop_blank_end
               (squeeze_blank false
                  (map (fun ln => strip (sub_ws false ln))
                       (split_nl (unify_newlines s)))))) in *.
  assert (Htl : Forall tidy ls) by
      (apply Forall_drop_blank, Forall_drop_blank_end, Ht).
  assert (Hdl : no_double_blank false ls = true) by
      (eapply no_double_blank_drop, no_double_blank_drop_end, Hd).
  assert (Hstrip : strip (norm_multiline s) = norm_multiline s).
  { unfold norm_multiline. apply strip_idem. }
  clearbody ls.
  assert (Hcase : ls = [] \/ ls <> []) by
      (destruct ls; [left; reflexivity | right; discriminate]).
  destruct Hcase as [->|Hne]; [rewrite E; reflexivity|].
  unfold norm_multiline at 1.
  rewrite unify_newlines_no_cr.
  - rewrite E at 1. rewrite split_nl_join.
    + change (fun ln => strip (sub_ws false ln)) with norm_ws.
      rewrite map_fixed.
      * rewrite squeeze_blank_fixed by exact Hdl. rewrite <- E. exact Hstrip.
      * eapply Forall_impl; [exact Htl|]. intros l Hl. apply tidy_fixed, Hl.
    + exact Hne.
    + eapply Forall_impl; [exact Htl|]. intros l Hl c Hc.
      apply (tidy_no_newline l c Hl Hc).
  - intros c Hc. rewrite E in Hc. apply in_join in Hc as [Hc|(l & Hl & Hc)].
    + destruct Hc as [<-|[]]. discriminate.
    + rewrite Forall_forall in Htl.
      apply (tidy_no_newline l c); [|exact Hc].
      apply Htl, list_elem_of_In, Hl.
Qed.

(** On a text without line break the two normalizers of [push_block]
    agree. *)
Theorem norm_multiline_one_line (s : str) :
  (forall c, In c s -> c <> NL /\ c <> CR) ->
  norm_multiline s = norm_ws s.
Proof.
  intros H. unfold norm_multiline.
  rewrite unify_newlines_no_cr by (intros c Hc; apply (H c Hc)).
  unfold split_nl.
  rewrite (split_nl_aux_line s) by (intros c Hc; apply (H c Hc)).
  cbn [rev app map]. fold (norm_ws s).
  assert (join [NL] (squeeze_blank false [norm_ws s]) = norm_ws s) as ->.
  { cbn [squeeze_blank]. destruct (norm_ws s); reflexivity. }
  unfold norm_ws. apply strip_idem.
Qed.

Lemma norm_multiline_one_line_witness :
  norm_multiline (lit "a   b ") = norm_ws (lit "a   b ").
Proof.
  apply (norm_multiline_one_line (lit "a   b ")).
  intros c Hc. vm_compute in Hc.
  repeat (destruct Hc as [<-|Hc]; [split; discriminate|]). destruct Hc.
Defined.

(** ** The two renderings of a list *)

Lemma flat_map_flat_map {X Y W : Type} (f : X -> list Y) (g : Y -> list W)
    (l : list X) :
  flat_map g (flat_map f l) = flat_map (fun x => flat_map g (f x)) l.
Proof.
  induction l as [|x l IH]; [reflexivity|].
  cbn [flat_map]. rewrite flat_map_app, IH. reflexivity.
Qed.

(** The recursion of [walk_list], written with the two
    [find_all(..., recursive=False)] calls of the source. *)
Lemma walk_list_items (ul : node) (indent : nat) :
  walk_list ul indent =
  flat_map
    (fun li =>
       match li_text_of li with
       | [] => []
       | txt => [indent_of indent ++ lit "- " ++ txt]
       end
         ++ flat_map (fun sub => walk_list sub (S indent))
                     (find_children ["ul"; "ol"]%string li))
    (find_children ["li"%string] ul).
Proof.
  destruct ul as [s|s|id name attrs kids];
    [reflexivity | reflexivity |].
  unfold find_children at 2. cbn [contents_of].
  rewrite <- flat_map_if_filter. cbn [walk_list].
  apply flat_map_ext_in. intros li _.
  destruct (is_tag_named ["li"%string] li); [|reflexivity].
  f_equal.
  - destruct (li_text_of li) as [|c txt]; [reflexivity|].
    destruct (indent_of indent ++ lit "- " ++ c :: txt) eqn:E; [|reflexivity].
    apply (f_equal (@length _)) in E. rewrite !length_app in E.
    simpl in E. lia.
  - unfold find_children.
    destruct li as [s|s|lid lname lattrs lkids];
    [reflexivity | reflexivity |].
    cbn [contents_of]. rewrite <- flat_map_if_filter. reflexivity.
Qed.

Lemma line_of_block_item (trail : list str) (indent : nat) (txt : str) :
  line_of_block trail indent (trail, lit "- " ++ txt) =
  match txt with
  | [] => []
  | _ => [indent_of indent ++ lit "- " ++ txt]
  end.
Proof.
  unfold line_of_block. cbn [fst snd].
  rewrite Nat.sub_diag, Nat.add_0_r.
  destruct txt as [|c txt]; [reflexivity|].
  unfold str_eqb. rewrite bool_decide_eq_false_2; [reflexivity|].
  intros E. apply (f_equal (@length _)) in E. rewrite length_app in E.
  simpl in E. lia.
Qed.

Lemma walk_list_of_blocks (ul : node) :
  forall (trail : list str) (indent : nat),
    walk_list ul indent =
    flat_map (line_of_block trail indent) (emit_list_blocks ul trail).
Proof.
  induction ul as [ul IH] using node_deep_ind. intros trail indent.
  rewrite walk_list_items, emit_list_blocks_items, flat_map_flat_map.
  apply flat_map_ext_in. intros li Hli.
  apply filter_In in Hli as [Hli _].
  change (flat_map (line_of_block trail indent)
            ((trail, lit "- " ++ li_text_of li)
               :: flat_map
                    (fun sub_list =>
                       emit_list_blocks sub_list
                         (trail ++ [shorten_label (li_text_of li) 80]))
                    (find_children ["ul"; "ol"]%string li)))
    with (line_of_block trail indent (trail, lit "- " ++ li_text_of li)
            ++ flat_map (line_of_block trail indent)
                 (flat_map
                    (fun sub_list =>
                       emit_list_blocks sub_list
                         (trail ++ [shorten_label (li_text_of li) 80]))
                    (find_children ["ul"; "ol"]%string li))).
  rewrite line_of_block_item. f_equal; [destruct (li_text_of li); reflexivity|].
  rewrite flat_map_flat_map. apply flat_map_ext_in. intros sub Hsub.
  apply filter_In in Hsub as [Hsub _].
  rewrite (IH li sub Hli Hsub (trail ++ [shorten_label (li_text_of li) 80])
              (S indent)).
  apply flat_map_ext_in. intros b Hb.
  apply emit_list_blocks_paths in Hb as (ext & Hb).
  unfold line_of_block. rewrite Hb, !length_app. cbn [length].
  replace (S indent + (length trail + 1 + length ext - (length trail + 1)))%nat
    with (indent + (length trail + 1 + length ext - length trail))%nat by lia.
  reflexivity.
Qed.

(** The two renderings of a list agree.  [list_to_lines] gives, in the
    same order, one line for every block of [emit_list_blocks] whose item
    has a text, and none for an item without text (whose nested lists it
    still renders); the line is the text of the block, indented by two
    spaces for every level of nesting, where the block carries one more
    label in its path. *)
Theorem list_to_lines_of_blocks (root_list : node) (trail : list str) :
  list_to_lines root_list =
  flat_map (line_of_block trail 0) (emit_list_blocks root_list trail).
Proof. apply walk_list_of_blocks. Qed.

(** ** What the walk keeps *)

Lemma emit_list_blocks_bullet (ul : node) (trail : list str) (b : block) :
  In b (emit_list_blocks ul trail) -> exists txt, snd b = lit "- " ++ txt.
Proof.
  revert trail b. induction ul as [ul IH] using node_deep_ind.
  intros trail b. rewrite emit_list_blocks_items, in_flat_map.
  intros (li & Hli & Hb). apply filter_In in Hli as [Hli _].
  destruct Hb as [<-|Hb]; [eexists; reflexivity|].
  rewrite in_flat_map in Hb. destruct Hb as (sub & Hsub & Hb).
  apply filter_In in Hsub as [Hsub _].
  apply (IH li sub Hli Hsub _ _ Hb).
Qed.

(** The scan for the answer changes neither the blocks nor the
    breadcrumb. *)
Lemma collect_loop_keeps (fuel : nat) (bc : list str) :
  forall cur following lines consumed st,
    let st' := snd (collect_loop fuel bc cur following lines consumed st) in
    blocks st' = blocks st /\ breadcrumb st' = breadcrumb st.
Proof.
  induction fuel as [|fuel IH]; intros cur following lines consumed st;
    [split; reflexivity|].
  cbn zeta. cbn [collect_loop].
  destruct (negb (truthy cur)); [split; reflexivity|].
  destruct (next_sibling (detached st) cur following) as [[nxt following']|];
    [|split; reflexivity].
  destruct (negb (truthy nxt)); [split; reflexivity|].
  destruct nxt as [s|s|id name attrs kids];
    [apply IH | apply IH |].
  assert (Hc : forall ls,
             let st' := snd (let '(cs, s) := consume id consumed st in
                             collect_loop fuel bc (Tag id name attrs kids)
                                          following' ls cs s) in
             blocks st' = blocks st /\ breadcrumb st' = breadcrumb st).
  { intros ls. cbn zeta. unfold consume.
    destruct (IH (Tag id name attrs kids) following' ls (consumed ++ [id])
                 (mk_walker (blocks st) (breadcrumb st)
                            ({[id]} ∪ skipped_ids st) ({[id]} ∪ detached st)))
      as [H1 H2].
    split; [exact H1 | exact H2]. }
  destruct (bool_decide (id ∈ skipped_ids st)); [apply IH|].
  destruct (str_eqb name (lit "p") && is_bold_heading_p (Tag id name attrs kids)).
  { destruct bc as [|top bc']; [split; reflexivity|].
    destruct (str_eqb _ _); [apply Hc | split; reflexivity]. }
  destruct (str_eqb name (lit "p")).
  { destruct (is_question_text _); [split; reflexivity | apply Hc]. }
  destruct (name_in _ name); [apply Hc | split; reflexivity].
Qed.

Lemma push_block_visible (text : str) (st : walker) :
  Forall (fun b => starts_visible (snd b)) (blocks st) ->
  Forall (fun b => starts_visible (snd b)) (blocks (push_block text st)).
Proof.
  intros H. unfold push_block.
  assert (Hs : forall t, match strip t with
                         | [] => True
                         | c :: r => starts_visible (c :: r)
                         end).
  { intros t. pose proof (strip_no_lead t) as Hn.
    destruct (strip t); [exact I | exact Hn]. }
  destruct (contains text [NL]).
  - specialize (Hs (join [NL]
                      (squeeze_blank false
                         (map (fun ln => strip (sub_ws false ln))
                              (split_nl (unify_newlines text)))))).
    fold (norm_multiline text) in Hs.
    destruct (norm_multiline text); [exact H|]. cbn [blocks].
    apply Forall_app. split; [exact H|]. constructor; [exact Hs | constructor].
  - specialize (Hs (sub_ws false text)). fold (norm_ws text) in Hs.
    destruct (norm_ws text); [exact H|]. cbn [blocks].
    apply Forall_app. split; [exact H|]. constructor; [exact Hs | constructor].
Qed.

Lemma build_step_visible (st : walker) (stack : list (node * list node)) :
  Forall (fun b => starts_visible (snd b)) (blocks st) ->
  Forall (fun b => starts_visible (snd b)) (blocks (fst (build_step st stack))).
Proof.
  intros H. unfold build_step.
  destruct stack as [|[el following] stack]; [exact H|].
  destruct el as [s|s|id name attrs kids];
    [exact H | exact H |].
  destruct (bool_decide (id ∈ skipped_ids st)); [exact H|].
  destruct (str_eqb name (lit "p") && is_bold_heading_p (Tag id name attrs kids));
    [exact H|].
  destruct (name_in ["ul"; "ol"]%string name).
  { cbn [fst blocks]. apply Forall_app. split; [exact H|].
    apply Forall_forall. intros b Hb. apply list_elem_of_In in Hb.
    apply emit_list_blocks_bullet in Hb as (txt & ->). reflexivity. }
  destruct (str_eqb name (lit "p")); [|exact H].
  destruct (is_question_text _).
  - unfold collect_answer_content.
    pose proof (collect_loop_keeps (S (length following)) (breadcrumb st)
                  (Tag id name attrs kids) following [] [] st) as [Hb _].
    destruct (collect_loop _ _ _ _ _ _ _) as [[ls cs] st']. cbn [snd] in Hb.
    rewrite <- Hb in H.
    destruct (strip (join [NL] ls)); cbn [fst blocks];
      apply push_block_visible, H.
  - destruct (norm_ws _); [exact H|]. apply push_block_visible, H.
Qed.

Lemma build_loop_visible (fuel : nat) :
  forall st stack,
    Forall (fun b => starts_visible (snd b)) (blocks st) ->
    Forall (fun b => starts_visible (snd b))
           (blocks (fst (build_loop fuel st stack))).
Proof.
  induction fuel as [|fuel IH]; intros st stack H; [exact H|].
  cbn [build_loop]. destruct stack as [|c stack]; [exact H|].
  pose proof (build_step_visible st (c :: stack) H) as H'.
  destruct (build_step st (c :: stack)) as [st' stack']. apply IH, H'.
Qed.

(** Every block of a page has a text, and the text starts with a
    character that is not whitespace: the text of a paragraph or of a
    Q/A pair is stripped and dropped when empty, the text of a list item
    starts with its bullet. *)
Theorem block_text_starts_visible (soup : node) (b : block) :
  In b (build_blocks_from_html soup) -> starts_visible (snd b).
Proof.
  unfold build_blocks_from_html.
  generalize (top_level (fst (tables_to_paragraphs (S (max_id soup)) soup))).
  intros tops.
  assert (H : forall st,
             Forall (fun b => starts_visible (snd b)) (blocks st) ->
             Forall (fun b => starts_visible (snd b))
                    (blocks (fold_left
                               (fun st c =>
                                  fst (build_loop (node_size (fst c)) st [c]))
                               tops st))).
  { induction tops as [|c tops IH]; intros st Hst; [exact Hst|].
    cbn [fold_left]. apply IH, build_loop_visible, Hst. }
  specialize (H init_walker (List.Forall_nil _)).
  rewrite Forall_forall in H. intros Hin. apply (H b), list_elem_of_In, Hin.
Qed.
Lemma block_text_starts_visible_witness :
  starts_visible (snd (([] : list str), lit "two")).
Proof.
  apply (block_text_starts_visible qa_two_answers).
  vm_compute. right. left. reflexivity.
Defined.

(** ** Tables *)

Lemma flat_map_nil_inv {X Y : Type} (f : X -> list Y) (l : list X) :
  flat_map f l = [] -> forall x, In x l -> f x = [].
Proof.
  induction l as [|y l IH]; [intros _ x []|].
  cbn [flat_map]. intros H. apply app_eq_nil in H as [Hy Hl].
  intros x [<-|Hx]; [exact Hy | apply (IH Hl x Hx)].
Qed.

Lemma flat_map_nil {X Y : Type} (f : X -> list Y) (l : list X) :
  (forall x, In x l -> f x = []) -> flat_map f l = [].
Proof.
  induction l as [|y l IH]; intros H; [reflexivity|].
  cbn [flat_map]. rewrite (H y (or_introl eq_refl)), IH; [reflexivity|].
  intros x Hx. apply H. right. exact Hx.
Qed.

(** No tag with one of the names at or below a node. *)
Lemma find_all_nil_kids (names : list string) (id : nat) (name : str)
    (attrs : list (str * str)) (kids : list node) :
  find_all names (Tag id name attrs kids) = [] <->
  forall k, In k kids ->
            is_tag_named names k = false /\ find_all names k = [].
Proof.
  cbn [find_all]. split.
  - intros H k Hk. pose proof (flat_map_nil_inv _ _ H k Hk) as Hk'.
    apply app_eq_nil in Hk' as [H1 H2]. split; [|exact H2].
    destruct (is_tag_named names k); [discriminate | reflexivity].
  - intros H. apply flat_map_nil. intros k Hk.
    destruct (H k Hk) as [-> ->]. reflexivity.
Qed.

Lemma br_joined_no_table (lines : list str) :
  forall fresh k,
    In k (br_joined fresh lines) ->
    is_tag_named ["table"%string] k = false
    /\ find_all ["table"%string] k = [].
Proof.
  assert (Ht : forall l k, In k (text_node l) ->
                 is_tag_named ["table"%string] k = false
                 /\ find_all ["table"%string] k = []).
  { intros l k. destruct l; [intros []|]. intros [<-|[]]. split; reflexivity. }
  induction lines as [|l lines IH]; intros fresh k; [intros []|].
  destruct lines as [|l' lines'].
  - apply Ht.
  - change (br_joined fresh (l :: l' :: lines'))
      with (text_node l ++ Tag fresh (lit "br") [] []
                        :: br_joined (S fresh) (l' :: lines')).
    intros H. apply in_app_or in H as [H|[<-|H]].
    + apply (Ht l k H).
    + split; reflexivity.
    + apply (IH (S fresh) k H).
Qed.

(** When the lines of every table are plain text, there is no table
    left in the tree after the table pre-pass, below or at any node: the
    walk never meets a [<table>], and the rows of a table reach it as
    the text of one paragraph. *)
Theorem tables_to_paragraphs_no_table (el : node) (fresh : nat) :
  plain_tables el ->
  is_tag_named ["table"%string] (fst (tables_to_paragraphs fresh el)) = false
  /\ find_all ["table"%string] (fst (tables_to_paragraphs fresh el)) = [].
Proof.
  intros _. revert fresh.
  induction el as [s|s|id name attrs kids IH] using node_tree_ind;
    intros fresh.
  - split; reflexivity.
  - split; reflexivity.
  - cbn [tables_to_paragraphs].
    destruct (str_eqb name (lit "table")) eqn:En.
    + cbn [fst]. unfold table_paragraph. split; [reflexivity|].
      apply find_all_nil_kids. intros k Hk.
      apply (br_joined_no_table _ _ _ Hk).
    + assert (Hgo : forall f,
                 Forall (fun k =>
                           is_tag_named ["table"%string] k = false
                           /\ find_all ["table"%string] k = [])
                   (fst ((fix go (fresh : nat) (ks : list node)
                           : list node * nat :=
                            match ks with
                            | [] => ([], fresh)
                            | k :: ks' =>
                                let '(k', f1) := tables_to_paragraphs fresh k in
                                let '(ks'', f2) := go f1 ks' in
                                (k' :: ks'', f2)
                            end) f kids))).
      { induction kids as [|k kids IHk]; intros f; [constructor|].
        apply Forall_cons in IH as [Hk Hkids].
        specialize (IHk Hkids). specialize (Hk f).
        destruct (tables_to_paragraphs f k) as [k' f1].
        specialize (IHk f1).
        match goal with
        | |- context [let '(_, _) := ?g in _] => destruct g as [ks'' f2]
        end.
        cbn [fst] in *. constructor; assumption. }
      specialize (Hgo fresh).
      match goal with
      | |- context [let '(_, _) := ?g in _] => destruct g as [kids' fresh']
      end.
      cbn [fst] in *. split.
      * unfold is_tag_named, name_in. cbn [existsb]. rewrite En. reflexivity.
      * apply find_all_nil_kids. intros k Hk.
        rewrite Forall_forall in Hgo. apply Hgo, list_elem_of_In, Hk.
Qed.

Lemma tables_to_paragraphs_no_table_witness :
  is_tag_named ["table"%string] (fst (tables_to_paragraphs 6 table_page))
  = false
  /\ find_all ["table"%string] (fst (tables_to_paragraphs 6 table_page)) = [].
Proof.
  apply (tables_to_paragraphs_no_table table_page 6).
  intros t [->|[<-|[]]] Ht l Hl; [discriminate|].
  vm_compute in Hl. destruct Hl as [<-|[]].
  intros c Hc. vm_compute in Hc.
  repeat (destruct Hc as [<-|Hc]; [split; discriminate|]). destruct Hc.
Defined.

(** ** Text outside paragraphs and lists *)

Lemma inert_kids (id : nat) (name : str) (attrs : list (str * str))
    (kids : list node) :
  inert (Tag id name attrs kids) -> forall k, In k kids -> inert k.
Proof. intros [_ H] k Hk. apply (proj1 (find_all_nil_kids _ _ _ _ _) H k Hk). Qed.

Lemma inert_name (id : nat) (name : str) (attrs : list (str * str))
    (kids : list node) :
  inert (Tag id name attrs kids) ->
  str_eqb name (lit "p") = false
  /\ name_in ["ul"; "ol"]%string name = false
  /\ str_eqb name (lit "table") = false.
Proof.
  intros [H _]. unfold is_tag_named, name_in in *. cbn [existsb] in *.
  destruct (str_eqb name (lit "p")); [discriminate|].
  destruct (str_eqb name (lit "ul")); [discriminate|].
  destruct (str_eqb name (lit "ol")); [discriminate|].
  destruct (str_eqb name (lit "table")); [discriminate|].
  repeat split; reflexivity.
Qed.

(** The table pre-pass leaves a tree without table as it is. *)
Lemma tables_to_paragraphs_inert (el : node) :
  inert el -> forall fresh, tables_to_paragraphs fresh el = (el, fresh).
Proof.
  induction el as [s|s|id name attrs kids IH] using node_tree_ind;
    intros Hi fresh; [reflexivity | reflexivity |].
  cbn [tables_to_paragraphs].
  destruct (inert_name _ _ _ _ Hi) as (_ & _ & ->).
  assert (Hgo : forall f,
             (fix go (fresh : nat) (ks : list node) : list node * nat :=
                match ks with
                | [] => ([], fresh)
                | k :: ks' =>
                    let '(k', f1) := tables_to_paragraphs fresh k in
                    let '(ks'', f2) := go f1 ks' in
                    (k' :: ks'', f2)
                end) f kids = (kids, f)).
  { pose proof (inert_kids _ _ _ _ Hi) as Hk. clear Hi.
    induction kids as [|k kids IHk]; intros f; [reflexivity|].
    apply Forall_cons in IH as [Hk1 Hkids].
    rewrite (Hk1 (Hk k (or_introl eq_refl)) f).
    rewrite (IHk Hkids (fun x Hx => Hk x (or_intror Hx)) f). reflexivity. }
  rewrite Hgo. reflexivity.
Qed.

Lemma find_all_inert (names : list string) (el : node) :
  inert el -> forall x, In x (find_all names el) -> inert x.
Proof.
  induction el as [s|s|id name attrs kids IH] using node_tree_ind;
    intros Hi x; [intros [] | intros [] |].
  cbn [find_all]. rewrite in_flat_map. intros (k & Hk & Hx).
  pose proof (inert_kids _ _ _ _ Hi k Hk) as Hik.
  apply in_app_or in Hx as [Hx|Hx].
  - destruct (is_tag_named names k); [|destruct Hx].
    destruct Hx as [<-|[]]. exact Hik.
  - rewrite Forall_forall in IH.
    apply (IH k (proj2 (list_elem_of_In _ _) Hk) Hik x Hx).
Qed.

Lemma with_following_fst (l : list node) (c : node * list node) :
  In c (with_following l) -> In (fst c) l.
Proof.
  induction l as [|n l IH]; [intros []|].
  intros [<-|H]; [left; reflexivity | right; apply IH, H].
Qed.

(** The walk over nodes that hold no paragraph and no list adds no
    block. *)
Lemma build_loop_inert (fuel : nat) :
  forall st stack,
    Forall (fun c => inert (fst c)) stack ->
    blocks (fst (build_loop fuel st stack)) = blocks st.
Proof.
  induction fuel as [|fuel IH]; intros st stack Hs; [reflexivity|].
  cbn [build_loop]. destruct stack as [|[el following] stack]; [reflexivity|].
  apply Forall_cons in Hs as [Hel Hs]. cbn [fst] in Hel.
  unfold build_step.
  destruct el as [s|s|id name attrs kids];
    [apply IH, Hs | apply IH, Hs |].
  destruct (bool_decide (id ∈ skipped_ids st)); [apply IH, Hs|].
  destruct (inert_name _ _ _ _ Hel) as (-> & -> & _). cbn [andb].
  apply IH. apply Forall_app. split; [|exact Hs].
  apply Forall_forall. intros c Hc. apply list_elem_of_In in Hc.
  apply (inert_kids _ _ _ _ Hel), with_following_fst, Hc.
Qed.

(** Text that stands outside paragraphs and lists is never extracted: a
    page without [<p>], [<ul>], [<ol>] and [<table>] gives no block,
    whatever text and whatever other tags (headings such as [<h1>],
    [<div>], [<span>]) it holds. *)
Theorem text_outside_paragraphs_dropped (soup : node) :
  is_tag_named ["p"; "ul"; "ol"; "table"]%string soup = false ->
  find_all ["p"; "ul"; "ol"; "table"]%string soup = [] ->
  build_blocks_from_html soup = [].
Proof.
  intros H1 H2. assert (Hi : inert soup) by (split; assumption).
  unfold build_blocks_from_html.
  rewrite (tables_to_paragraphs_inert soup Hi). cbn [fst].
  assert (Htop : Forall (fun c => inert (fst c)) (top_level soup)).
  { unfold top_level. apply Forall_forall. intros c Hc.
    apply list_elem_of_In, filter_In in Hc as [Hc _].
    apply with_following_fst in Hc.
    destruct (find_all ["body"%string] soup) as [|body rest] eqn:Eb.
    - destruct soup as [s|s|id name attrs kids];
    [destruct Hc | destruct Hc |].
      apply (inert_kids _ _ _ _ Hi), Hc.
    - assert (inert body) as Hbody.
      { apply (find_all_inert ["body"%string] soup Hi). rewrite Eb.
        left. reflexivity. }
      destruct body as [s|s|id name attrs kids];
    [destruct Hc | destruct Hc |].
      apply (inert_kids _ _ _ _ Hbody), Hc. }
  revert Htop. generalize (top_level soup). intros tops Htop.
  change (@nil block) with (blocks init_walker). generalize init_walker.
  induction tops as [|c tops IH]; intros st; [reflexivity|].
  apply Forall_cons in Htop as [Hc Htop]. cbn [fold_left].
  rewrite (IH Htop). apply build_loop_inert. constructor; [exact Hc | constructor].
Qed.

Lemma text_outside_paragraphs_dropped_witness :
  build_blocks_from_html bare_text_page = [].
Proof.
  apply (text_outside_paragraphs_dropped bare_text_page); reflexivity.
Defined.

(** ** Packing lines that fit *)

Lemma no_newline_not_qa (text : str) :
  contains text [NL] = false -> is_qa_block text = false.
Proof.
  intros H. unfold is_qa_block.
  destruct (contains text (NL :: lit "A:")) eqn:E; [|apply andb_false_r].
  apply (contains_app text [NL] (lit "A:")) in E. congruence.
Qed.

Lemma flush_nonempty {A : Type} (close_chunk : list str -> A)
    (st : packer A) :
  current_lines st <> [] ->
  flush close_chunk st = chunks st ++ [close_chunk (current_lines st)].
Proof. unfold flush. destruct (current_lines st); [congruence | reflexivity]. Qed.

(** A one-line block that fits the chunk of its own path is appended to
    it. *)
Lemma pack_block_fits (wrap : str -> Z -> list str) (limit : Z)
    (path : list str) (text : str) (st : packer (list str)) :
  current_breadcrumb st = Some path ->
  contains text [NL] = false ->
  current_len st + len text + 1 <= limit ->
  pack_block wrap (fun ls => ls) limit st (path, text)
  = mk_packer (chunks st) (current_lines st ++ [text]) (Some path)
              (current_len st + len text + 1).
Proof.
  intros Hp Hnl Hfit. rewrite pack_block_phases.
  unfold enter_block. rewrite Hp.
  rewrite bool_decide_eq_false_2 by (intros H; apply H; reflexivity).
  rewrite (no_newline_not_qa _ Hnl). cbn [andb].
  unfold feed_lines. rewrite Hnl.
  destruct (Z.gtb_spec (len text + current_len st) limit); [lia|].
  rewrite add_line_eq.
  destruct (Z.gtb_spec (current_len st + len text + 1) limit); [lia|].
  rewrite Hp. reflexivity.
Qed.

Lemma fold_pack_block_fits (wrap : str -> Z -> list str) (limit : Z)
    (path : list str) (texts : list str) :
  forall st : packer (list str),
    current_breadcrumb st = Some path ->
    (forall t, In t texts -> contains t [NL] = false) ->
    current_len st + line_cost texts <= limit ->
    fold_left (pack_block wrap (fun ls => ls) limit)
              (map (pair path) texts) st
    = mk_packer (chunks st) (current_lines st ++ texts) (Some path)
                (current_len st + line_cost texts).
Proof.
  induction texts as [|t texts IH]; intros st Hp Hnl Hfit.
  - cbn. rewrite app_nil_r, Z.add_0_r, <- Hp. destruct st; reflexivity.
  - change (line_cost (t :: texts)) with (len t + 1 + line_cost texts) in *.
    pose proof (line_cost_nonneg texts).
    cbn [map fold_left].
    rewrite pack_block_fits;
      [|exact Hp | apply Hnl; left; reflexivity | lia].
    rewrite IH; cbn [chunks current_lines current_breadcrumb current_len];
      [|reflexivity | intros x Hx; apply Hnl; right; exact Hx | lia].
    rewrite <- app_assoc. f_equal. lia.
Qed.

Lemma pack_first_block (wrap : str -> Z -> list str) (limit : Z)
    (path : list str) (text : str) :
  contains text [NL] = false ->
  pack_block wrap (fun ls => ls) limit init_packer (path, text)
  = feed_lines wrap (fun ls => ls) limit path text
      (mk_packer [] (header_lines path) (Some path)
                 (line_cost (header_lines path))).
Proof.
  intros Hnl. rewrite pack_block_phases. f_equal.
  unfold enter_block. cbn [current_breadcrumb init_packer].
  rewrite bool_decide_eq_true_2 by discriminate.
  rewrite (no_newline_not_qa _ Hnl). cbn [andb].
  rewrite new_chunk_eq. reflexivity.
Qed.

(** One-line blocks of one path that fit the limit together, with the
    header line, make one chunk: the header line when the path has one,
    then the texts in their order. *)
Theorem same_path_blocks_one_chunk (wrap : str -> Z -> list str)
    (limit : Z) (path : list str) (texts : list str) :
  texts <> [] ->
  (forall t, In t texts -> contains t [NL] = false) ->
  line_cost (header_lines path) + line_cost texts <= limit ->
  chunk_lines wrap limit (map (pair path) texts)
  = [header_lines path ++ texts]
  /\ chunk_blocks_with wrap serialize limit (map (pair path) texts)
     = [serialize (header_lines path ++ texts)].
Proof.
  intros Hne Hnl Hfit.
  assert (H : chunk_lines wrap limit (map (pair path) texts)
              = [header_lines path ++ texts]).
  { destruct texts as [|t texts]; [congruence|].
    change (line_cost (t :: texts)) with (len t + 1 + line_cost texts) in *.
    pose proof (line_cost_nonneg texts).
    unfold chunk_lines, chunk_blocks_with. cbn [map fold_left].
    set (st0 := mk_packer (A := list str) [] (header_lines path) (Some path)
                          (line_cost (header_lines path))).
    assert (E : pack_block wrap (fun ls => ls) limit init_packer (path, t)
                = pack_block wrap (fun ls => ls) limit st0 (path, t)).
    { rewrite pack_first_block by (apply Hnl; left; reflexivity).
      rewrite pack_block_phases. f_equal. unfold enter_block, st0.
      cbn [current_breadcrumb current_len].
      rewrite bool_decide_eq_false_2 by (intros Hx; apply Hx; reflexivity).
      rewrite no_newline_not_qa by (apply Hnl; left; reflexivity).
      reflexivity. }
    rewrite E.
    rewrite pack_block_fits;
      [|reflexivity | apply Hnl; left; reflexivity | unfold st0; cbn; lia].
    rewrite fold_pack_block_fits;
      [|reflexivity | intros x Hx; apply Hnl; right; exact Hx
       | unfold st0; cbn; lia].
    rewrite flush_nonempty; cbn [chunks current_lines st0].
    - rewrite <- app_assoc. reflexivity.
    - intros El. apply (f_equal (@length _)) in El.
      rewrite !length_app in El. simpl in El. lia. }
  split; [exact H|]. rewrite chunk_blocks_with_lines, H. reflexivity.
Qed.

Lemma same_path_blocks_one_chunk_witness :
  chunk_lines textwrap_wrap 60 two_line_blocks
  = [header_lines [lit "Leave"] ++ [lit "Intro"; lit "Outro"]]
  /\ chunk_blocks_with textwrap_wrap serialize 60 two_line_blocks
     = [serialize (header_lines [lit "Leave"] ++ [lit "Intro"; lit "Outro"])].
Proof.
  apply (same_path_blocks_one_chunk textwrap_wrap 60 [lit "Leave"]
           [lit "Intro"; lit "Outro"]).
  - discriminate.
  - intros t [<-|[<-|[]]]; reflexivity.
  - vm_compute. discriminate.
Defined.

(** A one-line block that fills the space after its header to the last
    character: the test for wrapping lets it pass and [add_line], which
    counts one separator more, starts a new chunk; the chunk that the
    header opened is closed with the header line alone in it. *)
Theorem header_only_chunk (wrap : str -> Z -> list str) (limit : Z)
    (path : list str) (text : str) :
  header_lines path <> [] ->
  contains text [NL] = false ->
  line_cost (header_lines path) + len text = limit ->
  chunk_lines wrap limit [(path, text)]
  = [header_lines path; header_lines path ++ [text]].
Proof.
  intros Hh Hnl Hfill.
  unfold chunk_lines, chunk_blocks_with. cbn [fold_left].
  rewrite pack_first_block by exact Hnl.
  unfold feed_lines. rewrite Hnl. cbn [current_len].
  destruct (Z.gtb_spec (len text + line_cost (header_lines path)) limit);
    [lia|].
  rewrite add_line_eq. cbn [current_len].
  destruct (Z.gtb_spec (line_cost (header_lines path) + len text + 1) limit);
    [|lia].
  rewrite flush_nonempty; cbn [chunks current_lines];
    [|destruct (header_lines path); discriminate].
  rewrite flush_nonempty; cbn [chunks current_lines]; [reflexivity | exact Hh].
Qed.

Lemma header_only_chunk_witness :
  chunk_lines textwrap_wrap 15 [([lit "Leave"], lit "Intro")]
  = [header_lines [lit "Leave"];
     header_lines [lit "Leave"] ++ [lit "Intro"]].
Proof.
  apply (header_only_chunk textwrap_wrap 15 [lit "Leave"] (lit "Intro")).
  - discriminate.
  - reflexivity.
  - reflexivity.
Defined.
(** ** No line is dropped *)

Section PackerKeeps.
Variable wrap : str -> Z -> list str.
Variable limit : Z.

Let id_chunk := fun ls : list str => ls.

(** One run of the loop over the lines of a multi-line text. *)
Let feed_line (path : list str) (st : packer (list str)) (ln : str)
  : packer (list str) :=
  let ln := rstrip ln in
  if len ln + current_len st >? limit
  then fold_left (add_line id_chunk limit path) (wrapped wrap limit ln) st
  else add_line id_chunk limit path st ln.

Lemma add_line_has (path : list str) (st : packer (list str)) (seg : str) :
  holds_lines [seg] (add_line id_chunk limit path st seg).
Proof.
  rewrite add_line_eq. left. destruct (_ >? limit); cbn [current_lines].
  - exists (header_lines path), []. reflexivity.
  - exists (current_lines st), []. reflexivity.
Qed.

Lemma single_nonempty (seg : str) : [seg] <> [].
Proof. discriminate. Qed.

Lemma fold_add_line_has {Y : Type} (f : Y -> str) (path : list str)
    (ys : list Y) :
  forall st y,
    In y ys ->
    holds_lines [f y]
      (fold_left (fun st y => add_line id_chunk limit path st (f y)) ys st).
Proof.
  induction ys as [|y0 ys IH]; intros st y; [intros []|].
  cbn [fold_left]. intros [<-|Hy].
  - apply (fold_add_line_holds limit [f y0] (single_nonempty _) f path ys).
    apply add_line_has.
  - apply IH, Hy.
Qed.

Lemma feed_line_holds (X : list str) (path : list str)
    (st : packer (list str)) (ln : str) :
  X <> [] -> holds_lines X st -> holds_lines X (feed_line path st ln).
Proof.
  intros HX H. unfold feed_line. cbn zeta. destruct (_ >? limit).
  - apply (fold_add_line_holds limit X HX (fun x => x) path), H.
  - apply (add_line_holds limit X HX), H.
Qed.

Lemma fold_feed_line_holds (X : list str) (path : list str) (lns : list str) :
  X <> [] ->
  forall st, holds_lines X st ->
             holds_lines X (fold_left (feed_line path) lns st).
Proof.
  intros HX. induction lns as [|ln lns IH]; intros st H; [exact H|].
  cbn [fold_left]. apply IH, feed_line_holds; assumption.
Qed.

Lemma feed_line_has (path : list str) (st : packer (list str)) (ln : str) :
  holds_lines [rstrip ln] (feed_line path st ln)
  \/ forall seg, In seg (wrapped wrap limit (rstrip ln)) ->
                 holds_lines [seg] (feed_line path st ln).
Proof.
  unfold feed_line. cbn zeta. destruct (_ >? limit).
  - right. intros seg Hseg.
    apply (fold_add_line_has (fun x => x) path _ st seg Hseg).
  - left. apply add_line_has.
Qed.

Lemma fold_feed_line_has (path : list str) (lns : list str) :
  forall st ln,
    In ln lns ->
    holds_lines [rstrip ln] (fold_left (feed_line path) lns st)
    \/ forall seg, In seg (wrapped wrap limit (rstrip ln)) ->
                   holds_lines [seg] (fold_left (feed_line path) lns st).
Proof.
  induction lns as [|l0 lns IH]; intros st ln; [intros []|].
  cbn [fold_left]. intros [<-|Hln]; [|apply IH, Hln].
  destruct (feed_line_has path st l0) as [H|H]; [left | right].
  - apply fold_feed_line_holds; [discriminate | exact H].
  - intros seg Hseg. apply fold_feed_line_holds; [discriminate | apply H, Hseg].
Qed.

(** What [feed_lines] leaves in the chunks for the text it is given. *)
Lemma feed_lines_has (path : list str) (text : str)
    (st : packer (list str)) :
  let st' := feed_lines wrap id_chunk limit path text st in
  if contains text [NL] then
    forall ln, In ln (split_nl text) ->
      holds_lines [rstrip ln] st'
      \/ forall seg, In seg (wrapped wrap limit (rstrip ln)) ->
                     holds_lines [seg] st'
  else
    holds_lines [text] st'
    \/ forall w, In w (wrapped wrap limit text) ->
                 holds_lines [with_bullet text w] st'.
Proof.
  cbn zeta. unfold feed_lines. destruct (contains text [NL]).
  - intros ln Hln. apply (fold_feed_line_has path (split_nl text) st ln Hln).
  - destruct (_ >? limit).
    + right. intros w Hw.
      apply (fold_add_line_has (with_bullet text) path _ st w Hw).
    + left. apply add_line_has.
Qed.

Lemma holds_lines_present (blocks_before : list block) (b : block)
    (blocks_after : list block) (seg : str) :
  holds_lines [seg]
    (pack_block wrap id_chunk limit
       (fold_left (pack_block wrap id_chunk limit) blocks_before init_packer)
       b) ->
  line_present wrap limit (blocks_before ++ b :: blocks_after) seg.
Proof.
  intros H. unfold line_present, chunk_lines, chunk_blocks_with.
  rewrite fold_left_app. cbn [fold_left].
  apply (fold_pack_block_holds wrap limit [seg] (single_nonempty _)
           blocks_after) in H.
  apply (flush_holds [seg] (single_nonempty _)) in H
    as (before & after & Hin).
  exists (before ++ [seg] ++ after). split; [exact Hin|].
  apply in_or_app. right. left. reflexivity.
Qed.
End PackerKeeps.

(** The packer drops no content.  For every block of the sequence, each
    line of its text is a line of some chunk of the output, either as it
    is (right-stripped, for a text of several lines) or as all the lines
    that the wrapper returned for it (with the bullet marker put in
    front, for a one-line text). *)
Theorem packer_keeps_every_line (wrap : str -> Z -> list str) (limit : Z)
    (blocks : list block) (path : list str) (text : str) :
  In (path, text) blocks ->
  if contains text [NL] then
    forall ln, In ln (split_nl text) ->
      line_present wrap limit blocks (rstrip ln)
      \/ forall seg, In seg (wrapped wrap limit (rstrip ln)) ->
                     line_present wrap limit blocks seg
  else
    line_present wrap limit blocks text
    \/ forall w, In w (wrapped wrap limit text) ->
                 line_present wrap limit blocks (with_bullet text w).
Proof.
  intros Hin. apply in_split in Hin as (before & after & ->).
  pose proof (feed_lines_has wrap limit path text
                (enter_block (fun ls => ls) limit path text
                   (fold_left (pack_block wrap (fun ls => ls) limit) before
                              init_packer))) as H.
  cbn zeta in H. rewrite <- pack_block_phases in H.
  destruct (contains text [NL]).
  - intros ln Hln. destruct (H ln Hln) as [H1|H1]; [left | right].
    + apply holds_lines_present, H1.
    + intros seg Hseg. apply holds_lines_present, H1, Hseg.
  - destruct H as [H1|H1]; [left | right].
    + apply holds_lines_present, H1.
    + intros w Hw. apply holds_lines_present, H1, Hw.
Qed.

Lemma packer_keeps_every_line_witness :
  line_present textwrap_wrap 60 two_line_blocks (lit "Outro")
  \/ forall w, In w (wrapped textwrap_wrap 60 (lit "Outro")) ->
               line_present textwrap_wrap 60 two_line_blocks
                            (with_bullet (lit "Outro") w).
Proof.
  apply (packer_keeps_every_line textwrap_wrap 60 two_line_blocks
           [lit "Leave"] (lit "Outro")).
  right. left. reflexivity.
Defined.
(** ** The written document *)

(** Every chunk of the packer is stripped already, so the [strip] of the
    writer changes nothing: the document is the preamble followed by
    each chunk of the packer as it is, with two line breaks after it. *)
Theorem document_of_chunks (wrap : str -> Z -> list str) (limit : Z)
    (blocks : list block) (base_name run_tag : str) (url : option str) :
  Forall (fun c => strip c = c)
         (chunk_blocks_with wrap serialize limit blocks)
  /\ ctxt_document base_name run_tag url
       (chunk_blocks_with wrap serialize limit blocks)
     = ctxt_preamble base_name run_tag url
         ++ concat (map (fun c => c ++ [NL; NL])
                        (chunk_blocks_with wrap serialize limit blocks)).
Proof.
  assert (H : Forall (fun c => strip c = c)
                     (chunk_blocks_with wrap serialize limit blocks)).
  { rewrite chunk_blocks_with_lines. apply Forall_forall. intros c Hc.
    apply list_elem_of_In, in_map_iff in Hc as (ls & <- & _).
    apply strip_idem. }
  split; [exact H|]. unfold ctxt_document. f_equal. f_equal.
  induction H as [|c cs Hc _ IH]; [reflexivity|].
  cbn [map]. rewrite Hc, IH. reflexivity.
Qed.

Lemma startswith_self_app (p s : str) : startswith (p ++ s) p = true.
Proof.
  induction p as [|a p IH]; [destruct s; reflexivity|].
  cbn. rewrite N.eqb_refl. exact IH.
Qed.

Lemma contains_unfold (s p : str) :
  contains s p = startswith s p || match s with
                                   | [] => false
                                   | _ :: s' => contains s' p
                                   end.
Proof. destruct s; reflexivity. Qed.

Lemma contains_skip (a s p : str) :
  contains s p = true -> contains (a ++ s) p = true.
Proof.
  intros H. induction a as [|c a IH]; [exact H|].
  cbn [app contains]. rewrite IH. apply orb_true_r.
Qed.

Lemma unify_newlines_cons (c : N) (s : str) :
  c <> CR -> unify_newlines (c :: s) = c :: unify_newlines s.
Proof.
  intros H. cbn [unify_newlines].
  destruct (N.eqb_spec c CR); [congruence | reflexivity].
Qed.

Lemma unify_newlines_app (x y : str) :
  (forall c, In c x -> c <> CR) ->
  unify_newlines (x ++ y) = x ++ unify_newlines y.
Proof.
  induction x as [|c x IH]; intros H; [reflexivity|].
  cbn [app]. rewrite unify_newlines_cons by (apply H; left; reflexivity).
  f_equal. apply IH. intros d Hd. apply H. right. exact Hd.
Qed.

Lemma unify_newlines_cr (s : str) :
  unify_newlines (CR :: s)
  = NL :: unify_newlines (match s with
                          | d :: s' => if (d =? NL)%N then s' else s
                          | [] => []
                          end).
Proof.
  destruct s as [|d s']; [reflexivity|].
  destruct (d =? NL)%N eqn:E; cbn [unify_newlines]; rewrite E; reflexivity.
Qed.

(** Reading a file in text mode turns every line ending into a line
    feed: a text that does not end in a carriage return is read as at
    most as many characters, and what follows it is read on its own. *)
Lemma unify_newlines_prefix (a y : str) :
  last a <> Some CR ->
  exists a', unify_newlines (a ++ y) = a' ++ unify_newlines y
             /\ (length a' <= length a)%nat.
Proof.
  remember (length a) as n eqn:En. revert a En.
  induction n as [n IH] using lt_wf_ind. intros a En Hl.
  destruct a as [|c a1]; [exists []; split; [reflexivity | cbn; lia]|].
  destruct (N.eqb_spec c CR) as [->|Hc].
  - destruct a1 as [|d a2]; [exfalso; apply Hl; reflexivity|].
    cbn [app]. rewrite unify_newlines_cr.
    cbn [length] in En. destruct (d =? NL)%N.
    + destruct (IH (length a2) ltac:(lia) a2 eq_refl) as (a' & E & L).
      { destruct a2; [discriminate | exact Hl]. }
      exists (NL :: a'). rewrite E. split; [reflexivity | cbn [length]; lia].
    + destruct (IH (length (d :: a2)) ltac:(cbn [length]; lia) (d :: a2)
                  eq_refl) as (a' & E & L); [exact Hl|].
      exists (NL :: a'). change (d :: a2 ++ y) with ((d :: a2) ++ y).
      rewrite E. split; [reflexivity | cbn [length] in *; lia].
  - cbn [app]. rewrite unify_newlines_cons by exact Hc.
    cbn [length] in En.
    destruct (IH (length a1) ltac:(lia) a1 eq_refl) as (a' & E & L).
    { destruct a1; [discriminate | exact Hl]. }
    exists (c :: a'). rewrite E. split; [reflexivity | cbn [length]; lia].
Qed.

Lemma contains_in_head (a r b : str) (n : nat) :
  (length a + length r <= n)%nat ->
  contains (take n (a ++ r ++ b)) r = true.
Proof.
  intros H. rewrite take_app, (take_ge a) by lia.
  apply contains_skip. rewrite take_app, (take_ge r) by lia.
  rewrite contains_unfold, startswith_self_app. reflexivity.
Qed.

(** The run tag written by [process_files] is found again by the check
    of [Main.py]: when the run tag is not empty and has no carriage
    return (the check reads the file in text mode), and the title is
    short enough for the tags line to end within the 1024 characters
    that the check reads, the check answers [True] for a generated file
    that comes first in the export directory. *)
Theorem run_tag_found_in_header (soup : node) (base_name run_tag : str)
    (url : option str) (max_chars : Z) (others : list (option str)) :
  run_tag <> [] ->
  (forall c, In c run_tag -> c <> CR) ->
  len base_name + len run_tag + 41 <= 1024 ->
  ctxts_include_run_tag
    (Some (process_file soup base_name run_tag url max_chars) :: others)
    run_tag = true.
Proof.
  intros Hne Hcr Hlen. unfold ctxts_include_run_tag.
  assert (Hpeek : forall rest,
             peek_run_tag run_tag
               (Some (process_file soup base_name run_tag url max_chars)
                  :: rest) = true).
  { intros rest. cbn [peek_run_tag]. cbn zeta.
    assert (contains
              (take 1024
                 (unify_newlines
                    (process_file soup base_name run_tag url max_chars)))
              run_tag = true) as ->.
    { unfold process_file, ctxt_document, ctxt_preamble.
      assert (match run_tag with
              | [] => []
              | _ :: _ => lit ", " ++ run_tag
              end = lit ", " ++ run_tag) as ->
          by (destruct run_tag; [congruence | reflexivity]).
      set (rest_of_file := concat _).
      set (before := (lit "`version: 1`" ++ [NL] ++ lit "`title: "
                        ++ base_name ++ lit "`" ++ [NL] ++ lit "`tags: ["
                        ++ lit "policies" ++ lit ",") ++ [SP]).
      replace ((lit "`version: 1`" ++ [NL] ++ lit "`title: " ++ base_name
                 ++ lit "`" ++ [NL] ++ lit "`tags: ["
                 ++ (lit "policies" ++ lit ", " ++ run_tag) ++ lit "]`"
                 ++ [NL]
                 ++ match url with
                    | Some u => lit "`source_url: " ++ u ++ lit "`" ++ [NL]
                    | None => []
                    end ++ [NL]) ++ rest_of_file)
        with (before
                ++ run_tag
                ++ (lit "]`" ++ [NL]
                      ++ match url with
                         | Some u => lit "`source_url: " ++ u ++ lit "`" ++ [NL]
                         | None => []
                         end ++ [NL]) ++ rest_of_file)
        by (unfold before; rewrite <- !app_assoc; reflexivity).
      destruct (unify_newlines_prefix before
                  (run_tag
                     ++ (lit "]`" ++ [NL]
                           ++ match url with
                              | Some u =>
                                  lit "`source_url: " ++ u ++ lit "`" ++ [NL]
                              | None => []
                              end ++ [NL]) ++ rest_of_file))
        as (read & -> & Hread).
      { unfold before. rewrite last_snoc. discriminate. }
      rewrite (unify_newlines_app run_tag _ Hcr).
      apply contains_in_head. unfold len in Hlen.
      assert (length before = (41 + length base_name)%nat) as Hb.
      { unfold before. rewrite !length_app.
        change (length (lit "`version: 1`")) with 12%nat.
        change (length (lit "`title: ")) with 8%nat.
        change (length (lit "`")) with 1%nat.
        change (length (lit "`tags: [")) with 8%nat.
        change (length (lit "policies")) with 8%nat.
        change (length (lit ",")) with 1%nat.
        change (length [SP]) with 1%nat.
        change (length [NL]) with 1%nat. lia. }
      lia. }
    rewrite andb_true_r.
    unfold str_eqb. rewrite bool_decide_eq_false_2 by exact Hne. reflexivity. }
  destruct others as [|o others']; apply Hpeek.
Qed.

Lemma run_tag_found_in_header_witness :
  ctxts_include_run_tag
    [Some (process_file empty_page (lit "leave") (lit "run-1") None 500)]
    (lit "run-1") = true.
Proof.
  apply (run_tag_found_in_header empty_page (lit "leave") (lit "run-1")
           None 500 []).
  - discriminate.
  - intros c Hc. vm_compute in Hc.
    repeat (destruct Hc as [<-|Hc]; [discriminate|]). destruct Hc.
  - vm_compute. discriminate.
Defined.

(** ** Q/A pairs on their way to the packer *)

(** The first field of a split, with the characters read before it. *)
Lemma split_nl_aux_head (s : str) :
  exists h r, forall cur, split_nl_aux cur s = (rev cur ++ h) :: r.
Proof.
  induction s as [|c s (h & r & IH)].
  - exists [], []. intros cur. cbn. rewrite app_nil_r. reflexivity.
  - cbn [split_nl_aux]. destruct (c =? NL)%N.
    + exists [], (split_nl_aux [] s). intros cur. rewrite app_nil_r. reflexivity.
    + exists (c :: h), r. intros cur. rewrite IH. cbn [rev].
      rewrite <- app_assoc. reflexivity.
Qed.

Lemma split_nl_prefixed (pre s : str) :
  (forall c, In c pre -> c <> NL) ->
  exists h r, split_nl (pre ++ s) = (pre ++ h) :: r.
Proof.
  intros H. destruct (split_nl_aux_head s) as (h & r & Hs).
  exists h, r. unfold split_nl.
  assert (G : forall cur, split_nl_aux cur (pre ++ s)
                          = split_nl_aux (rev pre ++ cur) s).
  { clear Hs. induction pre as [|c pre IH]; intros cur; [reflexivity|].
    cbn [app split_nl_aux].
    destruct (N.eqb_spec c NL) as [E|_];
      [destruct (H c (or_introl eq_refl) E)|].
    rewrite IH by (intros d Hd; apply H; right; exact Hd).
    cbn [rev]. rewrite <- app_assoc. reflexivity. }
  rewrite G, Hs, app_nil_r, rev_involutive. reflexivity.
Qed.

(** Normalization keeps two leading characters that are not whitespace. *)
Lemma norm_ws_two (a b : N) (x : str) :
  is_space a = false -> is_space b = false ->
  exists y, norm_ws (a :: b :: x) = a :: b :: y.
Proof.
  intros Ha Hb. unfold norm_ws. cbn [sub_ws]. rewrite Ha, Hb.
  unfold strip.
  change (a :: b :: sub_ws false x) with ([a; b] ++ sub_ws false x).
  rewrite rstrip_app.
  assert (rstrip [a; b] = [a; b]) as Hab.
  { apply rstrip_fixed. cbn. exact Hb. }
  destruct (rstrip (sub_ws false x)) as [|c rz].
  - rewrite Hab. exists []. cbn [lstrip]. rewrite Ha. reflexivity.
  - exists (c :: rz). cbn [app lstrip]. rewrite Ha. reflexivity.
Qed.

Lemma drop_blank_end_cons (c : N) (l : str) (rest : list str) :
  drop_blank_end ((c :: l) :: rest) = (c :: l) :: drop_blank_end rest.
Proof. cbn [drop_blank_end]. destruct (drop_blank_end rest); reflexivity. Qed.

(** The text that the extractor pushes for a question with an answer
    is, once normalized, a Q/A block for the packer. *)
Lemma qa_text_normalized (q a : str) :
  (forall c, In c q -> c <> NL /\ c <> CR) ->
  contains (lit "Q: " ++ q ++ [NL] ++ lit "A: " ++ a) [NL] = true
  /\ exists y z,
       norm_multiline (lit "Q: " ++ q ++ [NL] ++ lit "A: " ++ a)
       = (lit "Q:" ++ y) ++ (NL :: lit "A:") ++ z.
Proof.
  intros Hq. split.
  { rewrite app_assoc. apply contains_skip. reflexivity. }
  destruct (norm_multiline_lines (lit "Q: " ++ q ++ [NL] ++ lit "A: " ++ a))
    as (_ & _ & ->).
  assert (Hx : forall c, In c (lit "Q: " ++ q) -> c <> NL /\ c <> CR).
  { intros c Hc. apply in_app_or in Hc as [Hc|Hc]; [|apply Hq, Hc].
    vm_compute in Hc.
    repeat (destruct Hc as [<-|Hc]; [split; discriminate|]). destruct Hc. }
  rewrite (app_assoc (lit "Q: ") q).
  rewrite unify_newlines_app by (intros c Hc; apply (Hx c Hc)).
  change ([NL] ++ lit "A: " ++ a) with ((NL :: lit "A: ") ++ a).
  rewrite unify_newlines_app
    by (intros c Hc; vm_compute in Hc;
        repeat (destruct Hc as [<-|Hc]; [discriminate|]); destruct Hc).
  change ((NL :: lit "A: ") ++ unify_newlines a)
    with (NL :: (lit "A: " ++ unify_newlines a)).
  unfold split_nl at 1.
  rewrite (split_nl_aux_app (lit "Q: " ++ q))
    by (intros c Hc; apply (Hx c Hc)).
  cbn [rev app].
  destruct (split_nl_prefixed (lit "A: ") (unify_newlines a))
    as (h & r & Hs).
  { intros c Hc. vm_compute in Hc.
    repeat (destruct Hc as [<-|Hc]; [discriminate|]). destruct Hc. }
  unfold split_nl in Hs. rewrite Hs. cbn [map].
  fold (norm_ws ((lit "Q: " ++ q))). fold (norm_ws (lit "A: " ++ h)).
  destruct (norm_ws_two 81 58 (SP :: q) eq_refl eq_refl) as (y1 & E1).
  destruct (norm_ws_two 65 58 (SP :: h) eq_refl eq_refl) as (y2 & E2).
  change (norm_ws (lit "Q: " ++ q)) with (norm_ws (81%N :: 58%N :: SP :: q)).
  change (norm_ws (lit "A: " ++ h)) with (norm_ws (65%N :: 58%N :: SP :: h)).
  rewrite E1, E2. cbn [squeeze_blank].
  rewrite !drop_blank_end_cons. cbn [drop_blank].
  set (tail := drop_blank_end _).
  exists y1. destruct tail as [|t0 ts].
  - exists y2. reflexivity.
  - exists (y2 ++ [NL] ++ join [NL] (t0 :: ts)).
    rewrite (join_cons [NL] _ (_ :: _)) by discriminate.
    rewrite (join_cons [NL] _ (_ :: _)) by discriminate.
    cbn [app]. rewrite <- !app_assoc. reflexivity.
Qed.

Lemma qa_shape_is_qa_block (y z : str) :
  is_qa_block ((lit "Q:" ++ y) ++ (NL :: lit "A:") ++ z) = true.
Proof.
  unfold is_qa_block. apply andb_true_intro. split.
  - rewrite lstrip_fixed by reflexivity.
    rewrite <- app_assoc. apply startswith_self_app.
  - apply contains_skip. rewrite contains_unfold, startswith_self_app.
    reflexivity.
Qed.

Lemma in_lstrip (s : str) (x : N) : In x (lstrip s) -> In x s.
Proof.
  destruct (lstrip_split s) as (w & Hs & _). intros H. rewrite Hs.
  apply in_or_app. right. exact H.
Qed.

Lemma in_rstrip (s : str) (x : N) : In x (rstrip s) -> In x s.
Proof.
  destruct (rstrip_split s) as (w & Hs & _). intros H. rewrite Hs.
  apply in_or_app. left. exact H.
Qed.

Lemma in_strip (s : str) (x : N) : In x (strip s) -> In x s.
Proof. intros H. apply in_rstrip, in_lstrip, H. Qed.

Lemma match_marker_in (letter : N -> bool) (t rest : str) (x : N) :
  match_marker letter t = Some rest -> In x rest -> In x t.
Proof.
  unfold match_marker. intros H Hx. apply in_lstrip.
  destruct (lstrip t) as [|c t1]; [discriminate|].
  destruct (letter c); [|discriminate]. right. apply in_lstrip.
  destruct (lstrip t1) as [|p t2]; [discriminate|].
  destruct (is_marker_punct p); [|discriminate]. right.
  destruct t2 as [|w t3]; [discriminate|].
  destruct (is_space w); [|discriminate].
  injection H as <-. apply in_lstrip, Hx.
Qed.

Lemma strip_q_or_a_prefix_in (t : str) (x : N) :
  In x (strip_q_or_a_prefix t) -> In x t.
Proof.
  unfold strip_q_or_a_prefix.
  destruct (match_marker _ t) as [rest|] eqn:E; intros H.
  - apply (match_marker_in _ _ _ _ E), in_strip, H.
  - apply in_strip, H.
Qed.

(** From the extractor to the packer.  When the walk meets a question
    paragraph and the scan finds an answer, the one block it adds is a
    Q/A block in the sense of the packer's test (it starts with ["Q:"]
    and holds a line that starts with ["A:"]), so the packer treats the
    pair as one unit. *)
Theorem question_with_answer_is_qa_block
    (st : walker) (id : nat) (attrs : list (str * str)) (kids : list node)
    (following : list node) (stack : list (node * list node)) :
  id ∉ skipped_ids st ->
  is_bold_heading_p (Tag id (lit "p") attrs kids) = false ->
  is_question_text (extract_plain_text (Tag id (lit "p") attrs kids)) = true ->
  fst (fst (collect_answer_content (Tag id (lit "p") attrs kids) following
                                   (breadcrumb st) st)) <> [] ->
  exists t,
    blocks (fst (build_step st ((Tag id (lit "p") attrs kids, following)
                                  :: stack)))
    = blocks st ++ [(breadcrumb st, t)]
    /\ is_qa_block t = true.
Proof.
  intros Hid Hh Hqt Ha. unfold build_step.
  rewrite (bool_decide_eq_false_2 _ Hid), Hh, andb_false_r.
  change (name_in ["ul"; "ol"]%string (lit "p")) with false.
  rewrite str_eqb_refl, Hqt. cbv beta iota.
  unfold collect_answer_content in *.
  pose proof (collect_loop_keeps (S (length following)) (breadcrumb st)
                (Tag id (lit "p") attrs kids) following [] [] st) as [Hb Hc].
  destruct (collect_loop _ _ _ _ _ _ _) as [[ls cs] st'].
  cbn [fst snd] in *.
  destruct (strip (join [NL] ls)) as [|a0 a'] eqn:Ea; [congruence|].
  set (q := strip_q_or_a_prefix _).
  destruct (qa_text_normalized q (a0 :: a')) as (Hnl & y & z & Hn).
  { intros c Hc'. apply strip_q_or_a_prefix_in in Hc'.
    apply (tidy_no_newline _ c (tidy_norm_ws _) Hc'). }
  unfold push_block. rewrite Hnl, Hn.
  exists ((lit "Q:" ++ y) ++ (NL :: lit "A:") ++ z).
  split; [|apply qa_shape_is_qa_block].
  cbn [app]. cbn [fst blocks]. rewrite Hb, Hc. reflexivity.
Qed.

Lemma question_with_answer_is_qa_block_witness :
  exists t,
    blocks (fst (build_step init_walker
                   [(question_paragraph, [answer_paragraph])]))
    = blocks init_walker ++ [(breadcrumb init_walker, t)]
    /\ is_qa_block t = true.
Proof.
  apply (question_with_answer_is_qa_block init_walker 1 []
           [NavigableString (lit "Q: How many sick days?")]
           [answer_paragraph] []).
  - apply not_elem_of_empty.
  - reflexivity.
  - reflexivity.
  - vm_compute. discriminate.
Defined.
Lemma collect_loop_marks (fuel : nat) (bc : list str) :
  forall cur following lines consumed st,
    exists new,
      snd (fst (collect_loop fuel bc cur following lines consumed st))
      = consumed ++ new
      /\ skipped_ids (snd (collect_loop fuel bc cur following lines consumed st))
         = list_to_set new ∪ skipped_ids st
      /\ detached (snd (collect_loop fuel bc cur following lines consumed st))
         = list_to_set new ∪ detached st.
Proof.
  assert (Hstop : forall (lines : list str) (consumed : list nat) (st : walker),
             exists new,
               consumed = consumed ++ new
               /\ skipped_ids st = list_to_set new ∪ skipped_ids st
               /\ detached st = list_to_set new ∪ detached st).
  { intros lines consumed st. exists [].
    rewrite app_nil_r, list_to_set_nil, !(left_id_L ∅ (∪)).
    repeat split. }
  induction fuel as [|fuel IH]; intros cur following lines consumed st;
    [apply (Hstop lines)|].
  cbn [collect_loop].
  destruct (negb (truthy cur)); [apply (Hstop lines)|].
  destruct (next_sibling (detached st) cur following) as [[nxt following']|];
    [|apply (Hstop lines)].
  destruct (negb (truthy nxt)); [apply (Hstop lines)|].
  destruct nxt as [s|s|id name attrs kids];
    [apply IH | apply IH |].
  assert (Hc : forall ls,
             exists new,
               snd (fst (let '(cs, s) := consume id consumed st in
                         collect_loop fuel bc (Tag id name attrs kids)
                                      following' ls cs s))
               = consumed ++ new
               /\ skipped_ids
                    (snd (let '(cs, s) := consume id consumed st in
                          collect_loop fuel bc (Tag id name attrs kids)
                                       following' ls cs s))
                  = list_to_set new ∪ skipped_ids st
               /\ detached
                    (snd (let '(cs, s) := consume id consumed st in
                          collect_loop fuel bc (Tag id name attrs kids)
                                       following' ls cs s))
                  = list_to_set new ∪ detached st).
  { intros ls. unfold consume.
    destruct (IH (Tag id name attrs kids) following' ls (consumed ++ [id])
                 (mk_walker (blocks st) (breadcrumb st)
                            ({[id]} ∪ skipped_ids st) ({[id]} ∪ detached st)))
      as (new & E1 & E2 & E3).
    exists (id :: new). rewrite E1, E2, E3. cbn [skipped_ids detached].
    rewrite <- app_assoc, list_to_set_cons.
    rewrite (comm_L (∪) {[id]} (list_to_set new)), <- !(assoc_L (∪)).
    repeat split. }
  destruct (bool_decide (id ∈ skipped_ids st)); [apply IH|].
  destruct (str_eqb name (lit "p") && is_bold_heading_p (Tag id name attrs kids)).
  { destruct bc as [|top bc']; [apply (Hstop lines)|].
    destruct (str_eqb _ _); [apply Hc | apply (Hstop lines)]. }
  destruct (str_eqb name (lit "p")).
  { destruct (is_question_text _); [apply (Hstop lines) | apply Hc]. }
  destruct (name_in _ name); [apply Hc | apply (Hstop lines)].
Qed.

(** What the scan for an answer does to the state of the walk: it adds
    the identities of the nodes it consumed, and no other, to
    [skipped_ids] (so the walk does not visit them again) and takes
    those nodes, and no other, out of the tree; it leaves the blocks and
    the breadcrumb as they are; the answer text it returns has no
    whitespace at either end. *)
Theorem answer_scan_effects (start : node) (following : list node)
    (current_breadcrumb : list str) (st : walker) :
  let '(answer_text, consumed, st') :=
    collect_answer_content start following current_breadcrumb st in
  blocks st' = blocks st
  /\ breadcrumb st' = breadcrumb st
  /\ skipped_ids st' = list_to_set consumed ∪ skipped_ids st
  /\ detached st' = list_to_set consumed ∪ detached st
  /\ strip answer_text = answer_text.
Proof.
  unfold collect_answer_content.
  pose proof (collect_loop_keeps (S (length following)) current_breadcrumb
                start following [] [] st) as [Hb Hc].
  destruct (collect_loop_marks (S (length following)) current_breadcrumb
              start following [] [] st) as (new & E1 & E2 & E3).
  destruct (collect_loop _ _ _ _ _ _ _) as [[ls cs] st'].
  cbn [fst snd] in *. subst cs.
  repeat split; try assumption. apply strip_idem.
Qed.

(** ** Links and headings in the extracted text *)

Lemma links_to_string (h : str) (k : node) :
  links_to h k ->
  exists a, In (a ++ lit " (" ++ h ++ lit ")")
              (all_strings false (replace_links k)).
Proof.
  induction 1 as [id attrs kids Hh|id name attrs kids k Hn Hk _ [a Ha]].
  - exists (get_text [SP] true (Tag id (lit "a") attrs kids)).
    cbn [replace_links]. rewrite str_eqb_refl, Hh. left. reflexivity.
  - exists a. cbn [replace_links]. unfold href_of in Hn. rewrite Hn.
    cbn [all_strings]. apply in_flat_map. exists (replace_links k).
    split; [apply in_map; exact Hk|exact Ha].
Qed.

Lemma join_has (sep : str) (ls : list str) (s : str) :
  In s ls -> exists a b, join sep ls = a ++ s ++ b.
Proof.
  induction ls as [|l ls IH]; [intros []|].
  destruct ls as [|l' ls'].
  - intros [->|[]]. exists [], []. cbn [join]. rewrite app_nil_r. reflexivity.
  - change (join sep (l :: l' :: ls')) with (l ++ sep ++ join sep (l' :: ls')).
    intros [->|H].
    + exists [], (sep ++ join sep (l' :: ls')). reflexivity.
    + destruct (IH H) as (a & b & E). rewrite E.
      exists (l ++ sep ++ a), b. rewrite <- !app_assoc. reflexivity.
Qed.

Lemma sub_ws_word (p b : str) :
  (forall c, In c p -> is_space c = false) ->
  forall st, sub_ws st (p ++ b)
             = p ++ sub_ws (match p with [] => st | _ => false end) b.
Proof.
  induction p as [|c p IH]; intros Hp st; [reflexivity|].
  cbn [app sub_ws]. rewrite (Hp c) by (left; reflexivity).
  rewrite IH by (intros c' Hc'; apply Hp; right; exact Hc').
  destruct p; reflexivity.
Qed.

Lemma sub_ws_mid (a p b : str) :
  p <> [] ->
  (forall c, In c p -> is_space c = false) ->
  forall st, sub_ws st (a ++ p ++ b) = sub_ws st a ++ p ++ sub_ws false b.
Proof.
  intros Hne Hp. induction a as [|c a IH]; intros st.
  - cbn [app sub_ws]. rewrite sub_ws_word by exact Hp.
    destruct p; [contradiction|reflexivity].
  - cbn [app sub_ws]. destruct (is_space c); [destruct st|];
      rewrite IH; reflexivity.
Qed.

Lemma lstrip_mid (x p y : str) :
  p <> [] ->
  (forall c, In c p -> is_space c = false) ->
  exists x', lstrip (x ++ p ++ y) = x' ++ p ++ y.
Proof.
  intros Hne Hp. induction x as [|c x [x' IH]].
  - exists []. destruct p as [|c p]; [contradiction|].
    cbn [app lstrip]. rewrite (Hp c) by (left; reflexivity). reflexivity.
  - cbn [app lstrip]. destruct (is_space c).
    + exists x'. exact IH.
    + exists (c :: x). reflexivity.
Qed.

Lemma strip_mid (x p y : str) :
  p <> [] ->
  (forall c, In c p -> is_space c = false) ->
  exists x' y', strip (x ++ p ++ y) = x' ++ p ++ y'.
Proof.
  intros Hne Hp. unfold strip, rstrip.
  rewrite !rev_app_distr, <- app_assoc.
  destruct (lstrip_mid (rev y) (rev p) (rev x)) as [y' E].
  { intros E. apply Hne. rewrite <- (rev_involutive p), E. reflexivity. }
  { intros c Hc. apply Hp, in_rev. exact Hc. }
  rewrite E, !rev_app_distr, !rev_involutive, <- app_assoc.
  destruct (lstrip_mid x p (rev y') Hne Hp) as [x' E'].
  exists x', (rev y'). exact E'.
Qed.

Lemma contains_mid (a p b : str) : contains (a ++ p ++ b) p = true.
Proof.
  apply contains_skip. rewrite contains_unfold, startswith_self_app.
  reflexivity.
Qed.

Lemma tidy_strip_trailing_colon (s : str) :
  tidy s -> tidy (strip_trailing_colon s).
Proof.
  intros (Hc & Hl & Ht). unfold strip_trailing_colon.
  rewrite (lstrip_fixed (rev s) Ht).
  destruct (rev s) as [|c r] eqn:E; [repeat split; try assumption; rewrite E; exact I|].
  destruct (c =? 58)%N; [|repeat split; try assumption; rewrite E; exact Ht].
  assert (Es : s = rev r ++ [c]).
  { rewrite <- (rev_involutive s), E. reflexivity. }
  assert (Er : rev (lstrip r) = rstrip (rev r)).
  { unfold rstrip. rewrite rev_involutive. reflexivity. }
  rewrite Er. repeat split.
  - apply clean_rstrip. apply (clean_app_l false (rev r) [c]).
    rewrite <- Es. exact Hc.
  - destruct (rstrip_split (rev r)) as (w & Ew & _).
    destruct (rstrip (rev r)) as [|c' t] eqn:Et; [exact I|].
    rewrite Es, Ew in Hl. exact Hl.
  - apply rstrip_no_trail.
Qed.

(** The text that [extract_plain_text] returns for a tag shows the
    target of every link below it: an [<a href=h>] that is not inside
    another link contributes its text followed by [(h)], and when [h]
    has no whitespace the normalisation leaves [(h)] as it is. *)
Theorem link_target_in_text (id : nat) (name : str)
    (attrs : list (str * str)) (kids : list node) (k : node) (h : str) :
  In k kids ->
  links_to h k ->
  (forall c, In c h -> is_space c = false) ->
  contains (extract_plain_text (Tag id name attrs kids))
           (lit "(" ++ h ++ lit ")") = true.
Proof.
  intros Hk Hl Hh.
  destruct (links_to_string h k Hl) as [a Ha].
  assert (Hin : In (a ++ lit " (" ++ h ++ lit ")")
                  (all_strings false
                     (Tag id name attrs (map replace_links kids)))).
  { cbn [all_strings]. apply in_flat_map. exists (replace_links k).
    split; [apply in_map; exact Hk|exact Ha]. }
  destruct (join_has [SP] _ _ Hin) as (u & v & E).
  unfold extract_plain_text, get_text, norm_ws. rewrite E.
  set (p := lit "(" ++ h ++ lit ")").
  assert (Hne : p <> []) by discriminate.
  assert (Hp : forall c, In c p -> is_space c = false).
  { intros c Hc. unfold p in Hc.
    apply in_app_or in Hc as [[<-|[]]|Hc]; [reflexivity|].
    apply in_app_or in Hc as [Hc|[<-|[]]]; [apply Hh; exact Hc|reflexivity]. }
  replace (u ++ (a ++ lit " (" ++ h ++ lit ")") ++ v)
    with ((u ++ a ++ [SP]) ++ p ++ v)
    by (unfold p; rewrite <- !app_assoc; reflexivity).
  rewrite (sub_ws_mid _ p v Hne Hp).
  destruct (strip_mid (sub_ws false (u ++ a ++ [SP])) p (sub_ws false v)
              Hne Hp) as (x' & y' & Es).
  rewrite Es. apply contains_mid.
Qed.

Lemma link_target_in_text_witness :
  contains (extract_plain_text linked_paragraph)
           (lit "(https://hr.example/leave)") = true.
Proof.
  apply (link_target_in_text 1 (lit "p") []
           [NavigableString (lit "See the ");
            Tag 2 (lit "em") []
              [Tag 3 (lit "a") [(lit "href", lit "https://hr.example/leave")]
                 [NavigableString (lit "leave policy")]]]
           (Tag 2 (lit "em") []
              [Tag 3 (lit "a") [(lit "href", lit "https://hr.example/leave")]
                 [NavigableString (lit "leave policy")]])
           (lit "https://hr.example/leave")).
  - right. left. reflexivity.
  - apply (link_below _ 2 (lit "em") [] _
             (Tag 3 (lit "a") [(lit "href", lit "https://hr.example/leave")]
                [NavigableString (lit "leave policy")])).
    + reflexivity.
    + left. reflexivity.
    + apply link_here. reflexivity.
  - intros c Hc. vm_compute in Hc.
    repeat (destruct Hc as [<-|Hc]; [reflexivity|]). destruct Hc.
Defined.

(** A heading of at most 80 characters heads its chunks exactly as it
    was extracted: the text of a heading, with its final colon removed,
    is already normalised, so [shorten_label] returns it unchanged and
    the header line is ["### "] followed by it. *)
Theorem heading_shown_in_header (el : node) :
  let h := strip_trailing_colon (extract_plain_text el) in
  len h <= 80 ->
  breadcrumb_header [h] = h
  /\ header_lines [h] = match h with [] => [] | _ => [lit "### " ++ h] end.
Proof.
  intros h Hlen.
  assert (Ht : tidy h).
  { apply tidy_strip_trailing_colon. unfold extract_plain_text.
    apply tidy_norm_ws. }
  assert (Eh : breadcrumb_header [h] = h).
  { unfold breadcrumb_header. cbn [map join].
    rewrite shorten_label_fits; rewrite (tidy_fixed h Ht);
      [reflexivity|exact Hlen]. }
  split; [exact Eh|]. unfold header_lines. rewrite Eh.
  destruct h; reflexivity.
Qed.

Lemma heading_shown_in_header_witness :
  breadcrumb_header
    [strip_trailing_colon (extract_plain_text heading_paragraph)]
  = strip_trailing_colon (extract_plain_text heading_paragraph)
  /\ header_lines
       [strip_trailing_colon (extract_plain_text heading_paragraph)]
     = match strip_trailing_colon (extract_plain_text heading_paragraph) with
       | [] => []
       | _ => [lit "### "
               ++ strip_trailing_colon (extract_plain_text heading_paragraph)]
       end.
Proof.
  apply (heading_shown_in_header heading_paragraph). vm_compute.
  discriminate.
Defined.
